(** * Kochi route planner: the route-search engine of [dijkstra.py]

    A shallow embedding of [LocationToLocationOptimizer]: the network
    builder, the multi-criteria Dijkstra search, path reconstruction and
    the aggregation of the four strategies.

    Modelling conventions.
    - A finite Python float is an exact rational ([Q]); the special
      values are the other constructors of [pyfloat].  The float
      operations return their result in lowest terms ([Qred]), which
      does not change its value.  Where the rounding of the arithmetic
      matters, in the relaxation and in what the search records, the
      search is given a second time in the module [Binary64], over
      IEEE 754 binary64 values.
    - [math.radians], [math.sin], [math.cos], [math.asin] and
      [math.sqrt] belong to the C library, not to the repository: they
      are the fields of a [MathLib] record over which the whole
      development is parametrised.  [ref_math] is one executable
      instance (truncated series in fixed point).
    - A Python dict that is iterated is an insertion-ordered association
      list ([pydict]); a dict that is only indexed is a [gmap].
    - A Python exception is a [Raise] in the [exc] monad.  Loops that
      are [while] loops in the source run on fuel computed from the
      graph; exhausting it is [Raise OutOfFuel], shown below never to
      happen. *)

From Stdlib Require Import QArith Qround Qabs Lqa.
From Stdlib Require Floats.SpecFloat.
From stdpp Require Import gmap strings list fin_maps sorting.

Local Open Scope string_scope.

(** ** Python values *)

Inductive pyfloat : Type :=
  | Fin (q : Q)
  | PInf
  | NInf
  | NaN.

Definition Qltb (x y : Q) : bool := negb (Qle_bool y x).

Definition fadd (x y : pyfloat) : pyfloat :=
  match x, y with
  | NaN, _ | _, NaN => NaN
  | Fin a, Fin b => Fin (Qred (a + b))
  | PInf, NInf | NInf, PInf => NaN
  | PInf, _ | _, PInf => PInf
  | NInf, _ | _, NInf => NInf
  end.

Definition fneg (x : pyfloat) : pyfloat :=
  match x with
  | Fin a => Fin (- a)%Q
  | PInf => NInf
  | NInf => PInf
  | NaN => NaN
  end.

(** Sign-directed product with an infinity. *)
Definition finf_scale (a : Q) (inf : pyfloat) : pyfloat :=
  if Qltb 0 a then inf else if Qltb a 0 then fneg inf else NaN.

Definition fmul (x y : pyfloat) : pyfloat :=
  match x, y with
  | NaN, _ | _, NaN => NaN
  | Fin a, Fin b => Fin (Qred (a * b))
  | Fin a, i | i, Fin a => finf_scale a i
  | PInf, PInf | NInf, NInf => PInf
  | PInf, NInf | NInf, PInf => NInf
  end.

(** Division by a finite literal; the source only divides by the
    positive literals 200.0, 120.0 and 5.0. *)
Definition fdiv (x : pyfloat) (d : Q) : pyfloat :=
  match x with
  | Fin a => Fin (Qred (a / d))
  | i => finf_scale d i
  end.

Definition flt (x y : pyfloat) : bool :=
  match x, y with
  | NaN, _ | _, NaN => false
  | Fin a, Fin b => Qltb a b
  | _, NInf => false
  | NInf, _ => true
  | PInf, _ => false
  | _, PInf => true
  end.

Definition fgt (x y : pyfloat) : bool := flt y x.

Definition feq (x y : pyfloat) : bool :=
  match x, y with
  | Fin a, Fin b => Qeq_bool a b
  | PInf, PInf | NInf, NInf => true
  | _, _ => false
  end.

(** Truth value of a [str]: non-empty. *)
Definition truthy (s : string) : bool :=
  match s with EmptyString => false | _ => true end.

(** ** Exceptions *)

Inductive pyexn : Type :=
  | KeyError
  | OverflowError
  | ValueError
  | OutOfFuel.

Inductive exc (A : Type) : Type :=
  | Ok (a : A)
  | Raise (e : pyexn).
Arguments Ok {A} a.
Arguments Raise {A} e.

#[global] Instance exc_ret : MRet exc := λ A a, Ok a.
#[global] Instance exc_bind : MBind exc := λ A B f m,
  match m with Ok a => f a | Raise e => Raise e end.

(** [for x in l: acc = f(acc, x)] with exceptions. *)
Fixpoint foldM {A B : Type} (f : A → B → exc A) (acc : A) (l : list B)
  : exc A :=
  match l with
  | [] => Ok acc
  | x :: l' => acc' ← f acc x; foldM f acc' l'
  end.

(** [d[k]] on a dict that is only indexed. *)
Definition getitem {V : Type} (d : gmap string V) (k : string) : exc V :=
  match d !! k with Some v => Ok v | None => Raise KeyError end.

(** ** Insertion-ordered dicts *)

Definition pydict (V : Type) : Type := list (string * V).

Fixpoint dict_get {V : Type} (d : pydict V) (k : string) : option V :=
  match d with
  | [] => None
  | (k', v) :: d' => if String.eqb k' k then Some v else dict_get d' k
  end.

(** [d[k] = v]: an existing key keeps its position. *)
Fixpoint dict_set {V : Type} (d : pydict V) (k : string) (v : V)
  : pydict V :=
  match d with
  | [] => [(k, v)]
  | (k', v') :: d' =>
      if String.eqb k' k then (k', v) :: d' else (k', v') :: dict_set d' k v
  end.

Definition dict_mem {V : Type} (d : pydict V) (k : string) : bool :=
  match dict_get d k with Some _ => true | None => false end.

Definition dict_getitem {V : Type} (d : pydict V) (k : string) : exc V :=
  match dict_get d k with Some v => Ok v | None => Raise KeyError end.

(** ** Stable sort by a float key ([list.sort(key=...)]) *)

Section Sort.
Context {A : Type} (key : A → Q).

Fixpoint insert_by (x : A) (l : list A) : list A :=
  match l with
  | [] => [x]
  | y :: l' => if Qltb (key y) (key x) then y :: insert_by x l'
               else x :: l
  end.

Definition sort_by (l : list A) : list A := foldr insert_by [] l.
End Sort.

(** ** [round(x, ndigits)] on a finite float: nearest multiple of
    [10^-ndigits], ties to even *)

Definition round_half_even (x : Q) : Z :=
  let f := Qfloor x in
  match (x - inject_Z f ?= 1 # 2)%Q with
  | Lt => f
  | Gt => (f + 1)%Z
  | Eq => if Z.even f then f else (f + 1)%Z
  end.

Definition pow10 (n : nat) : Q := inject_Z (10 ^ Z.of_nat n).

Definition round_q (x : Q) (ndigits : nat) : Q :=
  (inject_Z (round_half_even (x * pow10 ndigits)) / pow10 ndigits)%Q.

Definition py_round (x : pyfloat) (ndigits : nat) : exc Q :=
  match x with
  | Fin q => Ok (round_q q ndigits)
  | PInf | NInf => Raise OverflowError
  | NaN => Raise ValueError
  end.

(** ** Data model *)

Record LocationInfo : Type := {
  lat : Q;
  lon : Q;
  type : string;
  zone : string
}.

Record Edge : Type := {
  destination : string;
  mode : string;
  time : Q;
  distance : Q;
  cost : Q
}.

Record Optimizer : Type := {
  graph : gmap string (list Edge);
  locations : pydict LocationInfo;
  metro_stations : pydict (Q * Q)
}.

(** ** The C library's functions used by the distance metric *)

Record MathLib : Type := {
  radians : Q → Q;
  sin : Q → Q;
  cos : Q → Q;
  asin : Q → Q;
  sqrt : Q → Q
}.

(** ** NetworkBuilder *)

Definition metro_data : list (string * Q * Q * string) :=
  [ ("Aluva Metro", 10.1082, 76.3520, "Zone 3");
    ("Pulinchodu Metro", 10.1012, 76.3445, "Zone 3");
    ("Companypady Metro", 10.0942, 76.3370, "Zone 3");
    ("Ambattukavu Metro", 10.0872, 76.3295, "Zone 2");
    ("Muttom Metro", 10.0802, 76.3220, "Zone 2");
    ("Kalamassery Metro", 10.0732, 76.3145, "Zone 2");
    ("Cusat Metro", 10.0662, 76.3070, "Zone 2");
    ("Pathadipalam Metro", 10.0592, 76.2995, "Zone 2");
    ("Edapally Metro", 10.0522, 76.2920, "Zone 2");
    ("Changampuzha Park Metro", 10.0452, 76.2845, "Zone 2");
    ("Palarivattom Metro", 10.0382, 76.2770, "Zone 2");
    ("J.L.N Stadium Metro", 10.0312, 76.2695, "Zone 2");
    ("Kaloor Metro", 10.0242, 76.2620, "Zone 2");
    ("Lissie Metro", 10.0172, 76.2545, "Zone 1");
    ("M.G Road Metro", 10.0102, 76.2470, "Zone 1");
    ("Maharajas Metro", 10.0032, 76.2395, "Zone 1");
    ("Ernakulam South Metro", 9.9962, 76.2320, "Zone 1");
    ("Kadavanthra Metro", 9.9892, 76.2245, "Zone 2");
    ("Elamkulam Metro", 9.9822, 76.2170, "Zone 2");
    ("Vyttila Metro", 9.9752, 76.2095, "Zone 2");
    ("Thaikoodam Metro", 9.9682, 76.2020, "Zone 3");
    ("Petta Metro", 9.9612, 76.1945, "Zone 3");
    ("Thripunithura Metro", 9.9542, 76.1870, "Zone 3") ]%Q.

Definition popular_places : list (string * Q * Q * string) :=
  [ ("Aluva Town", 10.1100, 76.3550, "residential");
    ("Kalamassery Town", 10.0750, 76.3200, "residential");
    ("Edapally Market", 10.0540, 76.2950, "commercial");
    ("Kakkanad Infopark", 10.0150, 76.3450, "commercial");
    ("Palarivattom Junction", 10.0400, 76.2800, "junction");
    ("M.G Road Market", 10.0120, 76.2500, "commercial");
    ("Marine Drive", 9.9750, 76.2800, "tourist");
    ("Ernakulam South Bus Stand", 9.9980, 76.2350, "transport_hub");
    ("Fort Kochi", 9.9650, 76.2420, "tourist");
    ("Vyttila Hub", 9.9770, 76.3100, "transport_hub");
    ("Kakkanad Seaport Airport Road", 10.0050, 76.3350, "commercial");
    ("Thripunithura Town", 9.9560, 76.1900, "residential");
    ("Medical Trust Hospital Edapally", 10.0510, 76.2880, "hospital");
    ("Lakeshore Hospital Kochi", 9.9800, 76.2950, "hospital");
    ("Amrita Hospital Kochi", 10.0430, 76.3100, "hospital");
    ("CUSAT Campus", 10.0650, 76.3050, "educational");
    ("Rajagiri College Kakkanad", 10.0200, 76.3400, "educational");
    ("Lulu Mall Edapally", 10.0450, 76.3000, "mall");
    ("Oberon Mall", 10.0340, 76.2780, "mall");
    ("Centre Square Mall", 9.9880, 76.2880, "mall") ]%Q.

Definition _add_edge (self : Optimizer) (from_loc to_loc mode : string)
    (time distance cost : Q) : Optimizer :=
  let e := {| destination := to_loc; mode := mode; time := time;
              distance := distance; cost := cost |} in
  {| graph := <[from_loc := (default [] (graph self !! from_loc) ++ [e])%list]>
                (graph self);
     locations := locations self;
     metro_stations := metro_stations self |}.

Section Builder.
Variable M : MathLib.
Local Open Scope Q_scope.

Definition _haversine_distance (lat1 lon1 lat2 lon2 : Q) : Q :=
  let R := 6371 in
  let lat1_rad := radians M lat1 in
  let lat2_rad := radians M lat2 in
  let dlat := radians M (lat2 - lat1) in
  let dlon := radians M (lon2 - lon1) in
  let a := (sin M (dlat / 2) ^ 2
            + cos M lat1_rad * cos M lat2_rad * sin M (dlon / 2) ^ 2) in
  let c := 2 * asin M (sqrt M a) in
  R * c.

(** First loop of [_build_metro_network]. *)
Definition add_station (self : Optimizer) (d : string * Q * Q * string)
  : Optimizer :=
  let '(name, lat, lon, zone) := d in
  {| graph := graph self;
     locations := dict_set (locations self) name
       {| lat := lat; lon := lon; type := "metro_station"; zone := zone |};
     metro_stations := dict_set (metro_stations self) name (lat, lon) |}.

(** Second loop: [for i in range(len(stations_list) - 1)]. *)
Fixpoint connect_consecutive (self : Optimizer) (stations_list : list string)
  : exc Optimizer :=
  match stations_list with
  | station1 :: ((station2 :: _) as rest) =>
      l1 ← dict_getitem (locations self) station1;
      l2 ← dict_getitem (locations self) station2;
      let time := 2.5 in
      let distance := _haversine_distance (lat l1) (lon l1) (lat l2) (lon l2) in
      let cost := 5 in
      let self := _add_edge self station1 station2 "metro" time distance cost in
      let self := _add_edge self station2 station1 "metro" time distance cost in
      connect_consecutive self rest
  | _ => Ok self
  end.

Definition _build_metro_network (self : Optimizer) : exc Optimizer :=
  let self := foldl add_station self metro_data in
  let stations_list := map (λ d, let '(name, _, _, _) := d in name) metro_data in
  connect_consecutive self stations_list.

Definition add_place (self : Optimizer) (d : string * Q * Q * string)
  : Optimizer :=
  let '(name, lat, lon, loc_type) := d in
  {| graph := graph self;
     locations := dict_set (locations self) name
       {| lat := lat; lon := lon; type := loc_type; zone := "N/A" |};
     metro_stations := metro_stations self |}.

Definition _add_popular_locations (self : Optimizer) : Optimizer :=
  foldl add_place self popular_places.

Definition _find_nearest_metro_stations (self : Optimizer)
    (location : string) (k : nat) : list (string * Q) :=
  match dict_get (locations self) location with
  | None => []
  | Some loc_data =>
      let distances :=
        map (λ s, let '(station, (lat2, lon2)) := s in
                  (station,
                   _haversine_distance (lat loc_data) (lon loc_data) lat2 lon2))
            (metro_stations self) in
      take k (sort_by snd distances)
  end.

(** Body of the inner loop of [_connect_locations_to_metro]. *)
Definition connect_station (location : string) (self : Optimizer)
    (sd : string * Q) : Optimizer :=
  let '(station, distance_km) := sd in
  let self :=
    if Qltb distance_km 1.5 then
      let walk_time := distance_km * 15 in
      let walk_cost := distance_km * 5 in
      let self := _add_edge self location station "walk" walk_time distance_km walk_cost in
      _add_edge self station location "walk" walk_time distance_km walk_cost
    else self in
  let self :=
    if Qltb distance_km 15 then
      let auto_time := distance_km * 3 in
      let auto_cost := 20 + distance_km * 12 in
      let self := _add_edge self location station "auto" auto_time distance_km auto_cost in
      _add_edge self station location "auto" auto_time distance_km auto_cost
    else self in
  if Qltb 1.0 distance_km && Qltb distance_km 10 then
    let bus_time := distance_km * 4 in
    let bus_cost := 10 + distance_km * 3 in
    let self := _add_edge self location station "bus" bus_time distance_km bus_cost in
    _add_edge self station location "bus" bus_time distance_km bus_cost
  else self.

Definition connect_location (self : Optimizer)
    (item : string * LocationInfo) : Optimizer :=
  let '(location, loc_data) := item in
  if String.eqb (type loc_data) "metro_station" then self
  else
    let nearest_stations := _find_nearest_metro_stations self location 3 in
    foldl (connect_station location) self nearest_stations.

Definition _connect_locations_to_metro (self : Optimizer) : Optimizer :=
  foldl connect_location self (locations self).

(** Body of the inner loop of [_add_direct_connections]. *)
Definition connect_pair (item1 : string * LocationInfo) (self : Optimizer)
    (item2 : string * LocationInfo) : Optimizer :=
  let '(loc1, data1) := item1 in
  let '(loc2, data2) := item2 in
  let distance :=
    _haversine_distance (lat data1) (lon data1) (lat data2) (lon data2) in
  let self :=
    if Qltb distance 10 then
      let auto_time := distance * 3 in
      let auto_cost := 20 + distance * 12 in
      let self := _add_edge self loc1 loc2 "auto" auto_time distance auto_cost in
      _add_edge self loc2 loc1 "auto" auto_time distance auto_cost
    else self in
  if Qltb distance 1.5 then
    let walk_time := distance * 15 in
    let walk_cost := distance * 5 in
    let self := _add_edge self loc1 loc2 "walk" walk_time distance walk_cost in
    _add_edge self loc2 loc1 "walk" walk_time distance walk_cost
  else self.

(** [for i, x in enumerate(l): for y in l[i+1:]: ...] *)
Fixpoint connect_pairs (self : Optimizer)
    (locations_list : list (string * LocationInfo)) : Optimizer :=
  match locations_list with
  | [] => self
  | item1 :: rest =>
      connect_pairs (foldl (connect_pair item1) self rest) rest
  end.

Definition _add_direct_connections (self : Optimizer) : Optimizer :=
  let locations_list :=
    filter (λ item, type item.2 ≠ "metro_station") (locations self) in
  connect_pairs self locations_list.

Definition __init__ : exc Optimizer :=
  let self := {| graph := ∅; locations := []; metro_stations := [] |} in
  self ← _build_metro_network self;
  let self := _add_popular_locations self in
  let self := _connect_locations_to_metro self in
  Ok (_add_direct_connections self).
End Builder.

(** ** A reference implementation of the C library's functions

    Truncated power series in binary fixed point (80 fractional bits).
    On the catalogue's arguments (angles below 0.2 radian for [cos],
    below 0.01 for [sin] and [asin]) the truncation error of each
    series is far below the 16 significant digits of a binary64
    float. *)

Module RefMath.
Local Open Scope Z_scope.

Definition prec : Z := 80.

(** [floor (x * 2^prec)]; a shift when the denominator is a power of
    two. *)
Definition to_fix (x : Q) : Z :=
  let d := Zpos (Qden x) in
  let n := Z.log2 d in
  if d =? Z.shiftl 1 n then Z.shiftr (Z.shiftl (Qnum x) prec) n
  else Z.shiftl (Qnum x) prec / d.

Definition of_fix (a : Z) : Q := Qmake a (Z.to_pos (Z.shiftl 1 prec)).

Definition mul (a b : Z) : Z := Z.shiftr (a * b) prec.

(** [sum_k c_k x^k] by Horner's rule, coefficients from the constant
    term up. *)
Definition horner (cs : list Z) (x : Z) : Z :=
  foldr (λ c acc, c + mul x acc) 0 cs.

Definition pi_180 : Z :=
  Eval vm_compute in to_fix (3.1415926535897932384626433832795 / 180)%Q.

Definition radians (x : Q) : Q := of_fix (mul (to_fix x) pi_180).

Definition sin_coeffs : list Z :=
  Eval vm_compute in
    map to_fix [1; -1 # 6; 1 # 120; -1 # 5040; 1 # 362880]%Q.

Definition cos_coeffs : list Z :=
  Eval vm_compute in
    map to_fix [1; -1 # 2; 1 # 24; -1 # 720; 1 # 40320; -1 # 3628800;
                1 # 479001600; -1 # 87178291200]%Q.

Definition asin_coeffs : list Z :=
  Eval vm_compute in
    map to_fix [1; 1 # 6; 3 # 40; 15 # 336; 105 # 3456]%Q.

Definition sin (x : Q) : Q :=
  let a := to_fix x in of_fix (mul a (horner sin_coeffs (mul a a))).

Definition cos (x : Q) : Q :=
  let a := to_fix x in of_fix (horner cos_coeffs (mul a a)).

Definition asin (x : Q) : Q :=
  let a := to_fix x in of_fix (mul a (horner asin_coeffs (mul a a))).

Definition sqrt (x : Q) : Q :=
  of_fix (Z.sqrt (Z.shiftl (to_fix x) prec)).
End RefMath.

Definition ref_math : MathLib :=
  {| radians := RefMath.radians; sin := RefMath.sin; cos := RefMath.cos;
     asin := RefMath.asin; sqrt := RefMath.sqrt |}.

(** ** RouteSearch *)

Record SearchState : Type := {
  distances : gmap string pyfloat;
  costs : gmap string pyfloat;
  times : gmap string pyfloat;
  distances_km : gmap string pyfloat;
  transfers : gmap string Z;
  previous : gmap string (option string);
  edge_info : gmap string (option Edge)
}.

(** [{loc: v for loc in self.locations}] *)
Definition dict_from_keys {V : Type} (locs : pydict LocationInfo) (v : V)
  : gmap string V :=
  foldl (λ d item, <[item.1 := v]> d) ∅ locs.

(** The heap of [(score, name)] tuples.  [heapq] always pops a minimum
    of the tuple order, and two tuples that are both minimal are equal,
    so the heap is modelled by the list of its elements. *)
Definition heap : Type := list (pyfloat * string).

Definition tuple_lt (x y : pyfloat * string) : bool :=
  if feq x.1 y.1 then String.ltb x.2 y.2 else flt x.1 y.1.

Definition heappush (pq : heap) (x : pyfloat * string) : heap := x :: pq.

Fixpoint heap_min (x : pyfloat * string) (pq : heap) : pyfloat * string :=
  match pq with
  | [] => x
  | y :: pq' => heap_min (if tuple_lt y x then y else x) pq'
  end.

Definition tuple_eqb (x y : pyfloat * string) : bool :=
  negb (tuple_lt x y) && negb (tuple_lt y x).

Fixpoint heap_remove (x : pyfloat * string) (pq : heap) : heap :=
  match pq with
  | [] => []
  | y :: pq' => if tuple_eqb x y then pq' else y :: heap_remove x pq'
  end.

Definition heappop (pq : heap) : option ((pyfloat * string) * heap) :=
  match pq with
  | [] => None
  | x :: pq' => let m := heap_min x pq' in Some (m, heap_remove m pq)
  end.

Section RouteSearch.
Variable self : Optimizer.

Section Dijkstra.
Variables (start end_ : string).
Variables (cost_weight time_weight convenience_weight : Q).

(** One iteration of [for edge in self.graph[current]]. *)
Definition relax (visited : list string) (current : string)
    (acc : SearchState * heap) (edge : Edge) : exc (SearchState * heap) :=
  let '(st, pq) := acc in
  let neighbor := destination edge in
  if bool_decide (neighbor ∈ visited) then Ok (st, pq)
  else
    cost_cur ← getitem (costs st) current;
    time_cur ← getitem (times st) current;
    dist_cur ← getitem (distances_km st) current;
    transfers_cur ← getitem (transfers st) current;
    info_cur ← getitem (edge_info st) current;
    let new_cost := fadd cost_cur (Fin (cost edge)) in
    let new_time := fadd time_cur (Fin (time edge)) in
    let new_distance := fadd dist_cur (Fin (distance edge)) in
    let prev_mode := mode <$> info_cur in
    let mode_changed :=
      match prev_mode with
      | Some m => truthy m && negb (String.eqb m (mode edge))
      | None => false
      end in
    let new_transfers :=
      if mode_changed then (transfers_cur + 1)%Z else transfers_cur in
    let mode_change_penalty := if mode_changed then 0.3%Q else 0%Q in
    let walk_penalty :=
      if String.eqb (mode edge) "walk" && Qltb 0.5 (distance edge)
      then (distance edge * 0.2)%Q else 0%Q in
    let norm_cost :=
      if fgt new_cost (Fin 0) then fdiv new_cost 200 else Fin 0 in
    let norm_time :=
      if fgt new_time (Fin 0) then fdiv new_time 120 else Fin 0 in
    let norm_transfers :=
      if (0 <? new_transfers)%Z then Fin (inject_Z new_transfers / 5)
      else Fin 0 in
    let composite :=
      fadd (fadd (fmul (Fin cost_weight) norm_cost)
                 (fmul (Fin time_weight) norm_time))
           (fmul (Fin convenience_weight)
                 (fadd (fadd norm_transfers (Fin mode_change_penalty))
                       (Fin walk_penalty))) in
    best ← getitem (distances st) neighbor;
    if flt composite best then
      Ok ({| distances := <[neighbor := composite]> (distances st);
             costs := <[neighbor := new_cost]> (costs st);
             times := <[neighbor := new_time]> (times st);
             distances_km := <[neighbor := new_distance]> (distances_km st);
             transfers := <[neighbor := new_transfers]> (transfers st);
             previous := <[neighbor := Some current]> (previous st);
             edge_info := <[neighbor := Some edge]> (edge_info st) |},
          heappush pq (composite, neighbor))
    else Ok (st, pq).

(** [while pq: ...] *)
Fixpoint dijkstra_loop (fuel : nat) (st : SearchState) (pq : heap)
    (visited : list string) : exc SearchState :=
  match fuel with
  | O => Raise OutOfFuel
  | S fuel =>
      match heappop pq with
      | None => Ok st
      | Some ((_, current), pq) =>
          if bool_decide (current ∈ visited) then
            dijkstra_loop fuel st pq visited
          else
            let visited := current :: visited in
            if String.eqb current end_ then Ok st
            else
              match graph self !! current with
              | None => dijkstra_loop fuel st pq visited
              | Some edges =>
                  '(st, pq) ← foldM (relax visited current) (st, pq) edges;
                  dijkstra_loop fuel st pq visited
              end
      end
  end.

Definition edge_count : nat :=
  map_fold (λ _ edges n, (length edges + n)%nat) 0%nat (graph self).

Definition _dijkstra : exc SearchState :=
  let inf := PInf in
  let st :=
    {| distances := <[start := Fin 0]> (dict_from_keys (locations self) inf);
       costs := <[start := Fin 0]> (dict_from_keys (locations self) inf);
       times := <[start := Fin 0]> (dict_from_keys (locations self) inf);
       distances_km := <[start := Fin 0]> (dict_from_keys (locations self) inf);
       transfers := <[start := 0%Z]> (dict_from_keys (locations self) 0%Z);
       previous := dict_from_keys (locations self) None;
       edge_info := dict_from_keys (locations self) None |} in
  dijkstra_loop (2 + edge_count) st [(Fin 0, start)] [].
End Dijkstra.
End RouteSearch.

(** ** RouteAggregator *)

Record Step : Type := {
  location : string;
  step_type : string;
  step_mode : string;
  segment_time : Q;
  segment_cost : Q;
  segment_distance : Q
}.

Record Route : Type := {
  strategy : string;
  total_cost : Q;
  total_time : Q;
  total_distance : Q;
  num_segments : Z;
  path : list Step
}.

(** An element of the list that [find_optimized_routes] returns: either
    [{"error": msg}] or a route dict. *)
Inductive result_item : Type :=
  | ErrorDict (error : string)
  | RouteDict (route : Route).

Record Strategy : Type := {
  strat_name : string;
  strat_cost : Q;
  strat_time : Q;
  strat_conv : Q
}.

Definition strategies : list Strategy :=
  [ {| strat_name := "Cheapest"; strat_cost := 0.8; strat_time := 0.1; strat_conv := 0.1 |};
    {| strat_name := "Fastest"; strat_cost := 0.1; strat_time := 0.8; strat_conv := 0.1 |};
    {| strat_name := "Balanced"; strat_cost := 0.4; strat_time := 0.4; strat_conv := 0.2 |};
    {| strat_name := "Most Convenient"; strat_cost := 0.2; strat_time := 0.3; strat_conv := 0.5 |} ]%Q.

Definition msg_start_not_found (start_location : string) : string :=
  "Start location '" ++ start_location ++ "' not found".

Definition msg_end_not_found (end_location : string) : string :=
  "End location '" ++ end_location ++ "' not found".

Definition msg_same : string := "Start and end locations are the same".

Definition msg_no_route (start_location end_location : string) : string :=
  "No route found between " ++ start_location ++ " and " ++ end_location.

Section Aggregator.
Variable self : Optimizer.

(** [while current is not None: path.append(current); ...] *)
Fixpoint walk_back (fuel : nat) (result : SearchState)
    (current : option string) (path : list string) : exc (list string) :=
  match fuel with
  | O => Raise OutOfFuel
  | S fuel =>
      match current with
      | None => Ok path
      | Some c =>
          next ← getitem (previous result) c;
          walk_back fuel result next (path ++ [c])%list
      end
  end.

(** Body of [for i in range(len(path))]; [first] is [i == 0]. *)
Definition detail (result : SearchState) (first : bool) (loc : string)
  : exc Step :=
  if first then
    info ← dict_getitem (locations self) loc;
    Ok {| location := loc; step_type := type info; step_mode := "start";
          segment_time := 0; segment_cost := 0; segment_distance := 0 |}
  else
    edge ← getitem (edge_info result) loc;
    match edge with
    | Some edge =>
        info ← dict_getitem (locations self) loc;
        Ok {| location := loc; step_type := type info;
              step_mode := mode edge;
              segment_time := round_q (time edge) 1;
              segment_cost := round_q (cost edge) 2;
              segment_distance := round_q (distance edge) 2 |}
    | None =>
        info ← dict_getitem (locations self) loc;
        Ok {| location := loc; step_type := type info;
              step_mode := "unknown";
              segment_time := 0; segment_cost := 0; segment_distance := 0 |}
    end.

Fixpoint detail_rest (result : SearchState) (locs : list string)
  : exc (list Step) :=
  match locs with
  | [] => Ok []
  | loc :: locs =>
      s ← detail result false loc;
      ss ← detail_rest result locs;
      Ok (s :: ss)
  end.

Definition _reconstruct_path (start end_ : string) (result : SearchState)
  : exc (list Step) :=
  path ← walk_back (2 + length (locations self)) result (Some end_) [];
  let path := reverse path in
  match path with
  | [] => Ok []
  | loc0 :: rest =>
      if negb (String.eqb loc0 start) then Ok []
      else
        s ← detail result true loc0;
        ss ← detail_rest result rest;
        Ok (s :: ss)
  end.

(** Body of [for strategy in strategies]. *)
Definition run_strategy (start_location end_location : string)
    (all_routes : list Route) (strategy : Strategy) : exc (list Route) :=
  result ← _dijkstra self start_location end_location
             (strat_cost strategy) (strat_time strategy) (strat_conv strategy);
  prev_end ← getitem (previous result) end_location;
  match prev_end with
  | None => Ok all_routes
  | Some _ =>
      path ← _reconstruct_path start_location end_location result;
      match path with
      | [] => Ok all_routes
      | _ :: _ =>
          cost_end ← getitem (costs result) end_location;
          total_cost ← py_round cost_end 2;
          time_end ← getitem (times result) end_location;
          total_time ← py_round time_end 1;
          dist_end ← getitem (distances_km result) end_location;
          total_distance ← py_round dist_end 2;
          Ok (all_routes ++
              [ {| strategy := strat_name strategy;
                   total_cost := total_cost;
                   total_time := total_time;
                   total_distance := total_distance;
                   num_segments := Z.of_nat (length path) - 1;
                   path := path |} ])%list
      end
  end.

Definition path_key (route : Route) : list string :=
  map location (path route).

(** [for route in all_routes: if path_key not in seen_paths: ...] *)
Fixpoint remove_duplicates (seen_paths : list (list string))
    (all_routes : list Route) : list Route :=
  match all_routes with
  | [] => []
  | route :: rest =>
      if bool_decide (path_key route ∈ seen_paths) then
        remove_duplicates seen_paths rest
      else route :: remove_duplicates (path_key route :: seen_paths) rest
  end.

Definition rank_key (r : Route) : Q :=
  (total_cost r * 0.6 + total_time r * 0.4)%Q.

Definition find_optimized_routes (start_location end_location : string)
  : exc (list result_item) :=
  if negb (dict_mem (locations self) start_location) then
    Ok [ErrorDict (msg_start_not_found start_location)]
  else if negb (dict_mem (locations self) end_location) then
    Ok [ErrorDict (msg_end_not_found end_location)]
  else if String.eqb start_location end_location then
    Ok [ErrorDict msg_same]
  else
    all_routes ← foldM (run_strategy start_location end_location) [] strategies;
    let unique_routes := remove_duplicates [] all_routes in
    let unique_routes := sort_by rank_key unique_routes in
    match unique_routes with
    | [] => Ok [ErrorDict (msg_no_route start_location end_location)]
    | _ :: _ => Ok (RouteDict <$> unique_routes)
    end.
End Aggregator.

(** The optimizer that [LocationToLocationOptimizer()] constructs. *)
Definition kochi (M : MathLib) : Optimizer :=
  match __init__ M with
  | Ok self => self
  | Raise _ => {| graph := ∅; locations := []; metro_stations := [] |}
  end.

(** ** Invariants of the search *)

(** Names of the catalogue. *)
Definition keys (self : Optimizer) : list string := (locations self).*1.

(** Every edge leads to a catalogued location. *)
Definition graph_wf (self : Optimizer) : Prop :=
  ∀ v es e, graph self !! v = Some es → e ∈ es → destination e ∈ keys self.

(** Number of edges leaving the nodes that are not yet visited. *)
Definition remaining (g : gmap string (list Edge)) (visited : list string)
  : nat :=
  map_fold (λ k es n, if bool_decide (k ∈ visited) then n
                      else (length es + n)%nat) 0%nat g.

(** What holds of the search state between two iterations of the
    [while] loop; [visited] lists the closed nodes, newest first. *)
Record search_inv (self : Optimizer) (start : string)
    (st : SearchState) (visited : list string) : Prop := {
  inv_dom : ∀ k, k ∈ keys self →
    is_Some (distances st !! k) ∧ is_Some (costs st !! k) ∧
    is_Some (times st !! k) ∧ is_Some (distances_km st !! k) ∧
    is_Some (transfers st !! k) ∧ is_Some (previous st !! k) ∧
    is_Some (edge_info st !! k);
  inv_visited : ∀ n, n ∈ visited → n ∈ keys self;
  inv_nodup : NoDup visited;
  inv_start : previous st !! start = Some None;
  inv_start0 : costs st !! start = Some (Fin 0) ∧
               times st !! start = Some (Fin 0) ∧
               distances_km st !! start = Some (Fin 0);
  inv_root : ∀ n, n ∈ visited → n ≠ start →
    ∃ c, previous st !! n = Some (Some c);
  inv_chain : ∀ n c, previous st !! n = Some (Some c) →
    c ∈ visited ∧ ∀ a b, visited = (a ++ n :: b)%list → c ∈ b;
  inv_edge : ∀ n c, previous st !! n = Some (Some c) →
    ∃ e cc ct cd,
      edge_info st !! n = Some (Some e) ∧ destination e = n ∧
      (∃ es, graph self !! c = Some es ∧ e ∈ es) ∧
      costs st !! c = Some (Fin cc) ∧
      costs st !! n = Some (fadd (Fin cc) (Fin (cost e))) ∧
      times st !! c = Some (Fin ct) ∧
      times st !! n = Some (fadd (Fin ct) (Fin (time e))) ∧
      distances_km st !! c = Some (Fin cd) ∧
      distances_km st !! n = Some (fadd (Fin cd) (Fin (distance e)))
}.

(** What holds of the heap: only catalogued names, each of them the
    start or a node that has a predecessor. *)
Definition heap_inv (self : Optimizer) (start : string)
    (st : SearchState) (pq : heap) : Prop :=
  ∀ x, x ∈ pq →
    x.2 ∈ keys self ∧ (x.2 = start ∨ ∃ c, previous st !! x.2 = Some (Some c)).

(** The start is closed first. *)
Definition start_inv (start : string) (pq : heap) (visited : list string)
  : Prop :=
  start ∈ visited ∨ (visited = [] ∧ pq = [(Fin 0, start)]).

(** The predecessor links from [n] back to [root]: the nodes met, [n]
    first, and the edge by which each but the root was reached. *)
Inductive chain (st : SearchState) (root : string)
  : string → list string → list Edge → Prop :=
  | chain_root :
      previous st !! root = Some None → chain st root root [root] []
  | chain_step n c l es e :
      previous st !! n = Some (Some c) →
      edge_info st !! n = Some (Some e) →
      chain st root c l es →
      chain st root n (n :: l) (e :: es).

(** A step of a route shows the edge it was reached by, rounded. *)
Definition step_shows (s : Step) (e : Edge) : Prop :=
  location s = destination e ∧ step_mode s = mode e ∧
  segment_time s = round_q (time e) 1 ∧
  segment_cost s = round_q (cost e) 2 ∧
  segment_distance s = round_q (distance e) 2.

Definition Qsum (l : list Q) : Q := foldr Qplus 0%Q l.

(** A strategy's search reaches the destination. *)
Definition reaches (self : Optimizer) (start_location end_location : string)
    (s : Strategy) : Prop :=
  ∃ st c,
    _dijkstra self start_location end_location
      (strat_cost s) (strat_time s) (strat_conv s) = Ok st ∧
    previous st !! end_location = Some (Some c).

(** What a route built for strategy [s] looks like. *)
Record route_ok (self : Optimizer) (start_location end_location : string)
    (s : Strategy) (r : Route) : Prop := {
  ro_strategy : strategy r = strat_name s;
  ro_shape : ∃ s0 ss es,
    path r = s0 :: ss ∧ ss ≠ [] ∧
    location s0 = start_location ∧ step_mode s0 = "start" ∧
    segment_time s0 = 0%Q ∧ segment_cost s0 = 0%Q ∧
    segment_distance s0 = 0%Q ∧
    location <$> last (path r) = Some end_location ∧
    Forall2 step_shows ss es ∧
    (∃ tc, total_cost r = round_q tc 2 ∧ (tc == Qsum (cost <$> es))%Q) ∧
    (∃ tt, total_time r = round_q tt 1 ∧ (tt == Qsum (time <$> es))%Q) ∧
    (∃ td, total_distance r = round_q td 2 ∧
           (td == Qsum (distance <$> es))%Q)
}.

(** The routes gathered by the loop over the strategies: one for each
    strategy that reaches the destination, in the order of the
    strategies. *)
Inductive collected (self : Optimizer) (start_location end_location : string)
  : list Strategy → list Route → Prop :=
  | collected_nil : collected self start_location end_location [] []
  | collected_skip s ss rs :
      ¬ reaches self start_location end_location s →
      collected self start_location end_location ss rs →
      collected self start_location end_location (s :: ss) rs
  | collected_keep s ss r rs :
      reaches self start_location end_location s →
      route_ok self start_location end_location s r →
      collected self start_location end_location ss rs →
      collected self start_location end_location (s :: ss) (r :: rs).

Definition key_le {A : Type} (key : A → Q) (x y : A) : Prop :=
  (key x <= key y)%Q.

(** Consecutive elements are in ascending order of [key]. *)
Definition ascending {A : Type} (key : A → Q) (l : list A) : Prop :=
  ∀ i x y, l !! i = Some x → l !! S i = Some y → (key x <= key y)%Q.


(** The routes returned for the routes gathered: duplicates removed,
    then ranked. *)
Definition ranked (all_routes : list Route) : list Route :=
  sort_by rank_key (remove_duplicates [] all_routes).

(** ** The edges that the builder adds, as a list *)

(** [e] is among the edges leaving [v]. *)
Definition has_edge (self : Optimizer) (v : string) (e : Edge) : Prop :=
  ∃ es, graph self !! v = Some es ∧ e ∈ es.

Definition add_all (self : Optimizer) (l : list (string * Edge)) : Optimizer :=
  foldl (λ self x,
           _add_edge self x.1 (destination x.2) (mode x.2) (time x.2)
             (distance x.2) (cost x.2)) self l.

(** Both directions of a connection. *)
Definition both (a b mode : string) (time distance cost : Q)
  : list (string * Edge) :=
  [ (a, {| destination := b; mode := mode; time := time;
           distance := distance; cost := cost |});
    (b, {| destination := a; mode := mode; time := time;
           distance := distance; cost := cost |}) ].

Section EdgeLists.
Variable M : MathLib.
Local Open Scope Q_scope.

Fixpoint consecutive_edges (locs : pydict LocationInfo)
    (stations_list : list string) : list (string * Edge) :=
  match stations_list with
  | station1 :: ((station2 :: _) as rest) =>
      match dict_get locs station1, dict_get locs station2 with
      | Some l1, Some l2 =>
          both station1 station2 "metro" 2.5
            (_haversine_distance M (lat l1) (lon l1) (lat l2) (lon l2)) 5
          ++ consecutive_edges locs rest
      | _, _ => []
      end
  | _ => []
  end%list.

Definition station_edges (location : string) (sd : string * Q)
  : list (string * Edge) :=
  let '(station, d) := sd in
  ((if Qltb d 1.5 then both location station "walk" (d * 15) d (d * 5)
    else [])
   ++ (if Qltb d 15 then both location station "auto" (d * 3) d (20 + d * 12)
       else [])
   ++ (if Qltb 1.0 d && Qltb d 10
       then both location station "bus" (d * 4) d (10 + d * 3)
       else []))%list.

Definition location_edges (self : Optimizer) (item : string * LocationInfo)
  : list (string * Edge) :=
  if String.eqb (type item.2) "metro_station" then []
  else flat_map (station_edges item.1)
         (_find_nearest_metro_stations M self item.1 3).

Definition pair_edges (item1 item2 : string * LocationInfo)
  : list (string * Edge) :=
  let d := _haversine_distance M (lat item1.2) (lon item1.2)
             (lat item2.2) (lon item2.2) in
  ((if Qltb d 10 then both item1.1 item2.1 "auto" (d * 3) d (20 + d * 12)
    else [])
   ++ (if Qltb d 1.5 then both item1.1 item2.1 "walk" (d * 15) d (d * 5)
       else []))%list.

Fixpoint pairs_edges (l : list (string * LocationInfo))
  : list (string * Edge) :=
  match l with
  | [] => []
  | item1 :: rest => (flat_map (pair_edges item1) rest ++ pairs_edges rest)%list
  end.
End EdgeLists.

(** The catalogue after [_build_metro_network] and
    [_add_popular_locations]. *)
Definition catalogue : Optimizer :=
  foldl add_place
    (foldl add_station {| graph := ∅; locations := []; metro_stations := [] |}
       metro_data)
    popular_places.

Definition station_names : list string :=
  (λ d, let '(name, _, _, _) := d in name) <$> metro_data.

Definition builder_edges (M : MathLib) : list (string * Edge) :=
  (consecutive_edges M (locations catalogue) station_names
   ++ flat_map (location_edges M catalogue) (locations catalogue)
   ++ pairs_edges M
        (filter (λ item, type item.2 ≠ "metro_station") (locations catalogue)))%list.

(** A walk, auto or bus edge over a distance [d]. *)
Definition connector (d : Q) (e : Edge) : Prop :=
  distance e = d ∧
  ((mode e = "walk" ∧ Qltb d 1.5 = true ∧
    time e = (d * 15)%Q ∧ cost e = (d * 5)%Q) ∨
   (mode e = "auto" ∧ Qltb d 15 = true ∧
    time e = (d * 3)%Q ∧ cost e = (20 + d * 12)%Q) ∨
   (mode e = "bus" ∧ Qltb 1.0 d = true ∧ Qltb d 10 = true ∧
    time e = (d * 4)%Q ∧ cost e = (10 + d * 3)%Q)).

(** [e] leaves [v] and joins [a] and [b], in either direction. *)
Definition joins (a b v : string) (e : Edge) : Prop :=
  (v = a ∧ destination e = b) ∨ (v = b ∧ destination e = a).

(** A hop of the metro line between the stations at positions [i] and
    [i + 1] of [metro_data]. *)
Definition metro_hop (M : MathLib) (v : string) (e : Edge) : Prop :=
  ∃ i n1 la1 lo1 z1 n2 la2 lo2 z2,
    metro_data !! i = Some (n1, la1, lo1, z1) ∧
    metro_data !! S i = Some (n2, la2, lo2, z2) ∧
    joins n1 n2 v e ∧ mode e = "metro" ∧
    time e = 2.5%Q ∧ cost e = 5%Q ∧
    distance e = _haversine_distance M la1 lo1 la2 lo2.

(** A connector between a place of the catalogue that is not a metro
    station and a metro station. *)
Definition station_link (M : MathLib) (v : string) (e : Edge) : Prop :=
  ∃ loc info station la lo,
    dict_get (locations catalogue) loc = Some info ∧
    type info ≠ "metro_station" ∧
    (station, (la, lo)) ∈ metro_stations catalogue ∧
    joins loc station v e ∧
    connector (_haversine_distance M (lat info) (lon info) la lo) e.

(** A direct connector between two places that are not metro
    stations. *)
Definition direct_link (M : MathLib) (v : string) (e : Edge) : Prop :=
  ∃ item1 item2,
    item1 ∈ locations catalogue ∧ item2 ∈ locations catalogue ∧
    type item1.2 ≠ "metro_station" ∧ type item2.2 ≠ "metro_station" ∧
    joins item1.1 item2.1 v e ∧
    connector (_haversine_distance M (lat item1.2) (lon item1.2)
                 (lat item2.2) (lon item2.2)) e.

(** * The search in binary64 arithmetic

    The search of [_dijkstra] once more, with the numbers it computes
    with: a Python float is an IEEE 754 binary64 value, and every
    operation rounds to nearest, ties to even.  The arithmetic is the
    Standard Library's [SpecFloat] at precision 53 and exponent bound
    1024.

    The values of an edge are floats, as [_add_edge] declares them
    ([time: float, distance: float, cost: float]).  An int that takes
    their place, the [0] that the search stores for the start or the
    fare [5] that the builder passes for a metro hop, is the float of
    the same value: below [2 ^ 53] Python adds, divides and compares
    such an int as it does that float. *)

Module Binary64.

(** ** Python floats *)

Definition float : Type := SpecFloat.spec_float.

Definition prec : Z := 53.
Definition emax : Z := 1024.

Definition zero : float := SpecFloat.S754_zero false.
Definition inf : float := SpecFloat.S754_infinity false.

Definition add : float → float → float := SpecFloat.SFadd prec emax.
Definition mul : float → float → float := SpecFloat.SFmul prec emax.
(** The source only divides by the literals 200.0, 120.0 and 5.0. *)
Definition div : float → float → float := SpecFloat.SFdiv prec emax.
Definition lt : float → float → bool := SpecFloat.SFltb.
Definition gt (x y : float) : bool := lt y x.
Definition le : float → float → bool := SpecFloat.SFleb.
Definition eqb : float → float → bool := SpecFloat.SFeqb.

(** An exact integer, before rounding. *)
Definition exact (z : Z) : float :=
match z with
| Z0 => zero
| Zpos p => SpecFloat.S754_finite false p 0
| Zneg p => SpecFloat.S754_finite true p 0
end.

(** The float written as the decimal literal [q]: the binary64 value
  nearest to it. *)
Definition literal (q : Q) : float :=
div (exact (Qnum q)) (exact (Zpos (Qden q))).

(** The ints that convert to a float lie below the midpoint of the
  largest float and [2 ^ 1024]. *)
Definition max_int : Z := 2 ^ 1024 - 2 ^ 970.

(** [float(z)] for a Python int, as the division of an int by a float
  converts it. *)
Definition float_of_int (z : Z) : exc float :=
if (Z.abs z <? max_int)%Z
then Ok (SpecFloat.binary_normalize prec emax z 0 false)
else Raise OverflowError.

(** ** Data model *)

Record LocationInfo : Type := {
lat : float;
lon : float;
type : string;
zone : string
}.

Record Edge : Type := {
destination : string;
mode : string;
time : float;
distance : float;
cost : float
}.

Record Optimizer : Type := {
graph : gmap string (list Edge);
locations : pydict LocationInfo;
metro_stations : pydict (float * float)
}.

Record SearchState : Type := {
distances : gmap string float;
costs : gmap string float;
times : gmap string float;
distances_km : gmap string float;
transfers : gmap string Z;
previous : gmap string (option string);
edge_info : gmap string (option Edge)
}.

(** [{loc: v for loc in self.locations}] *)
Definition dict_from_keys {V : Type} (locs : pydict LocationInfo) (v : V)
: gmap string V :=
foldl (λ d item, <[item.1 := v]> d) ∅ locs.

(** ** The heap of [(score, name)] tuples

  [heapq] pops a minimum of the tuple order, and two tuples that are
  both minimal are equal, so the heap is the list of its elements.
  The search never pushes a NaN: it pushes a score only after
  [composite < distances[neighbor]] held. *)

Definition heap : Type := list (float * string).

Definition tuple_lt (x y : float * string) : bool :=
if eqb x.1 y.1 then String.ltb x.2 y.2 else lt x.1 y.1.

Definition heappush (pq : heap) (x : float * string) : heap := x :: pq.

Fixpoint heap_min (x : float * string) (pq : heap) : float * string :=
match pq with
| [] => x
| y :: pq' => heap_min (if tuple_lt y x then y else x) pq'
end.

Definition tuple_eqb (x y : float * string) : bool :=
negb (tuple_lt x y) && negb (tuple_lt y x).

Fixpoint heap_remove (x : float * string) (pq : heap) : heap :=
match pq with
| [] => []
| y :: pq' => if tuple_eqb x y then pq' else y :: heap_remove x pq'
end.

Definition heappop (pq : heap) : option ((float * string) * heap) :=
match pq with
| [] => None
| x :: pq' => let m := heap_min x pq' in Some (m, heap_remove m pq)
end.

(** ** [_dijkstra] *)

Section RouteSearch.
Variable self : Optimizer.

Section Dijkstra.
Variables (start end_ : string).
Variables (cost_weight time_weight convenience_weight : float).

(** One iteration of [for edge in self.graph[current]]. *)
Definition relax (visited : list string) (current : string)
  (acc : SearchState * heap) (edge : Edge) : exc (SearchState * heap) :=
let '(st, pq) := acc in
let neighbor := destination edge in
if bool_decide (neighbor ∈ visited) then Ok (st, pq)
else
  cost_cur ← getitem (costs st) current;
  time_cur ← getitem (times st) current;
  dist_cur ← getitem (distances_km st) current;
  transfers_cur ← getitem (transfers st) current;
  info_cur ← getitem (edge_info st) current;
  let new_cost := add cost_cur (cost edge) in
  let new_time := add time_cur (time edge) in
  let new_distance := add dist_cur (distance edge) in
  let prev_mode := mode <$> info_cur in
  let mode_changed :=
    match prev_mode with
    | Some m => truthy m && negb (String.eqb m (mode edge))
    | None => false
    end in
  let new_transfers :=
    if mode_changed then (transfers_cur + 1)%Z else transfers_cur in
  let mode_change_penalty :=
    if mode_changed then literal 0.3 else zero in
  let walk_penalty :=
    if String.eqb (mode edge) "walk" && gt (distance edge) (literal 0.5)
    then mul (distance edge) (literal 0.2) else zero in
  let norm_cost :=
    if gt new_cost zero then div new_cost (literal 200) else zero in
  let norm_time :=
    if gt new_time zero then div new_time (literal 120) else zero in
  norm_transfers ←
    (if (0 <? new_transfers)%Z
     then f ← float_of_int new_transfers; Ok (div f (literal 5))
     else Ok zero);
  let composite :=
    add (add (mul cost_weight norm_cost) (mul time_weight norm_time))
        (mul convenience_weight
             (add (add norm_transfers mode_change_penalty)
                  walk_penalty)) in
  best ← getitem (distances st) neighbor;
  if lt composite best then
    Ok ({| distances := <[neighbor := composite]> (distances st);
           costs := <[neighbor := new_cost]> (costs st);
           times := <[neighbor := new_time]> (times st);
           distances_km := <[neighbor := new_distance]> (distances_km st);
           transfers := <[neighbor := new_transfers]> (transfers st);
           previous := <[neighbor := Some current]> (previous st);
           edge_info := <[neighbor := Some edge]> (edge_info st) |},
        heappush pq (composite, neighbor))
  else Ok (st, pq).

(** [while pq: ...] *)
Fixpoint dijkstra_loop (fuel : nat) (st : SearchState) (pq : heap)
  (visited : list string) : exc SearchState :=
match fuel with
| O => Raise OutOfFuel
| S fuel =>
    match heappop pq with
    | None => Ok st
    | Some ((_, current), pq) =>
        if bool_decide (current ∈ visited) then
          dijkstra_loop fuel st pq visited
        else
          let visited := current :: visited in
          if String.eqb current end_ then Ok st
          else
            match graph self !! current with
            | None => dijkstra_loop fuel st pq visited
            | Some edges =>
                '(st, pq) ← foldM (relax visited current) (st, pq) edges;
                dijkstra_loop fuel st pq visited
            end
    end
end.

Definition edge_count : nat :=
map_fold (λ _ edges n, (length edges + n)%nat) 0%nat (graph self).

Definition _dijkstra : exc SearchState :=
let st :=
  {| distances := <[start := zero]> (dict_from_keys (locations self) inf);
     costs := <[start := zero]> (dict_from_keys (locations self) inf);
     times := <[start := zero]> (dict_from_keys (locations self) inf);
     distances_km :=
       <[start := zero]> (dict_from_keys (locations self) inf);
     transfers := <[start := 0%Z]> (dict_from_keys (locations self) 0%Z);
     previous := dict_from_keys (locations self) None;
     edge_info := dict_from_keys (locations self) None |} in
dijkstra_loop (2 + edge_count) st [(zero, start)] [].
End Dijkstra.
End RouteSearch.

(** ** The values of a relaxation, named *)

(** [prev_mode and prev_mode != edge['mode']] *)
Definition mode_changed (info_cur : option Edge) (edge : Edge) : bool :=
match mode <$> info_cur with
| Some m => truthy m && negb (String.eqb m (mode edge))
| None => false
end.

(** [new_transfers] *)
Definition transfers_after (transfers_cur : Z) (info_cur : option Edge)
  (edge : Edge) : Z :=
if mode_changed info_cur edge then (transfers_cur + 1)%Z else transfers_cur.

(** [norm_transfers] *)
Definition norm_transfers_of (new_transfers : Z) : exc float :=
if (0 <? new_transfers)%Z
then f ← float_of_int new_transfers; Ok (div f (literal 5))
else Ok zero.

(** [composite], from the new cost, the new time and the normalised
  transfer count. *)
Definition composite_of (cost_weight time_weight convenience_weight : float)
  (new_cost new_time norm_transfers : float) (changed : bool)
  (edge : Edge) : float :=
let mode_change_penalty := if changed then literal 0.3 else zero in
let walk_penalty :=
  if String.eqb (mode edge) "walk" && gt (distance edge) (literal 0.5)
  then mul (distance edge) (literal 0.2) else zero in
let norm_cost :=
  if gt new_cost zero then div new_cost (literal 200) else zero in
let norm_time :=
  if gt new_time zero then div new_time (literal 120) else zero in
add (add (mul cost_weight norm_cost) (mul time_weight norm_time))
    (mul convenience_weight
         (add (add norm_transfers mode_change_penalty) walk_penalty)).

(** The state after the seven assignments of a successful relaxation. *)
Definition record_reached (st : SearchState) (neighbor current : string)
  (edge : Edge) (composite new_cost new_time new_distance : float)
  (new_transfers : Z) : SearchState :=
{| distances := <[neighbor := composite]> (distances st);
   costs := <[neighbor := new_cost]> (costs st);
   times := <[neighbor := new_time]> (times st);
   distances_km := <[neighbor := new_distance]> (distances_km st);
   transfers := <[neighbor := new_transfers]> (transfers st);
   previous := <[neighbor := Some current]> (previous st);
   edge_info := <[neighbor := Some edge]> (edge_info st) |}.

(** ** The composite score in the words of the specification *)

Definition is_zero (x : float) : bool :=
match x with SpecFloat.S754_zero _ => true | _ => false end.

(** [x / d], or 0 if [x] is 0. *)
Definition spec_norm (x d : float) : float :=
if is_zero x then zero else div x d.

(** [n / d], or 0 if [n] is 0, for a count. *)
Definition spec_norm_count (n : Z) (d : float) : exc float :=
if (n =? 0)%Z then Ok zero else f ← float_of_int n; Ok (div f d).

(** The mode of [edge] differs from the mode of the edge last used to
  reach the current node. *)
Definition spec_mode_differs (arrived_by : option Edge) (edge : Edge) : bool :=
match arrived_by with
| Some e0 => negb (String.eqb (mode e0) (mode edge))
| None => false
end.

Definition spec_transfers (transfers_cur : Z) (arrived_by : option Edge)
  (edge : Edge) : Z :=
if spec_mode_differs arrived_by edge then (transfers_cur + 1)%Z
else transfers_cur.

Definition spec_composite (costWeight timeWeight convenienceWeight : float)
  (accumulated_cost accumulated_time : float) (accumulated_transfers : Z)
  (arrived_by : option Edge) (edge : Edge) : exc float :=
transfers_term ← spec_norm_count accumulated_transfers (literal 5);
Ok (add (add (mul costWeight (spec_norm accumulated_cost (literal 200)))
             (mul timeWeight (spec_norm accumulated_time (literal 120))))
        (mul convenienceWeight
             (add (add transfers_term
                       (if spec_mode_differs arrived_by edge
                        then literal 0.3 else zero))
                  (if String.eqb (mode edge) "walk"
                      && lt (literal 0.5) (distance edge)
                   then mul (distance edge) (literal 0.2) else zero)))).

(** ** Notions about the network and the search state *)

Definition keys (self : Optimizer) : list string := (locations self).*1.

(** Every edge leads to a catalogued location. *)
Definition graph_wf (self : Optimizer) : Prop :=
∀ v es e, graph self !! v = Some es → e ∈ es → destination e ∈ keys self.

(** The same, as a test. *)
Definition wf_check (self : Optimizer) : bool :=
forallb (λ kv, forallb (λ e, bool_decide (destination e ∈ keys self)) kv.2)
  (map_to_list (graph self)).

Definition has_edge (self : Optimizer) (v : string) (e : Edge) : Prop :=
∃ es, graph self !! v = Some es ∧ e ∈ es.

(** [w] can be reached from [v] along edges of the graph. *)
Inductive connected (self : Optimizer) : string → string → Prop :=
| connected_refl v : connected self v v
| connected_step v e w :
    has_edge self v e → connected self (destination e) w →
    connected self v w.

(** Number of edges leaving the nodes that are not yet visited. *)
Definition remaining (g : gmap string (list Edge)) (visited : list string)
: nat :=
map_fold (λ k es n, if bool_decide (k ∈ visited) then n
                    else (length es + n)%nat) 0%nat g.

(** Neither a negative number nor minus infinity; a NaN and a signed
  zero count. *)
Definition not_negative (x : float) : bool :=
match x with
| SpecFloat.S754_finite true _ _ | SpecFloat.S754_infinity true => false
| _ => true
end.

(** A zero or a finite number. *)
Definition finite (x : float) : bool :=
match x with
| SpecFloat.S754_zero _ | SpecFloat.S754_finite _ _ _ => true
| _ => false
end.

(** Nothing is recorded for [n]: the values of the initialisation. *)
Definition untouched (st : SearchState) (n : string) : Prop :=
distances st !! n = Some inf ∧ costs st !! n = Some inf ∧
times st !! n = Some inf ∧ distances_km st !! n = Some inf ∧
transfers st !! n = Some 0%Z ∧ previous st !! n = Some None ∧
edge_info st !! n = Some None.

(** What is recorded for [n] comes from the record of [c] and from an
  edge from [c] to [n]. *)
Definition recorded_from (self : Optimizer) (cw tw conv : float)
  (st : SearchState) (n c : string) : Prop :=
∃ e cc ct cd tr info ntr,
  edge_info st !! n = Some (Some e) ∧
  has_edge self c e ∧ destination e = n ∧
  costs st !! c = Some cc ∧ times st !! c = Some ct ∧
  distances_km st !! c = Some cd ∧
  transfers st !! c = Some tr ∧ edge_info st !! c = Some info ∧
  costs st !! n = Some (add cc (cost e)) ∧
  times st !! n = Some (add ct (time e)) ∧
  distances_km st !! n = Some (add cd (distance e)) ∧
  transfers st !! n = Some (transfers_after tr info e) ∧
  norm_transfers_of (transfers_after tr info e) = Ok ntr ∧
  distances st !! n
  = Some (composite_of cw tw conv (add cc (cost e)) (add ct (time e)) ntr
            (mode_changed info e) e).

(** What holds of the search state between two iterations of the
  [while] loop; [visited] lists the closed nodes, newest first. *)
Record search_inv (self : Optimizer) (start : string) (cw tw conv : float)
  (st : SearchState) (visited : list string) : Prop := {
inv_dom : ∀ k, k ∈ keys self →
  is_Some (distances st !! k) ∧ is_Some (costs st !! k) ∧
  is_Some (times st !! k) ∧ is_Some (distances_km st !! k) ∧
  is_Some (transfers st !! k) ∧ is_Some (previous st !! k) ∧
  is_Some (edge_info st !! k);
inv_visited : ∀ n, n ∈ visited → n ∈ keys self;
inv_nodup : NoDup visited;
inv_start :
  distances st !! start = Some zero ∧ costs st !! start = Some zero ∧
  times st !! start = Some zero ∧ distances_km st !! start = Some zero ∧
  transfers st !! start = Some 0%Z ∧ previous st !! start = Some None ∧
  edge_info st !! start = Some None;
inv_root : ∀ n, n ∈ visited → n ≠ start →
  ∃ c, previous st !! n = Some (Some c);
inv_closed : ∀ n, n ∈ visited → connected self start n;
inv_pred : ∀ n c, previous st !! n = Some (Some c) →
  n ≠ start ∧ c ∈ visited ∧ connected self start n ∧
  recorded_from self cw tw conv st n c;
inv_untouched : ∀ n, n ≠ start → previous st !! n = Some None →
  untouched st n;
inv_transfers : ∀ n tr, transfers st !! n = Some tr →
  (0 ≤ tr ≤ Z.of_nat (length visited))%Z ∧
  (n ∈ visited → (tr < Z.of_nat (length visited))%Z);
inv_score :
  not_negative cw = true → not_negative tw = true →
  not_negative conv = true →
  ∀ n, (∃ c, previous st !! n = Some (Some c)) →
    ∃ d, distances st !! n = Some d ∧ finite d = true
}.

(** What holds of the heap: only catalogued names, each of them the
  start or a node that has a predecessor. *)
Definition heap_inv (self : Optimizer) (start : string)
  (st : SearchState) (pq : heap) : Prop :=
∀ x, x ∈ pq →
  x.2 ∈ keys self ∧ (x.2 = start ∨ ∃ c, previous st !! x.2 = Some (Some c)).

(** The start is closed first. *)
Definition start_inv (start : string) (pq : heap) (visited : list string)
: Prop :=
start ∈ visited ∨ (visited = [] ∧ pq = [(zero, start)]).

(** ** A network with two ways of the same cost

  From A there is a bus to D for 0.30000000000000004, and a bus to B
  for 0.1 followed by one from B to D for 0.2.  In binary64
  [0.1 + 0.2] is [0.30000000000000004]. *)

Definition bus (to : string) (fare : Q) : Edge :=
{| destination := to; mode := "bus"; time := zero; distance := zero;
   cost := literal fare |}.

Definition place : LocationInfo :=
{| lat := zero; lon := zero; type := "commercial"; zone := "N/A" |}.

Definition tie_net : Optimizer :=
{| graph := <["A" := [bus "D" 0.30000000000000004; bus "B" 0.1]]>
              (<["B" := [bus "D" 0.2]]> (<["D" := []]> ∅));
   locations := [("A", place); ("B", place); ("D", place)];
   metro_stations := [] |}.

(** The state of the search on [tie_net] from A, with the cost as the
  only criterion, once A and B are closed and the edges of A are
  relaxed. *)
Definition tie_state : SearchState :=
{| distances :=
     <["D" := composite_of (literal 1) zero zero
                (literal 0.30000000000000004) zero zero false
                (bus "D" 0.30000000000000004)]>
       (<["B" := composite_of (literal 1) zero zero (literal 0.1) zero zero
                   false (bus "B" 0.1)]> {["A" := zero]});
   costs :=
     <["D" := literal 0.30000000000000004]>
       (<["B" := literal 0.1]> {["A" := zero]});
   times := <["D" := zero]> (<["B" := zero]> {["A" := zero]});
   distances_km := <["D" := zero]> (<["B" := zero]> {["A" := zero]});
   transfers := <["D" := 0%Z]> (<["B" := 0%Z]> {["A" := 0%Z]});
   previous :=
     <["D" := Some "A"]> (<["B" := Some "A"]> {["A" := None]});
   edge_info :=
     <["D" := Some (bus "D" 0.30000000000000004)]>
       (<["B" := Some (bus "B" 0.1)]> {["A" := None]}) |}.

End Binary64.

(** ** The network under the reference math library, evaluated *)

Definition kochi_ref : Optimizer := Eval vm_compute in kochi ref_math.

(** The haversine distance from Aluva to Pulinchodu. *)
Definition aluva_pulinchodu (M : MathLib) : Q :=
  _haversine_distance M 10.1082 76.3520 10.1012 76.3445.

(** An edge to test statements on. *)
Definition demo_edge : Edge :=
  {| destination := "B"; mode := "walk"; time := 15; distance := 1;
     cost := 5 |}.

(** ** Further notions about the network *)

(** The edge that the builder adds with [e], for the way back to [v]. *)
Definition reversed (v : string) (e : Edge) : Edge :=
  {| destination := v; mode := mode e; time := time e;
     distance := distance e; cost := cost e |}.

(** Every edge of the list comes with the edge of the way back. *)
Definition paired (l : list (string * Edge)) : Prop :=
  ∀ v e, (v, e) ∈ l → (destination e, reversed v e) ∈ l.

(** [name] is catalogued as a metro station. *)
Definition is_station (self : Optimizer) (name : string) : Prop :=
  ∃ info, dict_get (locations self) name = Some info ∧
          type info = "metro_station".

(** The auto edge over the same distance and to the same place as [e]. *)
Definition auto_like (e : Edge) : Edge :=
  {| destination := destination e; mode := "auto";
     time := (distance e * 3)%Q; distance := distance e;
     cost := (20 + distance e * 12)%Q |}.

(** The places of the catalogue that are not metro stations, in the
    order of the catalogue. *)
Definition places : list (string * LocationInfo) :=
  filter (λ item, type item.2 ≠ "metro_station") (locations catalogue).

(** The first edge out of Aluva Town under the reference math library:
    the walk to Aluva Metro. *)
Definition aluva_town_walk : Edge :=
  Eval vm_compute in
    default demo_edge (head (default [] (graph kochi_ref !! "Aluva Town"))).

(** [f] maps zero to zero, as the sine, the arc sine, the square root
    and the conversion to radians of the C library do. *)
Definition zero_preserving (f : Q → Q) : Prop :=
  ∀ x, (x == 0)%Q → (f x == 0)%Q.

(** The name of a row of [metro_data] or [popular_places]. *)
Definition row_name (d : string * Q * Q * string) : string :=
  let '(name, _, _, _) := d in name.

(** ** Further notions about the search *)

(** [w] can be reached from [v] along edges of the graph. *)
Inductive connected (self : Optimizer) : string → string → Prop :=
  | connected_refl v : connected self v v
  | connected_step v e w :
      has_edge self v e → connected self (destination e) w →
      connected self v w.

(** [if prev_mode and prev_mode != edge['mode']], where [prev_mode] is
    the mode of the edge recorded for the current node, if any. *)
Definition mode_changed (info_cur : option Edge) (edge : Edge) : bool :=
  match mode <$> info_cur with
  | Some m => truthy m && negb (String.eqb m (mode edge))
  | None => false
  end.

(** [new_transfers] of a relaxation. *)
Definition transfers_after (transfers_cur : Z) (info_cur : option Edge)
    (edge : Edge) : Z :=
  if mode_changed info_cur edge then (transfers_cur + 1)%Z else transfers_cur.

(** [composite] of a relaxation, from the new cost, time and transfer
    count. *)
Definition composite_of (cost_weight time_weight convenience_weight : Q)
    (new_cost new_time : pyfloat) (new_transfers : Z) (changed : bool)
    (edge : Edge) : pyfloat :=
  let mode_change_penalty := if changed then 0.3%Q else 0%Q in
  let walk_penalty :=
    if String.eqb (mode edge) "walk" && Qltb 0.5 (distance edge)
    then (distance edge * 0.2)%Q else 0%Q in
  let norm_cost :=
    if fgt new_cost (Fin 0) then fdiv new_cost 200 else Fin 0 in
  let norm_time :=
    if fgt new_time (Fin 0) then fdiv new_time 120 else Fin 0 in
  let norm_transfers :=
    if (0 <? new_transfers)%Z then Fin (inject_Z new_transfers / 5)
    else Fin 0 in
  fadd (fadd (fmul (Fin cost_weight) norm_cost)
             (fmul (Fin time_weight) norm_time))
       (fmul (Fin convenience_weight)
             (fadd (fadd norm_transfers (Fin mode_change_penalty))
                   (Fin walk_penalty))).

(** The state after the seven assignments of a successful relaxation. *)
Definition record_reached (st : SearchState) (neighbor current : string)
    (edge : Edge) (composite new_cost new_time new_distance : pyfloat)
    (new_transfers : Z) : SearchState :=
  {| distances := <[neighbor := composite]> (distances st);
     costs := <[neighbor := new_cost]> (costs st);
     times := <[neighbor := new_time]> (times st);
     distances_km := <[neighbor := new_distance]> (distances_km st);
     transfers := <[neighbor := new_transfers]> (transfers st);
     previous := <[neighbor := Some current]> (previous st);
     edge_info := <[neighbor := Some edge]> (edge_info st) |}.

(** Nothing is recorded for [n]: the values of the initialisation. *)
Definition untouched (st : SearchState) (n : string) : Prop :=
  distances st !! n = Some PInf ∧ costs st !! n = Some PInf ∧
  times st !! n = Some PInf ∧ distances_km st !! n = Some PInf ∧
  transfers st !! n = Some 0%Z ∧ previous st !! n = Some None ∧
  edge_info st !! n = Some None.

(** A finite score is recorded for [n]. *)
Definition scored (st : SearchState) (n : string) : Prop :=
  ∃ q, distances st !! n = Some (Fin q).

(** What holds, beside [search_inv], of the scores and the heap between
    two iterations of the [while] loop. *)
Record reach_inv (self : Optimizer) (start : string) (cw tw conv : Q)
    (st : SearchState) (pq : heap) (vis : list string) : Prop := {
  ri_shape : ∀ n d, distances st !! n = Some d → d = PInf ∨ ∃ q, d = Fin q;
  ri_start : distances st !! start = Some (Fin 0) ∧
             transfers st !! start = Some 0%Z ∧
             edge_info st !! start = Some None;
  ri_heap : ∀ d n, (d, n) ∈ pq → (∃ q, d = Fin q) ∧ scored st n;
  ri_closed : ∀ v, v ∈ vis → scored st v;
  ri_frontier : ∀ n, scored st n → n ∈ vis ∨ ∃ d, (d, n) ∈ pq;
  ri_untouched : ∀ n, n ≠ start → previous st !! n = Some None →
    untouched st n;
  ri_reached : ∀ n c, previous st !! n = Some (Some c) →
    ∃ e tr info nc nt,
      edge_info st !! n = Some (Some e) ∧
      transfers st !! c = Some tr ∧ edge_info st !! c = Some info ∧
      transfers st !! n = Some (transfers_after tr info e) ∧
      costs st !! n = Some nc ∧ times st !! n = Some nt ∧
      distances st !! n
      = Some (composite_of cw tw conv nc nt (transfers_after tr info e)
                (mode_changed info e) e)
}.

(** The edges out of the closed nodes, the destination apart, lead to
    nodes with a finite score. *)
Definition closure (self : Optimizer) (end_ : string) (st : SearchState)
    (vis : list string) : Prop :=
  ∀ v e, v ∈ vis → v ≠ end_ → has_edge self v e → scored st (destination e).

(** The same, leaving out the node whose edges are being relaxed. *)
Definition closure_but (self : Optimizer) (end_ current : string)
    (st : SearchState) (vis : list string) : Prop :=
  ∀ v e, v ∈ vis → v ≠ current → v ≠ end_ → has_edge self v e →
         scored st (destination e).

(** The state that [_dijkstra] starts its loop with. *)
Definition initial_state (self : Optimizer) (start : string) : SearchState :=
  {| distances := <[start := Fin 0]> (dict_from_keys (locations self) PInf);
     costs := <[start := Fin 0]> (dict_from_keys (locations self) PInf);
     times := <[start := Fin 0]> (dict_from_keys (locations self) PInf);
     distances_km := <[start := Fin 0]> (dict_from_keys (locations self) PInf);
     transfers := <[start := 0%Z]> (dict_from_keys (locations self) 0%Z);
     previous := dict_from_keys (locations self) None;
     edge_info := dict_from_keys (locations self) None |}.

(** Number of changes of mode along the edges of a path, listed from
    its first edge; [prev] is the edge before them, if any. *)
Fixpoint mode_changes (prev : option Edge) (es : list Edge) : Z :=
  match es with
  | [] => 0
  | e :: es =>
      ((if mode_changed prev e then 1 else 0) + mode_changes (Some e) es)%Z
  end.

(** The tables hold the node [start], from which edges are relaxed,
    and the scores do not hold [bad]. *)
Definition ready (start bad : string) (st : SearchState) : Prop :=
  is_Some (costs st !! start) ∧ is_Some (times st !! start) ∧
  is_Some (distances_km st !! start) ∧ is_Some (transfers st !! start) ∧
  is_Some (edge_info st !! start) ∧ distances st !! bad = None.

(** A catalogue of two locations and a graph whose only edge leaves the
    catalogue. *)
Definition dangling_net : Optimizer :=
  {| graph :=
       {[ "A" := [ {| destination := "Z"; mode := "walk"; time := 15;
                      distance := 1; cost := 5 |} ] ]};
     locations :=
       [ ("A", {| lat := 10; lon := 76; type := "residential"; zone := "N/A" |});
         ("B", {| lat := 10; lon := 76; type := "residential"; zone := "N/A" |}) ];
     metro_stations := [] |}.

(** A catalogue of three locations where no edge leads to C. *)
Definition island_net : Optimizer :=
  {| graph :=
       <["A" := [ {| destination := "B"; mode := "bus"; time := 10;
                     distance := 2; cost := 12 |} ]]>
         {[ "B" := [ {| destination := "A"; mode := "bus"; time := 10;
                        distance := 2; cost := 12 |} ] ]};
     locations :=
       [ ("A", {| lat := 10; lon := 76; type := "residential"; zone := "N/A" |});
         ("B", {| lat := 10; lon := 76; type := "residential"; zone := "N/A" |});
         ("C", {| lat := 10; lon := 76; type := "residential"; zone := "N/A" |}) ];
     metro_stations := [] |}.

(** Every edge of the graph leads to a catalogued location, as a
    test. *)
Definition edges_catalogued (self : Optimizer) : bool :=
  forallb (λ kv, forallb (λ e, bool_decide (destination e ∈ keys self)) kv.2)
    (map_to_list (graph self)).

(** ** One hop of the metro line *)

(** The query from [a] to [b] under the reference math library returns
    one route, labelled with the first strategy: the metro hop from
    [a] to [b], for 5 rupees, 2.5 minutes and 1.13 km. *)
Definition metro_hop_only (a b : string) : Prop :=
  ∃ r s0 s1,
    find_optimized_routes (kochi ref_math) a b = Ok [RouteDict r] ∧
    strategy r = "Cheapest" ∧ num_segments r = 1%Z ∧
    path r = [s0; s1] ∧
    location s0 = a ∧ step_mode s0 = "start" ∧
    location s1 = b ∧ step_mode s1 = "metro" ∧
    (total_cost r == 5)%Q ∧ (total_time r == 2.5)%Q ∧
    (total_distance r == 1.13)%Q.

(** The same, as a test on the evaluated network. *)
Definition hop_check (a b : string) : bool :=
  match find_optimized_routes kochi_ref a b with
  | Ok [RouteDict r] =>
      match path r with
      | [s0; s1] =>
          String.eqb (strategy r) "Cheapest"
          && (num_segments r =? 1)%Z
          && String.eqb (location s0) a
          && String.eqb (step_mode s0) "start"
          && String.eqb (location s1) b
          && String.eqb (step_mode s1) "metro"
          && Qeq_bool (total_cost r) 5
          && Qeq_bool (total_time r) 2.5
          && Qeq_bool (total_distance r) 1.13
      | _ => false
      end
  | _ => false
  end.

(** ** Further notions about the routes *)

(** Each step but the first is reached from the step before it by an
    edge of the graph, which it shows. *)
Definition follows_edges (self : Optimizer) (steps : list Step) : Prop :=
  ∀ i s1 s2, steps !! i = Some s1 → steps !! S i = Some s2 →
    ∃ e, has_edge self (location s1) e ∧ step_shows s2 e.

(** The path of a route as a walk in the graph. *)
Record route_trace (self : Optimizer) (r : Route) : Prop := {
  rt_first : ∃ s0 ss, path r = s0 :: ss ∧ ss ≠ [] ∧ step_mode s0 = "start";
  rt_types : ∀ s, s ∈ path r →
    ∃ info, dict_get (locations self) (location s) = Some info ∧
            step_type s = type info;
  rt_nodup : NoDup (path_key r);
  rt_edges : follows_edges self (path r);
  rt_segments : num_segments r = (Z.of_nat (length (path r)) - 1)%Z
}.

(** ** The callers of the optimizer *)

(** [x >= y] on floats. *)
Definition fge (x y : pyfloat) : bool := flt y x || feq x y.

(** *** [LocationRouteGUI.validate_inputs] ([planner_gui.py])

    The two Tk variables are the arguments; the message boxes shown are
    returned with the result. *)

Inductive dialog : Type :=
  | ShowError (title message : string)
  | ShowWarning (title message : string).

Definition validate_inputs (self : Optimizer) (start end_ : string)
  : bool * list dialog :=
  if negb (truthy start)
     || String.eqb start "Search or select starting location..." then
    (false, [ShowError "Error" "Please select a starting location"])
  else if negb (truthy end_)
          || String.eqb end_ "Search or select destination..." then
    (false, [ShowError "Error" "Please select a destination"])
  else if negb (dict_mem (locations self) start) then
    (false, [ShowError "Error" ("Starting location '" ++ start ++ "' not found")])
  else if negb (dict_mem (locations self) end_) then
    (false, [ShowError "Error" ("Destination '" ++ end_ ++ "' not found")])
  else if String.eqb start end_ then
    (false, [ShowWarning "Warning" "Start and destination are the same!"])
  else (true, []).

(** *** [LocationRouteGUI.show_interactive_map] ([planner_gui.py])

    The coordinates collected for the line of a route: those of the
    steps whose location is catalogued. *)

Definition route_coords (self : Optimizer) (path : list Step)
  : list (Q * Q) :=
  flat_map (λ step,
              let loc_name := location step in
              match dict_get (locations self) loc_name with
              | Some loc_data => [(lat loc_data, lon loc_data)]
              | None => []
              end) path.

(** *** [PerformanceAnalyzer] ([performance_analysis.py])

    The readings of the clock and of [tracemalloc] are arguments.  In
    the record an absent key and the value [None] are both [None]. *)

Record Measurement : Type := {
  m_start : string;
  m_end : string;
  computation_time : Q;
  memory_used_mb : Q;
  routes_generated : nat;
  success : bool;
  m_routes : option (list result_item);
  m_error : option pyexn
}.

(** ['error' in d] for an element of a result. *)
Definition has_error (d : result_item) : bool :=
  match d with ErrorDict _ => true | RouteDict _ => false end.

Definition measure_single_route (self : Optimizer)
    (start_time end_time : Q) (peak : Z) (start end_ : string)
  : Measurement :=
  match find_optimized_routes self start end_ with
  | Ok routes =>
      let computation_time := (end_time - start_time)%Q in
      let num_routes :=
        match routes with
        | d :: _ => if negb (has_error d) then length routes else 0%nat
        | [] => 0%nat
        end in
      {| m_start := start; m_end := end_;
         computation_time := computation_time;
         memory_used_mb := (inject_Z peak / (1024 * 1024))%Q;
         routes_generated := num_routes;
         success := (0 <? num_routes)%nat;
         m_routes := if (0 <? num_routes)%nat then Some routes else None;
         m_error := None |}
  | Raise e =>
      {| m_start := start; m_end := end_;
         computation_time := 0; memory_used_mb := 0;
         routes_generated := 0; success := false;
         m_routes := None; m_error := Some e |}
  end.

Definition _evaluate_time (time_seconds : pyfloat) : string :=
  if flt time_seconds (Fin 0.1) then "Excellent"
  else if flt time_seconds (Fin 0.3) then "Very Good"
  else if flt time_seconds (Fin 0.5) then "Good"
  else if flt time_seconds (Fin 1.0) then "Acceptable"
  else "Needs Optimization".

Definition _evaluate_memory (memory_mb : pyfloat) : string :=
  if flt memory_mb (Fin 20) then "Efficient"
  else if flt memory_mb (Fin 50) then "Good"
  else if flt memory_mb (Fin 100) then "Acceptable"
  else "High".

Definition _evaluate_routes (num_routes : pyfloat) : string :=
  if fge num_routes (Fin 4) then "Optimal"
  else if fge num_routes (Fin 3) then "Good"
  else if fge num_routes (Fin 2) then "Acceptable"
  else "Limited".

(** Position of a grade in a scale, best first. *)
Fixpoint grade_index (scale : list string) (grade : string) : nat :=
  match scale with
  | [] => 0
  | g :: scale => if String.eqb g grade then 0 else S (grade_index scale grade)
  end.

Definition time_scale : list string :=
  ["Excellent"; "Very Good"; "Good"; "Acceptable"; "Needs Optimization"].

Definition memory_scale : list string :=
  ["Efficient"; "Good"; "Acceptable"; "High"].

Definition routes_scale : list string :=
  ["Optimal"; "Good"; "Acceptable"; "Limited"].

(** *** [RouteOptimizerApp] ([dijkstra.py]) *)

(** The four groups of [display_available_locations], before they are
    sorted for printing. *)
Definition names_where (self : Optimizer) (p : string → bool) : list string :=
  (filter (λ item, p (type item.2) = true) (locations self)).*1.

Definition group_metro (self : Optimizer) : list string :=
  names_where self (λ t, String.eqb t "metro_station").

Definition group_commercial (self : Optimizer) : list string :=
  names_where self (λ t, bool_decide (t ∈ ["commercial"; "mall"])).

Definition group_residential (self : Optimizer) : list string :=
  names_where self (λ t, String.eqb t "residential").

Definition group_others (self : Optimizer) : list string :=
  names_where self
    (λ t, negb (bool_decide
                  (t ∈ ["metro_station"; "commercial"; "mall"; "residential"]))).

(** [modes_used] of [display_routes], as the list of the modes kept. *)
Definition modes_used (route : Route) : list string :=
  filter (λ m, m ∉ ["start"; "unknown"]) (step_mode <$> path route).

(** * Properties *)

(** ** The exception monad *)

Lemma bind_Ok {A B : Type} (f : A → exc B) (m : exc A) (b : B) :
  m ≫= f = Ok b → ∃ a, m = Ok a ∧ f a = Ok b.
Proof. destruct m as [a|e]; simpl; [eauto | discriminate]. Qed.

Lemma bind_Ok_l {A B : Type} (f : A → exc B) (a : A) : Ok a ≫= f = f a.
Proof. reflexivity. Qed.

Lemma getitem_Some {V : Type} (d : gmap string V) k v :
  d !! k = Some v → getitem d k = Ok v.
Proof. unfold getitem. by intros ->. Qed.

Lemma getitem_Ok {V : Type} (d : gmap string V) k v :
  getitem d k = Ok v → d !! k = Some v.
Proof. unfold getitem. destruct (d !! k); naive_solver. Qed.

(** Loop rule for [foldM]: an invariant kept by every iteration holds
    at the end, and the loop raises nothing. *)
Lemma foldM_inv {A B : Type} (P : A → Prop) (f : A → B → exc A) l acc :
  P acc →
  (∀ acc x, x ∈ l → P acc → ∃ acc', f acc x = Ok acc' ∧ P acc') →
  ∃ acc', foldM f acc l = Ok acc' ∧ P acc'.
Proof.
  revert acc. induction l as [|x l IH]; intros acc Hacc Hstep; simpl.
  - eauto.
  - destruct (Hstep acc x) as (acc1 & -> & H1); [left | done |].
    simpl. apply IH; [done |].
    intros acc2 y Hy. apply Hstep. by right.
Qed.

(** ** Dicts *)

Lemma dict_get_Some_key {V : Type} (d : pydict V) k v :
  dict_get d k = Some v → k ∈ d.*1.
Proof.
  induction d as [|[k' v'] d IH]; simpl; [done |].
  destruct (String.eqb_spec k' k) as [->|Hne].
  - intros _. left.
  - intros H. right. by apply IH.
Qed.

Lemma dict_get_key {V : Type} (d : pydict V) k :
  k ∈ d.*1 → is_Some (dict_get d k).
Proof.
  induction d as [|[k' v'] d IH]; simpl.
  - by intros ?%elem_of_nil.
  - intros H. destruct (String.eqb_spec k' k) as [->|Hne]; [eauto |].
    apply IH. apply elem_of_cons in H as [H|H]; [congruence | done].
Qed.

Lemma dict_mem_key {V : Type} (d : pydict V) k :
  dict_mem d k = true ↔ k ∈ d.*1.
Proof.
  unfold dict_mem. split.
  - destruct (dict_get d k) eqn:E; [|done]. intros _.
    by eapply dict_get_Some_key.
  - intros [v ->]%dict_get_key. done.
Qed.

Lemma dict_from_keys_lookup {V : Type} (locs : pydict LocationInfo) (v : V) k :
  dict_from_keys locs v !! k = if bool_decide (k ∈ locs.*1) then Some v else None.
Proof.
  unfold dict_from_keys.
  enough (∀ d, foldl (λ d item, <[item.1 := v]> d) d locs !! k
               = if bool_decide (k ∈ locs.*1) then Some v else d !! k) as ->.
  { by rewrite lookup_empty. }
  induction locs as [|[k' i] locs IH]; intros d; [done |].
  cbn [foldl fmap list_fmap fst]. rewrite IH.
  destruct (decide (k ∈ locs.*1)) as [Hin|Hnin].
  - rewrite !bool_decide_eq_true_2; [done | by right | done].
  - rewrite (bool_decide_eq_false_2 _ Hnin).
    destruct (decide (k = k')) as [->|Hne].
    + rewrite bool_decide_eq_true_2 by left. by rewrite lookup_insert_eq.
    + rewrite lookup_insert_ne by done.
      rewrite bool_decide_eq_false_2; [done |].
      intros [?|?]%elem_of_cons; done.
Qed.

(** ** The heap *)

Lemma Qltb_irrefl q : Qltb q q = false.
Proof.
  unfold Qltb. apply negb_false_iff, Qle_bool_iff, Qle_refl.
Qed.

Lemma flt_irrefl x : flt x x = false.
Proof. destruct x; simpl; auto using Qltb_irrefl. Qed.

Lemma string_ltb_irrefl s : String.ltb s s = false.
Proof.
  unfold String.ltb. pose proof (String.compare_antisym s s) as H.
  destruct (String.compare s s); done.
Qed.

Lemma tuple_eqb_refl x : tuple_eqb x x = true.
Proof.
  unfold tuple_eqb, tuple_lt.
  destruct (feq x.1 x.1); by rewrite ?string_ltb_irrefl, ?flt_irrefl.
Qed.

Lemma heap_min_in x pq : heap_min x pq ∈ x :: pq.
Proof.
  revert x. induction pq as [|y pq IH]; intros x; simpl; [left |].
  specialize (IH (if tuple_lt y x then y else x)).
  apply elem_of_cons in IH as [->|IH].
  - destruct (tuple_lt y x); [right; left | left].
  - right. by right.
Qed.

Lemma heap_remove_in x pq y : y ∈ heap_remove x pq → y ∈ pq.
Proof.
  induction pq as [|z pq IH]; simpl; [done |].
  destruct (tuple_eqb x z).
  - by right.
  - intros [->|H]%elem_of_cons; [left | right; auto].
Qed.

Lemma heap_remove_length x pq :
  x ∈ pq → S (length (heap_remove x pq)) = length pq.
Proof.
  induction pq as [|z pq IH]; simpl.
  - by intros ?%elem_of_nil.
  - intros H. destruct (tuple_eqb x z) eqn:E; [done |].
    simpl. f_equal. apply IH.
    apply elem_of_cons in H as [->|H]; [|done].
    by rewrite tuple_eqb_refl in E.
Qed.

Lemma heappop_Some pq m pq' :
  heappop pq = Some (m, pq') →
  m ∈ pq ∧ S (length pq') = length pq ∧ ∀ y, y ∈ pq' → y ∈ pq.
Proof.
  destruct pq as [|x pq]; simpl; [done |].
  intros [= <- <-]. pose proof (heap_min_in x pq) as Hin.
  split; [done |]. split.
  - by apply (heap_remove_length _ (x :: pq)).
  - intros y. apply (heap_remove_in _ (x :: pq)).
Qed.

Lemma heappop_None pq : heappop pq = None → pq = [].
Proof. by destruct pq. Qed.

Lemma heappop_singleton x : heappop [x] = Some (x, []).
Proof. simpl. by rewrite tuple_eqb_refl. Qed.

(** ** Termination measure of the search *)

Lemma remaining_insert g vis k es :
  g !! k = None →
  remaining (<[k := es]> g) vis
  = if bool_decide (k ∈ vis) then remaining g vis
    else (length es + remaining g vis)%nat.
Proof.
  intros Hk. unfold remaining. rewrite map_fold_insert_L; [done | | done].
  intros j1 j2 z1 z2 y _ _ _. repeat case_bool_decide; lia.
Qed.

Lemma remaining_visit_Some g vis c es :
  g !! c = Some es → c ∉ vis →
  remaining g vis = (length es + remaining g (c :: vis))%nat.
Proof.
  induction g as [|k x g Hk IH] using map_ind; [by rewrite lookup_empty |].
  intros Hc Hvis. rewrite !remaining_insert by done.
  destruct (decide (k = c)) as [->|Hne].
  - rewrite lookup_insert_eq in Hc. injection Hc as ->.
    rewrite bool_decide_eq_false_2 by done.
    rewrite bool_decide_eq_true_2 by left.
    f_equal. clear IH. induction g as [|k x g Hk' IH] using map_ind; [done |].
    rewrite lookup_insert_None in Hk. destruct Hk as [Hk Hne].
    rewrite !remaining_insert by done. rewrite (IH Hk).
    destruct (decide (k ∈ vis)).
    + rewrite !bool_decide_eq_true_2; [done | by right | done].
    + rewrite !bool_decide_eq_false_2; [done | | done].
      intros [?|?]%elem_of_cons; done.
  - rewrite lookup_insert_ne in Hc by done. specialize (IH Hc Hvis).
    destruct (decide (k ∈ vis)).
    + rewrite !bool_decide_eq_true_2; [done | by right | done].
    + rewrite !bool_decide_eq_false_2; [lia | | done].
      intros [?|?]%elem_of_cons; done.
Qed.

Lemma remaining_visit_None g vis c :
  g !! c = None → remaining g (c :: vis) = remaining g vis.
Proof.
  induction g as [|k x g Hk IH] using map_ind; [done |].
  intros [Hc Hne]%lookup_insert_None. rewrite !remaining_insert by done.
  rewrite (IH Hc). destruct (decide (k ∈ vis)).
  - rewrite !bool_decide_eq_true_2; [done | done | by right].
  - rewrite !bool_decide_eq_false_2; [done | done |].
    intros [?|?]%elem_of_cons; done.
Qed.

Lemma edge_count_remaining self : edge_count self = remaining (graph self) [].
Proof.
  reflexivity.
Qed.

(** ** The search keeps its invariants and returns *)

Section SearchInvariants.
Variable self : Optimizer.
Hypothesis Hwf : graph_wf self.
Variables (start end_ : string) (cw tw conv : Q).

Lemma fadd_Fin a b : fadd (Fin a) (Fin b) = Fin (Qred (a + b)).
Proof. reflexivity. Qed.

(** Closed nodes have finite accumulated cost, time and distance. *)
Lemma inv_finite st vis n :
  search_inv self start st vis → n ∈ vis ∨ n = start →
  ∃ a b c, costs st !! n = Some (Fin a) ∧ times st !! n = Some (Fin b) ∧
           distances_km st !! n = Some (Fin c).
Proof.
  intros Hinv Hn. destruct (decide (n = start)) as [->|Hne].
  - destruct (inv_start0 _ _ _ _ Hinv) as (? & ? & ?). by eexists _, _, _.
  - destruct Hn as [Hn|]; [|done].
    destruct (inv_root _ _ _ _ Hinv n Hn Hne) as [c Hc].
    destruct (inv_edge _ _ _ _ Hinv n c Hc)
      as (e & cc & ct & cd & _ & _ & _ & _ & H1 & _ & H2 & _ & H3).
    rewrite fadd_Fin in H1, H2, H3. by eexists _, _, _.
Qed.

Lemma relax_inv st pq vis current edge :
  search_inv self start st vis → heap_inv self start st pq →
  current ∈ vis → start ∈ vis →
  (∃ es, graph self !! current = Some es ∧ edge ∈ es) →
  ∃ st' pq',
    relax cw tw conv vis current (st, pq) edge = Ok (st', pq') ∧
    search_inv self start st' vis ∧ heap_inv self start st' pq' ∧
    (length pq' ≤ S (length pq))%nat.
Proof.
  intros Hinv Hpq Hcur Hstart (es & Hes & Hedge).
  unfold relax. case_bool_decide as Hnb.
  { exists st, pq. split_and!; auto. }
  destruct (inv_finite _ _ _ Hinv (or_introl Hcur))
    as (cc & ct & cd & Hcc & Hct & Hcd).
  pose proof (inv_visited _ _ _ _ Hinv _ Hcur) as HcurK.
  destruct (inv_dom _ _ _ _ Hinv _ HcurK)
    as (_ & _ & _ & _ & [tr Htr] & _ & [ei Hei]).
  pose proof (Hwf _ _ _ Hes Hedge) as HnbK.
  destruct (inv_dom _ _ _ _ Hinv _ HnbK) as ([best Hbest] & _).
  rewrite (getitem_Some _ _ _ Hcc), (getitem_Some _ _ _ Hct),
    (getitem_Some _ _ _ Hcd), (getitem_Some _ _ _ Htr),
    (getitem_Some _ _ _ Hei). cbn [mbind exc_bind].
  rewrite (getitem_Some _ _ _ Hbest). cbn [mbind exc_bind].
  match goal with |- context [flt ?c best] => destruct (flt c best); set (comp := c) end.
  2:{ exists st, pq. split_and!; auto. }
  assert (destination edge ≠ current) as Hne1 by (intros E; by rewrite E in Hnb).
  assert (destination edge ≠ start) as Hne2 by (intros E; by rewrite E in Hnb).
  eexists _, _. split; [reflexivity |]. split_and!.
  - destruct Hinv as [Idom Ivis Inodup Istart Istart0 Iroot Ichain Iedge].
    split; cbn [distances costs times distances_km transfers previous edge_info].
    + intros k Hk. rewrite !lookup_insert_is_Some.
      destruct (Idom k Hk) as (?&?&?&?&?&?&?).
      split_and!; destruct (decide (destination edge = k)); auto.
    + done.
    + done.
    + by rewrite lookup_insert_ne.
    + by rewrite !lookup_insert_ne.
    + intros n Hn Hns. rewrite lookup_insert_ne; [by apply Iroot |].
      intros E. by rewrite E in Hnb.
    + intros n c. destruct (decide (destination edge = n)) as [<-|Hn].
      * rewrite lookup_insert_eq. intros [= <-]. split; [done |].
        intros a b ->. destruct Hnb. apply elem_of_app. right. left.
      * rewrite lookup_insert_ne by done. apply Ichain.
    + intros n c. destruct (decide (destination edge = n)) as [<-|Hn].
      * rewrite !lookup_insert_eq. intros [= <-].
        rewrite !lookup_insert_ne by done.
        exists edge, cc, ct, cd. split_and!; eauto.
      * rewrite !(lookup_insert_ne _ (destination edge) n) by done.
        intros Hp. destruct (Ichain n c Hp) as [Hc _].
        assert (destination edge ≠ c) by (intros E; by rewrite E in Hnb).
        rewrite !lookup_insert_ne by done. by apply Iedge.
  - intros x [->|Hx]%elem_of_cons; cbn [previous snd].
    + split; [done |]. right. rewrite lookup_insert_eq. eauto.
    + destruct (Hpq x Hx) as [? [?|[c Hc]]]; split; auto.
      right. destruct (decide (destination edge = x.2)) as [<-|Hn].
      * rewrite lookup_insert_eq. eauto.
      * rewrite lookup_insert_ne by done. eauto.
  - simpl. lia.
Qed.

Lemma relax_fold_inv vis current es l : ∀ st pq,
  search_inv self start st vis → heap_inv self start st pq →
  current ∈ vis → start ∈ vis →
  graph self !! current = Some es → (∀ e, e ∈ l → e ∈ es) →
  ∃ st' pq',
    foldM (relax cw tw conv vis current) (st, pq) l = Ok (st', pq') ∧
    search_inv self start st' vis ∧ heap_inv self start st' pq' ∧
    (length pq' ≤ length pq + length l)%nat.
Proof.
  induction l as [|e l IH]; intros st pq Hinv Hpq Hcur Hstart Hes Hl.
  - exists st, pq. simpl. split_and!; auto. lia.
  - destruct (relax_inv st pq vis current e) as (st1 & pq1 & E & H1 & H2 & H3);
      auto.
    { exists es. split; [done |]. apply Hl. left. }
    destruct (IH st1 pq1) as (st2 & pq2 & E2 & ? & ? & ?); auto.
    { intros e' He'. apply Hl. by right. }
    exists st2, pq2. cbn [foldM]. rewrite E. cbn [mbind exc_bind].
    split_and!; auto. simpl. lia.
Qed.

Lemma visit_inv st vis current :
  search_inv self start st vis → current ∉ vis → current ∈ keys self →
  (current = start ∨ ∃ c, previous st !! current = Some (Some c)) →
  search_inv self start st (current :: vis).
Proof.
  intros [Idom Ivis Inodup Istart Istart0 Iroot Ichain Iedge] Hnew HK Hpred.
  split; auto.
  - intros n [->|?]%elem_of_cons; auto.
  - by constructor.
  - intros n [->|?]%elem_of_cons Hne; auto. by destruct Hpred.
  - intros n c Hp. destruct (Ichain n c Hp) as [Hc Hpos].
    split; [by right |]. intros [|x a] b E; simplify_eq/=; eauto.
Qed.

(** The loop returns once the fuel exceeds the heap size plus the
    number of edges leaving open nodes. *)
Lemma dijkstra_loop_ok fuel : ∀ st pq vis,
  search_inv self start st vis → heap_inv self start st pq →
  start_inv start pq vis →
  (length pq + remaining (graph self) vis < fuel)%nat →
  ∃ st' vis',
    dijkstra_loop self end_ cw tw conv fuel st pq vis = Ok st' ∧
    search_inv self start st' vis'.
Proof.
  induction fuel as [|fuel IH]; intros st pq vis Hinv Hpq Hst Hfuel; [lia |].
  cbn [dijkstra_loop].
  destruct (heappop pq) as [[[d current] pq1]|] eqn:Hpop; [|eauto].
  destruct (heappop_Some _ _ _ Hpop) as (Hin & Hlen & Hsub).
  assert (heap_inv self start st pq1) as Hpq1 by (intros x Hx; auto).
  case_bool_decide as Hvis.
  { apply IH; auto; [|lia].
    destruct Hst as [?|[-> _]]; [by left | by apply elem_of_nil in Hvis]. }
  destruct (Hpq _ Hin) as [HK Hpred]. cbn [snd] in HK, Hpred.
  pose proof (visit_inv _ _ _ Hinv Hvis HK Hpred) as Hinv'.
  assert (start ∈ current :: vis) as Hstart.
  { destruct Hst as [?|[-> ->]]; [by right |].
    apply list_elem_of_singleton in Hin as [= _ ->]. left. }
  destruct (String.eqb current end_); [eauto |].
  destruct (graph self !! current) as [edges|] eqn:Hedges.
  - pose proof (remaining_visit_Some _ _ _ _ Hedges Hvis) as Hrem.
    destruct (relax_fold_inv (current :: vis) current edges edges st pq1)
      as (st2 & pq2 & -> & ? & ? & ?); auto; [left |].
    cbn [mbind exc_bind]. apply IH; auto; [by left | lia].
  - apply IH; auto; [by left |].
    rewrite remaining_visit_None by done. lia.
Qed.

Lemma dijkstra_init_inv :
  start ∈ keys self →
  let inf := PInf in
  search_inv self start
    {| distances := <[start := Fin 0]> (dict_from_keys (locations self) inf);
       costs := <[start := Fin 0]> (dict_from_keys (locations self) inf);
       times := <[start := Fin 0]> (dict_from_keys (locations self) inf);
       distances_km := <[start := Fin 0]> (dict_from_keys (locations self) inf);
       transfers := <[start := 0%Z]> (dict_from_keys (locations self) 0%Z);
       previous := dict_from_keys (locations self) None;
       edge_info := dict_from_keys (locations self) None |} [].
Proof.
  intros HK inf.
  split; cbn [distances costs times distances_km transfers previous edge_info].
  - intros k Hk. rewrite !lookup_insert_is_Some, !dict_from_keys_lookup.
    unfold keys in Hk. rewrite !bool_decide_eq_true_2 by done.
    split_and!; eauto; destruct (decide (start = k)); eauto.
  - by intros n ?%elem_of_nil.
  - constructor.
  - rewrite dict_from_keys_lookup. by rewrite bool_decide_eq_true_2.
  - by rewrite !lookup_insert_eq.
  - by intros n ?%elem_of_nil.
  - intros n c. rewrite dict_from_keys_lookup. by case_bool_decide.
  - intros n c. rewrite dict_from_keys_lookup. by case_bool_decide.
Qed.

(** [_dijkstra] returns a state, and the state satisfies the
    invariants for some list of closed nodes. *)
Lemma dijkstra_ok :
  start ∈ keys self →
  ∃ st vis, _dijkstra self start end_ cw tw conv = Ok st ∧
            search_inv self start st vis.
Proof.
  intros HK. unfold _dijkstra. cbv zeta.
  apply dijkstra_loop_ok.
  - by apply dijkstra_init_inv.
  - intros x ->%list_elem_of_singleton. split; [done | by left].
  - by right.
  - rewrite edge_count_remaining. simpl. lia.
Qed.
End SearchInvariants.

(** ** Path reconstruction *)

Section Reconstruct.
Variable self : Optimizer.
Variables (start end_ : string).
Variables (st : SearchState) (vis : list string).
Hypothesis Hinv : search_inv self start st vis.

Lemma walk_back_chain root n l es : ∀ fuel acc,
  chain st root n l es → (length l < fuel)%nat →
  walk_back fuel st (Some n) acc = Ok (acc ++ l)%list.
Proof.
  intros fuel acc Hch. revert fuel acc.
  induction Hch as [Hroot|n c l es e Hp He Hch IH]; intros fuel acc Hfuel.
  - destruct fuel as [|[|fuel]]; simpl in *; try lia.
    by rewrite (getitem_Some _ _ _ Hroot).
  - destruct fuel as [|fuel]; simpl in *; [lia |].
    rewrite (getitem_Some _ _ _ Hp). cbn [mbind exc_bind].
    rewrite IH by lia. by rewrite <- app_assoc.
Qed.

(** From a closed node the links lead to the start, through nodes
    closed before it. *)
Lemma chain_closed : ∀ k a n b,
  length b = k → vis = (a ++ n :: b)%list →
  ∃ l es, chain st start n l es ∧ (length l ≤ S (length b))%nat ∧
          ∀ x, x ∈ l → x ∈ keys self.
Proof.
  induction k as [k IH] using lt_wf_ind. intros a n b Hk Hvis.
  assert (n ∈ vis) as Hn by (rewrite Hvis; apply elem_of_app; right; left).
  pose proof (inv_visited _ _ _ _ Hinv n Hn) as HnK.
  destruct (decide (n = start)) as [->|Hne].
  - exists [start], []. split_and!.
    + constructor. apply (inv_start _ _ _ _ Hinv).
    + simpl. lia.
    + by intros x ->%list_elem_of_singleton.
  - destruct (inv_root _ _ _ _ Hinv n Hn Hne) as [c Hc].
    destruct (inv_chain _ _ _ _ Hinv n c Hc) as [_ Hpos].
    specialize (Hpos a b Hvis).
    apply list_elem_of_split in Hpos as (b1 & b2 & ->).
    destruct (inv_edge _ _ _ _ Hinv n c Hc) as (e & _ & _ & _ & He & _).
    destruct (IH (length b2)) with (a := (a ++ n :: b1)%list) (n := c) (b := b2)
      as (l & es & Hch & Hlen & HK); auto.
    { rewrite <- Hk, length_app. simpl. lia. }
    { by rewrite <- app_assoc. }
    exists (n :: l), (e :: es). split_and!.
    + by econstructor.
    + rewrite length_app. simpl. lia.
    + intros x [->|?]%elem_of_cons; auto.
Qed.

Lemma visited_length : (length vis ≤ length (locations self))%nat.
Proof.
  rewrite <- (length_fmap fst (locations self)).
  apply submseteq_length, NoDup_submseteq.
  - apply (inv_nodup _ _ _ _ Hinv).
  - apply (inv_visited _ _ _ _ Hinv).
Qed.

(** Every node that has a predecessor is linked to the start by at
    most as many nodes as the catalogue has, plus itself. *)
Lemma chain_exists n c :
  n ∈ keys self → previous st !! n = Some (Some c) →
  ∃ l es, chain st start n l es ∧
          (length l ≤ S (length (locations self)))%nat ∧
          (2 ≤ length l)%nat ∧
          ∀ x, x ∈ l → x ∈ keys self.
Proof.
  intros HnK Hc. destruct (inv_chain _ _ _ _ Hinv n c Hc) as [Hcv _].
  apply list_elem_of_split in Hcv as (a & b & Hvis).
  destruct (chain_closed (length b) a c b eq_refl Hvis)
    as (l & es & Hch & Hlen & HK).
  destruct (inv_edge _ _ _ _ Hinv n c Hc) as (e & _ & _ & _ & He & _).
  exists (n :: l), (e :: es). split_and!.
  - by econstructor.
  - pose proof visited_length as Hv. rewrite Hvis, length_app in Hv.
    simpl in *. lia.
  - destruct Hch; simpl; lia.
  - intros x [->|?]%elem_of_cons; auto.
Qed.

(** Along the links the recorded totals are the sums of the edges. *)
Lemma chain_sums n l es :
  chain st start n l es →
  ∃ tc tt td,
    costs st !! n = Some (Fin tc) ∧ (tc == Qsum (cost <$> es))%Q ∧
    times st !! n = Some (Fin tt) ∧ (tt == Qsum (time <$> es))%Q ∧
    distances_km st !! n = Some (Fin td) ∧
    (td == Qsum (distance <$> es))%Q.
Proof.
  induction 1 as [Hroot|n c l es e Hp He Hch IH].
  - destruct (inv_start0 _ _ _ _ Hinv) as (H1 & H2 & H3).
    exists 0%Q, 0%Q, 0%Q. by split_and!.
  - destruct IH as (tc & tt & td & Hc1 & Hc2 & Ht1 & Ht2 & Hd1 & Hd2).
    destruct (inv_edge _ _ _ _ Hinv n c Hp)
      as (e' & cc & ct & cd & He' & _ & _ & H1 & H2 & H3 & H4 & H5 & H6).
    simplify_eq. rewrite fadd_Fin in H2, H4, H6.
    eexists _, _, _. split_and!; try done; cbn [fmap list_fmap Qsum foldr];
      rewrite Qred_correct; fold (Qsum (cost <$> es));
      fold (Qsum (time <$> es)); fold (Qsum (distance <$> es)).
    + rewrite Hc2. apply Qplus_comm.
    + rewrite Ht2. apply Qplus_comm.
    + rewrite Hd2. apply Qplus_comm.
Qed.

Lemma detail_rest_app r1 r2 :
  detail_rest self st (r1 ++ r2)
  = ss1 ← detail_rest self st r1; ss2 ← detail_rest self st r2;
    Ok (ss1 ++ ss2)%list.
Proof.
  induction r1 as [|x r1 IH].
  - simpl. by destruct (detail_rest self st r2).
  - cbn [app detail_rest]. rewrite IH.
    destruct (detail self st false x); [|reflexivity].
    cbn [mbind exc_bind].
    destruct (detail_rest self st r1); [|reflexivity].
    cbn [mbind exc_bind].
    by destruct (detail_rest self st r2).
Qed.

Lemma Qsum_app l1 l2 : (Qsum (l1 ++ l2) == Qsum l1 + Qsum l2)%Q.
Proof.
  induction l1 as [|x l1 IH]; simpl.
  - ring.
  - fold (Qsum (l1 ++ l2)). fold (Qsum l1). rewrite IH. ring.
Qed.

Lemma Qsum_reverse l : (Qsum (reverse l) == Qsum l)%Q.
Proof.
  induction l as [|x l IH]; [reflexivity |].
  rewrite reverse_cons, Qsum_app, IH. simpl. fold (Qsum l). ring.
Qed.

(** The steps that [_reconstruct_path] builds after the first. *)
Lemma chain_steps n l es :
  chain st start n l es → (∀ x, x ∈ l → x ∈ keys self) →
  ∃ r ss,
    reverse l = start :: r ∧ detail_rest self st r = Ok ss ∧
    Forall2 step_shows ss (reverse es) ∧
    (es ≠ [] → location <$> last ss = Some n).
Proof.
  induction 1 as [Hroot|n c l es e Hp He Hch IH]; intros HK.
  - exists [], []. split_and!; try done; constructor.
  - destruct IH as (r & ss & Hr & Hss & Hall & _).
    { intros x Hx. apply HK. by right. }
    destruct (inv_edge _ _ _ _ Hinv n c Hp) as (e' & _ & _ & _ & He' & Hd & _).
    rewrite He in He'. injection He' as <-. subst n.
    assert (destination e ∈ keys self) as HnK by (apply HK; left).
    apply dict_get_key in HnK as [info Hinfo].
    exists (r ++ [destination e])%list. eexists. split_and!.
    + by rewrite reverse_cons, Hr.
    + rewrite detail_rest_app, Hss. cbn [mbind exc_bind detail_rest detail].
      rewrite (getitem_Some _ _ _ He). cbn [mbind exc_bind].
      unfold dict_getitem. rewrite Hinfo. cbn [mbind exc_bind]. reflexivity.
    + rewrite reverse_cons. apply Forall2_app; [done |].
      constructor; [|constructor]. by split_and!.
    + intros _. by rewrite last_snoc.
Qed.

Lemma reconstruct_ok c :
  end_ ∈ keys self → previous st !! end_ = Some (Some c) →
  ∃ s0 ss es,
    _reconstruct_path self start end_ st = Ok (s0 :: ss) ∧ ss ≠ [] ∧
    location s0 = start ∧ step_mode s0 = "start" ∧
    segment_time s0 = 0%Q ∧ segment_cost s0 = 0%Q ∧
    segment_distance s0 = 0%Q ∧
    location <$> last (s0 :: ss) = Some end_ ∧
    Forall2 step_shows ss es ∧
    ∃ tc tt td,
      costs st !! end_ = Some (Fin tc) ∧ (tc == Qsum (cost <$> es))%Q ∧
      times st !! end_ = Some (Fin tt) ∧ (tt == Qsum (time <$> es))%Q ∧
      distances_km st !! end_ = Some (Fin td) ∧
      (td == Qsum (distance <$> es))%Q.
Proof.
  intros HK Hc.
  destruct (chain_exists end_ c HK Hc) as (l & es & Hch & Hlen & Hlen2 & HlK).
  destruct (chain_steps _ _ _ Hch HlK) as (r & ss & Hr & Hss & Hall & Hlast).
  destruct (chain_sums _ _ _ Hch)
    as (tc & tt & td & Hc1 & Hc2 & Ht1 & Ht2 & Hd1 & Hd2).
  assert (start ∈ keys self) as HsK.
  { apply HlK. apply elem_of_reverse. rewrite Hr. left. }
  apply dict_get_key in HsK as [info Hinfo].
  assert (es ≠ []) as Hes by (destruct Hch; [simpl in *; lia | done]).
  assert (ss ≠ []) as Hne.
  { intros ->. apply Forall2_nil_inv_l in Hall.
    apply (f_equal reverse) in Hall. rewrite reverse_involutive in Hall.
    done. }
  eexists _, ss, (reverse es). split_and!.
  - unfold _reconstruct_path.
    rewrite (walk_back_chain _ _ _ _ _ _ Hch) by (simpl; lia).
    cbn [mbind exc_bind app]. rewrite Hr. rewrite String.eqb_refl.
    cbn [negb detail]. unfold dict_getitem. rewrite Hinfo.
    cbn [mbind exc_bind]. rewrite Hss. reflexivity.
  - done.
  - done.
  - done.
  - done.
  - done.
  - done.
  - specialize (Hlast Hes). destruct ss as [|s ss]; [done |].
    rewrite <- Hlast. by rewrite last_cons_cons.
  - done.
  - exists tc, tt, td. rewrite <- !reverse_fmap' || idtac.
    split_and!; try done; rewrite fmap_reverse, Qsum_reverse; done.
Qed.
End Reconstruct.

(** ** Sorting and deduplication *)

Section SortBy.
Context {A : Type} (key : A → Q).

Lemma insert_by_perm x l : insert_by key x l ≡ₚ x :: l.
Proof.
  induction l as [|y l IH]; simpl; [done |].
  destruct (Qltb (key y) (key x)); [|done].
  rewrite IH. apply Permutation_swap.
Qed.

Lemma sort_by_perm l : sort_by key l ≡ₚ l.
Proof.
  induction l as [|x l IH]; simpl; [done |].
  fold (sort_by key l). by rewrite insert_by_perm, IH.
Qed.

Lemma Qltb_lt x y : Qltb x y = true ↔ (x < y)%Q.
Proof.
  unfold Qltb. rewrite negb_true_iff, <- not_true_iff_false, Qle_bool_iff.
  split; [apply Qnot_le_lt | apply Qlt_not_le].
Qed.

Lemma Qltb_ge x y : Qltb x y = false ↔ (y <= x)%Q.
Proof.
  unfold Qltb. by rewrite negb_false_iff, Qle_bool_iff.
Qed.

Lemma insert_by_sorted x l : Sorted (key_le key) l → Sorted (key_le key) (insert_by key x l).
Proof.
  induction 1 as [|y l Hs IH Hhd]; simpl.
  - repeat constructor.
  - destruct (Qltb (key y) (key x)) eqn:E.
    + constructor; [done |]. destruct Hhd as [|z l Hz]; simpl.
      * constructor. apply Qltb_lt in E. by apply Qlt_le_weak.
      * destruct (Qltb (key z) (key x)); constructor; [done |].
        apply Qltb_lt in E. by apply Qlt_le_weak.
    + constructor; [by constructor |]. constructor. by apply Qltb_ge.
Qed.

Lemma sort_by_sorted l : Sorted (key_le key) (sort_by key l).
Proof.
  induction l as [|x l IH]; simpl; [constructor |].
  by apply insert_by_sorted.
Qed.

Lemma sort_by_ascending l : ascending key (sort_by key l).
Proof.
  pose proof (sort_by_sorted l) as Hs. revert Hs.
  generalize (sort_by key l). clear l. intros l Hs.
  induction Hs as [|x l Hs IH Hhd]; intros i a b Ha Hb; [done |].
  destruct i as [|i]; simpl in *.
  - injection Ha as ->. destruct Hhd as [|z l Hz]; [done |].
    by injection Hb as ->.
  - eauto.
Qed.
End SortBy.

Section Dedup.
Lemma remove_duplicates_sublist seen l :
  remove_duplicates seen l `sublist_of` l.
Proof.
  revert seen. induction l as [|r l IH]; intros seen; simpl; [done |].
  case_bool_decide; [by apply sublist_cons | by apply sublist_skip].
Qed.




End Dedup.

(** ** The loop over the strategies *)

Section Aggregate.
Variable self : Optimizer.
Hypothesis Hwf : graph_wf self.
Variables (start end_ : string).
Hypothesis Hstart : start ∈ keys self.
Hypothesis Hend : end_ ∈ keys self.

Lemma run_strategy_ok rs s :
  (¬ reaches self start end_ s ∧
   run_strategy self start end_ rs s = Ok rs) ∨
  (reaches self start end_ s ∧
   ∃ r, run_strategy self start end_ rs s = Ok (rs ++ [r])%list ∧
        route_ok self start end_ s r).
Proof.
  destruct (dijkstra_ok self Hwf start end_
              (strat_cost s) (strat_time s) (strat_conv s) Hstart)
    as (st & vis & Hst & Hinv).
  destruct (inv_dom _ _ _ _ Hinv _ Hend) as (_ & _ & _ & _ & _ & [p Hp] & _).
  unfold run_strategy. rewrite Hst. cbn [mbind exc_bind].
  rewrite (getitem_Some _ _ _ Hp). cbn [mbind exc_bind].
  destruct p as [c|].
  - right. split; [by exists st, c |].
    destruct (reconstruct_ok self start end_ st vis Hinv c Hend Hp)
      as (s0 & ss & es & -> & Hne & H1 & H2 & H3 & H4 & H5 & H6 & H7
          & tc & tt & td & Hc1 & Hc2 & Ht1 & Ht2 & Hd1 & Hd2).
    cbn [mbind exc_bind].
    rewrite (getitem_Some _ _ _ Hc1), (getitem_Some _ _ _ Ht1),
      (getitem_Some _ _ _ Hd1). cbn [mbind exc_bind py_round].
    eexists. split; [reflexivity |].
    split; cbn [strategy path total_cost total_time total_distance];
      [done |].
    exists s0, ss, es. split_and!; eauto.
  - left. split; [|done].
    intros (st' & c & Hst' & Hc). congruence.
Qed.

Lemma run_strategies_ok ss : ∀ acc,
  ∃ rs, foldM (run_strategy self start end_) acc ss = Ok (acc ++ rs)%list ∧
        collected self start end_ ss rs.
Proof.
  induction ss as [|s ss IH]; intros acc; cbn [foldM].
  - exists []. rewrite app_nil_r. split; [done | constructor].
  - destruct (run_strategy_ok acc s) as [[Hn ->]|[Hr (r & -> & Hok)]];
      cbn [mbind exc_bind].
    + destruct (IH acc) as (rs & -> & Hcol).
      exists rs. split; [done | by constructor].
    + destruct (IH (acc ++ [r])%list) as (rs & -> & Hcol).
      exists (r :: rs). rewrite <- app_assoc. split; [done | by constructor].
Qed.

(** A valid query with distinct endpoints returns the routes
    gathered, without duplicates and ranked, or the no-route error
    when no strategy reached the destination. *)
Lemma find_valid :
  start ≠ end_ →
  ∃ all_routes,
    collected self start end_ strategies all_routes ∧
    find_optimized_routes self start end_
    = Ok (match sort_by rank_key (remove_duplicates [] all_routes) with
          | [] => [ErrorDict (msg_no_route start end_)]
          | r :: rs => RouteDict <$> r :: rs
          end).
Proof.
  intros Hne. unfold find_optimized_routes.
  rewrite (proj2 (dict_mem_key _ _) Hstart), (proj2 (dict_mem_key _ _) Hend).
  cbn [negb]. rewrite (proj2 (String.eqb_neq _ _) Hne).
  destruct (run_strategies_ok strategies []) as (rs & -> & Hcol).
  cbn [mbind exc_bind app]. exists rs. split; [done |].
  by destruct (sort_by rank_key (remove_duplicates [] rs)).
Qed.

End Aggregate.

(** Facts about [collected]. *)

Lemma collected_length self s e ss rs :
  collected self s e ss rs → (length rs ≤ length ss)%nat.
Proof. induction 1; simpl; lia. Qed.

Lemma collected_names self s e ss rs :
  collected self s e ss rs → (strategy <$> rs) `sublist_of` (strat_name <$> ss).
Proof.
  induction 1 as [|? ? ? ? ? IH|? ? ? ? ? Hok ? IH]; simpl.
  - done.
  - by apply sublist_cons.
  - rewrite (ro_strategy _ _ _ _ _ Hok). by apply sublist_skip.
Qed.

Lemma collected_route_ok self s e ss rs r :
  collected self s e ss rs → r ∈ rs →
  ∃ st, st ∈ ss ∧ reaches self s e st ∧ route_ok self s e st r.
Proof.
  induction 1 as [|? ? ? ? ? IH|? ? ? ? ? Hok ? IH].
  - by intros ?%elem_of_nil.
  - intros Hr. destruct (IH Hr) as (st & ? & ?). exists st.
    split; [by right | done].
  - intros [->|Hr]%elem_of_cons.
    + eexists. split; [left | done].
    + destruct (IH Hr) as (st & ? & ?). exists st. split; [by right | done].
Qed.

Lemma collected_nil_iff self s e ss rs :
  collected self s e ss rs →
  rs = [] ↔ ∀ st, st ∈ ss → ¬ reaches self s e st.
Proof.
  induction 1 as [|s0 ss rs Hn Hcol IH|s0 ss r rs Hr Hok Hcol IH].
  - split; [|done]. by intros _ st ?%elem_of_nil.
  - rewrite IH. split.
    + intros Hall st [->|Hst]%elem_of_cons; [exact Hn | by apply Hall].
    + intros Hall st Hst. apply Hall. by right.
  - split; [done |]. intros Hall. destruct (Hall s0); [left | done].
Qed.

(** ** The builder *)

Lemma add_edge_locations self a b m t d c :
  locations (_add_edge self a b m t d c) = locations self.
Proof. reflexivity. Qed.

Lemma add_edge_metro_stations self a b m t d c :
  metro_stations (_add_edge self a b m t d c) = metro_stations self.
Proof. reflexivity. Qed.

Lemma has_edge_add_edge self a b m t d c v e :
  has_edge (_add_edge self a b m t d c) v e ↔
  has_edge self v e ∨
  (v = a ∧ e = {| destination := b; mode := m; time := t;
                  distance := d; cost := c |}).
Proof.
  unfold has_edge, _add_edge. cbn [graph].
  destruct (decide (a = v)) as [->|Hne].
  - rewrite lookup_insert_eq. split.
    + intros (es & [= <-] & [He|He%list_elem_of_singleton]%elem_of_app).
      * left. destruct (graph self !! v) as [es|]; simpl in *; [eauto |].
        by apply elem_of_nil in He.
      * by right.
    + intros [(es & Hes & He)|[_ ->]]; eexists; (split; [done |]).
      * rewrite Hes. simpl. apply elem_of_app. by left.
      * apply elem_of_app. right. by left.
  - rewrite lookup_insert_ne by done. split; [by left |].
    intros [?|[-> _]]; done.
Qed.

Lemma add_all_app self l1 l2 :
  add_all self (l1 ++ l2) = add_all (add_all self l1) l2.
Proof. apply foldl_app. Qed.

Lemma add_all_locations self l : locations (add_all self l) = locations self.
Proof.
  revert self. induction l as [|x l IH]; intros self; [done |].
  cbn [add_all foldl]. fold (add_all (_add_edge self x.1 (destination x.2)
    (mode x.2) (time x.2) (distance x.2) (cost x.2)) l). by rewrite IH.
Qed.

Lemma add_all_metro_stations self l :
  metro_stations (add_all self l) = metro_stations self.
Proof.
  revert self. induction l as [|x l IH]; intros self; [done |].
  cbn [add_all foldl]. fold (add_all (_add_edge self x.1 (destination x.2)
    (mode x.2) (time x.2) (distance x.2) (cost x.2)) l). by rewrite IH.
Qed.

Lemma has_edge_add_all self l v e :
  has_edge (add_all self l) v e ↔ has_edge self v e ∨ (v, e) ∈ l.
Proof.
  revert self. induction l as [|[a x] l IH]; intros self.
  - simpl. split; [by left |]. by intros [?|?%elem_of_nil].
  - cbn [add_all foldl fst snd].
    fold (add_all (_add_edge self a (destination x) (mode x) (time x)
                     (distance x) (cost x)) l).
    rewrite IH, has_edge_add_edge, elem_of_cons. destruct x. simpl.
    split; [intros [[?|[-> ->]]|?] | intros [?|[[= -> ->]|?]]]; auto.
Qed.

Section BuilderSteps.
Variable M : MathLib.

Lemma both_add self a b m t d c :
  _add_edge (_add_edge self a b m t d c) b a m t d c
  = add_all self (both a b m t d c).
Proof. reflexivity. Qed.

Lemma connect_consecutive_cons self s1 s2 l :
  connect_consecutive M self (s1 :: s2 :: l)
  = l1 ← dict_getitem (locations self) s1;
    l2 ← dict_getitem (locations self) s2;
    connect_consecutive M
      (add_all self
         (both s1 s2 "metro" 2.5
            (_haversine_distance M (lat l1) (lon l1) (lat l2) (lon l2)) 5))
      (s2 :: l).
Proof. reflexivity. Qed.

Lemma consecutive_edges_cons locs s1 s2 l :
  consecutive_edges M locs (s1 :: s2 :: l)
  = match dict_get locs s1, dict_get locs s2 with
    | Some l1, Some l2 =>
        (both s1 s2 "metro" 2.5
           (_haversine_distance M (lat l1) (lon l1) (lat l2) (lon l2)) 5
         ++ consecutive_edges M locs (s2 :: l))%list
    | _, _ => []
    end.
Proof. reflexivity. Qed.

Lemma connect_consecutive_edges l : ∀ self,
  (∀ s, s ∈ l → is_Some (dict_get (locations self) s)) →
  connect_consecutive M self l
  = Ok (add_all self (consecutive_edges M (locations self) l)).
Proof.
  induction l as [|s1 l IH]; intros self Hl; [done |].
  destruct l as [|s2 l]; [done |].
  rewrite connect_consecutive_cons, consecutive_edges_cons.
  destruct (Hl s1) as [l1 H1]; [left |].
  destruct (Hl s2) as [l2 H2]; [right; left |].
  unfold dict_getitem. rewrite H1, H2. cbn [mbind exc_bind].
  rewrite IH.
  - by rewrite add_all_locations, add_all_app.
  - intros s Hs. rewrite add_all_locations. apply Hl. by right.
Qed.

Lemma consecutive_edges_ext locs locs' l :
  (∀ s, s ∈ l → dict_get locs s = dict_get locs' s) →
  consecutive_edges M locs l = consecutive_edges M locs' l.
Proof.
  induction l as [|s1 l IH]; intros Hl; [done |].
  destruct l as [|s2 l]; [done |].
  rewrite !consecutive_edges_cons, IH.
  - rewrite (Hl s1) by left. by rewrite (Hl s2) by (right; left).
  - intros s Hs. apply Hl. by right.
Qed.

Lemma connect_station_edges location self sd :
  connect_station location self sd
  = add_all self (station_edges location sd).
Proof.
  destruct sd as [station d]. unfold connect_station, station_edges.
  rewrite !add_all_app.
  destruct (Qltb d 1.5), (Qltb d 15), (Qltb 1.0 d && Qltb d 10); reflexivity.
Qed.

Lemma foldl_add_all {A : Type} (f : Optimizer → A → Optimizer)
    (g : A → list (string * Edge)) (l : list A) : ∀ self,
  (∀ self x, x ∈ l → f self x = add_all self (g x)) →
  foldl f self l = add_all self (flat_map g l).
Proof.
  induction l as [|x l IH]; intros self Hf; [done |].
  cbn [foldl flat_map]. rewrite add_all_app, Hf by left.
  apply IH. intros self' y Hy. apply Hf. by right.
Qed.

Lemma nearest_same self self' location k :
  locations self = locations self' →
  metro_stations self = metro_stations self' →
  _find_nearest_metro_stations M self location k
  = _find_nearest_metro_stations M self' location k.
Proof. unfold _find_nearest_metro_stations. by intros -> ->. Qed.

Lemma connect_location_edges self0 self item :
  locations self = locations self0 →
  metro_stations self = metro_stations self0 →
  connect_location M self item = add_all self (location_edges M self0 item).
Proof.
  intros HL HM. destruct item as [location loc_data].
  unfold connect_location, location_edges. cbn [fst snd].
  destruct (String.eqb (type loc_data) "metro_station"); [done |].
  rewrite (nearest_same self self0) by done.
  apply foldl_add_all. intros. apply connect_station_edges.
Qed.

Lemma connect_locations_edges self0 items : ∀ self,
  locations self = locations self0 →
  metro_stations self = metro_stations self0 →
  foldl (connect_location M) self items
  = add_all self (flat_map (location_edges M self0) items).
Proof.
  induction items as [|x items IH]; intros self HL HM; [done |].
  cbn [foldl flat_map].
  rewrite add_all_app, (connect_location_edges self0) by done.
  apply IH; by rewrite ?add_all_locations, ?add_all_metro_stations.
Qed.

Lemma connect_pair_edges item1 self item2 :
  connect_pair M item1 self item2 = add_all self (pair_edges M item1 item2).
Proof.
  destruct item1 as [loc1 data1], item2 as [loc2 data2].
  unfold connect_pair, pair_edges. cbn [fst snd]. rewrite add_all_app.
  destruct (Qltb _ 10), (Qltb _ 1.5); reflexivity.
Qed.

Lemma connect_pairs_edges l : ∀ self,
  connect_pairs M self l = add_all self (pairs_edges M l).
Proof.
  induction l as [|x l IH]; intros self; [done |].
  cbn [connect_pairs pairs_edges]. rewrite add_all_app, IH.
  f_equal. apply foldl_add_all. intros. apply connect_pair_edges.
Qed.

(** The constructor raises nothing, and its graph consists of the
    edges of [builder_edges]. *)
Lemma init_ok :
  __init__ M = Ok (add_all catalogue (builder_edges M)).
Proof.
  unfold __init__, _build_metro_network.
  rewrite connect_consecutive_edges.
  2:{ intros s Hs. apply dict_get_key. revert s Hs.
      apply Forall_forall. vm_compute. repeat constructor. }
  cbn [mbind exc_bind].
  unfold _add_popular_locations, _connect_locations_to_metro,
    _add_direct_connections.
  set (base := {| graph := ∅; locations := []; metro_stations := [] |}).
  set (s1 := foldl add_station base metro_data).
  set (E1 := consecutive_edges M (locations s1) _).
  assert (foldl add_place (add_all s1 E1) popular_places
          = add_all catalogue E1) as ->.
  { unfold catalogue. fold base. fold s1. generalize E1. intros E.
    assert (∀ l s, foldl add_place (add_all s E) l
                   = add_all (foldl add_place s l) E) as Hc; [|apply Hc].
    induction l as [|x l IH]; intros s; [done |].
    cbn [foldl]. rewrite <- IH. f_equal.
    clear. revert s. induction E as [|y E IH]; intros s; [done |].
    cbn [add_all foldl]. fold (add_all (_add_edge s y.1 (destination y.2)
      (mode y.2) (time y.2) (distance y.2) (cost y.2)) E).
    rewrite IH. f_equal. by destruct x as [[[? ?] ?] ?]. }
  rewrite !add_all_locations.
  rewrite (connect_locations_edges catalogue)
    by (by rewrite ?add_all_locations, ?add_all_metro_stations).
  rewrite connect_pairs_edges, !add_all_locations.
  unfold builder_edges. rewrite !add_all_app.
  assert (E1 = consecutive_edges M (locations catalogue) station_names)
    as ->; [|done].
  apply consecutive_edges_ext. apply Forall_forall.
  vm_compute. repeat constructor.
Qed.

Lemma kochi_eq : kochi M = add_all catalogue (builder_edges M).
Proof. unfold kochi. by rewrite init_ok. Qed.

Lemma kochi_locations : locations (kochi M) = locations catalogue.
Proof. by rewrite kochi_eq, add_all_locations. Qed.

Lemma kochi_has_edge v e :
  has_edge (kochi M) v e ↔ (v, e) ∈ builder_edges M.
Proof.
  rewrite kochi_eq, has_edge_add_all. split; [|by right].
  intros [(es & Hes & _)|?]; [|done].
  change (graph catalogue) with (∅ : gmap string (list Edge)) in Hes.
  by rewrite lookup_empty in Hes.
Qed.
End BuilderSteps.

(** ** What the edges of the network are *)

Section Network.
Variable M : MathLib.

Lemma both_joins a b m t d c v e :
  (v, e) ∈ both a b m t d c →
  joins a b v e ∧ mode e = m ∧ time e = t ∧ distance e = d ∧ cost e = c.
Proof.
  unfold both, joins.
  intros [[= -> ->]|[[= -> ->]|?%elem_of_nil]%elem_of_cons]%elem_of_cons;
    [split_and!; auto .. | done].
Qed.

Lemma station_edges_connector loc station d v e :
  (v, e) ∈ station_edges loc (station, d) →
  joins loc station v e ∧ connector d e.
Proof.
  unfold station_edges, connector. rewrite !elem_of_app.
  intros [H|[H|H]].
  - destruct (Qltb d 1.5) eqn:E; [|by apply elem_of_nil in H].
    apply both_joins in H as (? & ? & ? & ? & ?).
    split; [done |]. split; [done |]. left. by split_and!.
  - destruct (Qltb d 15) eqn:E; [|by apply elem_of_nil in H].
    apply both_joins in H as (? & ? & ? & ? & ?).
    split; [done |]. split; [done |]. right; left. by split_and!.
  - destruct (Qltb 1.0 d) eqn:E1; [|by apply elem_of_nil in H].
    destruct (Qltb d 10) eqn:E2; [|by apply elem_of_nil in H].
    apply both_joins in H as (? & ? & ? & ? & ?).
    split; [done |]. split; [done |]. right; right. by split_and!.
Qed.

Lemma pair_edges_connector item1 item2 v e :
  (v, e) ∈ pair_edges M item1 item2 →
  joins item1.1 item2.1 v e ∧
  connector (_haversine_distance M (lat item1.2) (lon item1.2)
               (lat item2.2) (lon item2.2)) e.
Proof.
  unfold pair_edges, connector. rewrite !elem_of_app.
  set (d := _haversine_distance M _ _ _ _).
  destruct (Qltb d 10) eqn:E1, (Qltb d 1.5) eqn:E2;
    intros [H|H]; try (by apply elem_of_nil in H);
    apply both_joins in H; destruct H as (? & ? & ? & ? & ?);
    (split; [done |]); (split; [done |]).
  - right; left. split_and!; try done. apply Qltb_lt.
    apply Qltb_lt in E1. lra.
  - by left.
  - right; left. split_and!; try done. apply Qltb_lt.
    apply Qltb_lt in E1. lra.
  - left. by split_and!.
Qed.

Lemma pairs_edges_in l v e :
  (v, e) ∈ pairs_edges M l →
  ∃ item1 item2, item1 ∈ l ∧ item2 ∈ l ∧ (v, e) ∈ pair_edges M item1 item2.
Proof.
  induction l as [|x l IH]; simpl; [by intros ?%elem_of_nil |].
  intros [H|H]%elem_of_app.
  - apply list_elem_of_In, in_flat_map in H as (y & Hy & H).
    exists x, y. split_and!; [left | right; by apply list_elem_of_In |
                             by apply list_elem_of_In].
  - destruct (IH H) as (a & b & ? & ? & ?). exists a, b.
    split_and!; [by right | by right | done].
Qed.

Lemma nearest_in self location k station d :
  (station, d) ∈ _find_nearest_metro_stations M self location k →
  ∃ info la lo,
    dict_get (locations self) location = Some info ∧
    (station, (la, lo)) ∈ metro_stations self ∧
    d = _haversine_distance M (lat info) (lon info) la lo.
Proof.
  unfold _find_nearest_metro_stations.
  destruct (dict_get (locations self) location) as [info|];
    [|by intros ?%elem_of_nil].
  intros H%(subseteq_take k). rewrite sort_by_perm in H.
  apply list_elem_of_fmap in H as ([s [la lo]] & [= -> ->] & Hs).
  by exists info, la, lo.
Qed.

Lemma consecutive_edges_in locs l v e :
  (v, e) ∈ consecutive_edges M locs l →
  ∃ i s1 s2 l1 l2,
    l !! i = Some s1 ∧ l !! S i = Some s2 ∧
    dict_get locs s1 = Some l1 ∧ dict_get locs s2 = Some l2 ∧
    (v, e) ∈ both s1 s2 "metro" 2.5
               (_haversine_distance M (lat l1) (lon l1) (lat l2) (lon l2)) 5.
Proof.
  induction l as [|s1 l IH]; [by intros ?%elem_of_nil |].
  destruct l as [|s2 l]; [by intros ?%elem_of_nil |].
  rewrite consecutive_edges_cons.
  destruct (dict_get locs s1) as [l1|] eqn:H1; [|by intros ?%elem_of_nil].
  destruct (dict_get locs s2) as [l2|] eqn:H2; [|by intros ?%elem_of_nil].
  intros [H|H]%elem_of_app.
  - by exists 0%nat, s1, s2, l1, l2.
  - destruct (IH H) as (i & a & b & la & lb & ? & ? & ? & ? & ?).
    by exists (S i), a, b, la, lb.
Qed.

Lemma consecutive_edges_has locs l i s1 s2 l1 l2 x :
  (∀ s, s ∈ l → is_Some (dict_get locs s)) →
  l !! i = Some s1 → l !! S i = Some s2 →
  dict_get locs s1 = Some l1 → dict_get locs s2 = Some l2 →
  x ∈ both s1 s2 "metro" 2.5
        (_haversine_distance M (lat l1) (lon l1) (lat l2) (lon l2)) 5 →
  x ∈ consecutive_edges M locs l.
Proof.
  revert i. induction l as [|a l IH]; intros i Hl Hi HSi H1 H2 Hx; [done |].
  destruct l as [|b l]; [done |].
  rewrite consecutive_edges_cons.
  destruct (Hl a) as [la Ha]; [left |].
  destruct (Hl b) as [lb Hb]; [right; left |].
  rewrite Ha, Hb. apply elem_of_app. destruct i as [|i].
  - left. simpl in Hi, HSi. by simplify_eq.
  - right. apply (IH i); auto. intros s Hs. apply Hl. by right.
Qed.
End Network.

Lemma dict_get_NoDup {V : Type} (d : pydict V) k v :
  NoDup d.*1 → (k, v) ∈ d → dict_get d k = Some v.
Proof.
  induction d as [|[k' v'] d IH]; [by intros _ ?%elem_of_nil |].
  rewrite fmap_cons. intros [Hk Hd]%NoDup_cons [[= -> ->]|Hin]%elem_of_cons;
    simpl.
  - by rewrite String.eqb_refl.
  - destruct (String.eqb_spec k' k) as [->|Hne]; [|by apply IH].
    destruct Hk. apply list_elem_of_fmap. by exists (k, v).
Qed.

Lemma catalogue_NoDup : NoDup (locations catalogue).*1.
Proof. apply (bool_decide_unpack _). vm_compute. exact I. Qed.

Lemma catalogue_stations :
  Forall (λ x : string * (Q * Q), x.1 ∈ (locations catalogue).*1)
    (metro_stations catalogue).
Proof. apply (bool_decide_unpack _). vm_compute. exact I. Qed.

Lemma station_info i n la lo z :
  metro_data !! i = Some (n, la, lo, z) →
  dict_get (locations catalogue) n
  = Some {| lat := la; lon := lo; type := "metro_station"; zone := z |}.
Proof.
  do 23 (destruct i as [|i]; [by intros [= <- <- <- <-] |]).
  by intros ?.
Qed.

Lemma station_names_lookup i s :
  station_names !! i = Some s →
  ∃ la lo z, metro_data !! i = Some (s, la, lo, z).
Proof.
  unfold station_names. rewrite list_lookup_fmap.
  destruct (metro_data !! i) as [[[[n la] lo] z]|]; [|done].
  intros [= <-]. by exists la, lo, z.
Qed.

Section NetworkShape.
Variable M : MathLib.

Lemma builder_edges_cases v e :
  (v, e) ∈ builder_edges M →
  metro_hop M v e ∨ station_link M v e ∨ direct_link M v e.
Proof.
  unfold builder_edges. intros [H|[H|H]%elem_of_app]%elem_of_app.
  - left. apply consecutive_edges_in in H
      as (i & s1 & s2 & l1 & l2 & Hi & HSi & H1 & H2 & H).
    apply station_names_lookup in Hi as (la1 & lo1 & z1 & Hi).
    apply station_names_lookup in HSi as (la2 & lo2 & z2 & HSi).
    rewrite (station_info _ _ _ _ _ Hi) in H1.
    rewrite (station_info _ _ _ _ _ HSi) in H2.
    injection H1 as <-. injection H2 as <-.
    apply both_joins in H as (? & ? & ? & ? & ?).
    exists i, s1, la1, lo1, z1, s2, la2, lo2, z2. by split_and!.
  - right; left.
    apply list_elem_of_In, in_flat_map in H as ([loc info] & Hitem & H).
    apply list_elem_of_In in Hitem, H.
    unfold location_edges in H. cbn [fst snd] in H.
    destruct (String.eqb_spec (type info) "metro_station") as [|Hty];
      [by apply elem_of_nil in H |].
    apply list_elem_of_In, in_flat_map in H as ([station d] & Hn & H).
    apply list_elem_of_In in Hn, H.
    apply nearest_in in Hn as (info' & la & lo & Hinfo & Hst & ->).
    rewrite (dict_get_NoDup _ _ _ catalogue_NoDup Hitem) in Hinfo.
    injection Hinfo as <-.
    apply station_edges_connector in H as [? ?].
    exists loc, info, station, la, lo. split_and!; try done.
    by apply dict_get_NoDup; [apply catalogue_NoDup |].
  - right; right.
    apply pairs_edges_in in H as (item1 & item2 & H1 & H2 & H).
    apply list_elem_of_filter in H1 as [? ?], H2 as [? ?].
    apply pair_edges_connector in H as [? ?].
    by exists item1, item2.
Qed.

Lemma metro_hop_in i n1 la1 lo1 z1 n2 la2 lo2 z2 x :
  metro_data !! i = Some (n1, la1, lo1, z1) →
  metro_data !! S i = Some (n2, la2, lo2, z2) →
  x ∈ both n1 n2 "metro" 2.5 (_haversine_distance M la1 lo1 la2 lo2) 5 →
  x ∈ builder_edges M.
Proof.
  intros Hi HSi Hx. unfold builder_edges. apply elem_of_app. left.
  eapply (consecutive_edges_has M _ _ i n1 n2).
  - intros s Hs. apply dict_get_key. revert s Hs. apply Forall_forall.
    apply (bool_decide_unpack _). vm_compute. exact I.
  - unfold station_names. by rewrite list_lookup_fmap, Hi.
  - unfold station_names. by rewrite list_lookup_fmap, HSi.
  - by apply (station_info i).
  - by apply (station_info (S i)).
  - done.
Qed.

Lemma joins_keys a b v e :
  a ∈ keys (kochi M) → b ∈ keys (kochi M) → joins a b v e →
  v ∈ keys (kochi M) ∧ destination e ∈ keys (kochi M).
Proof. intros ? ? [[-> ->]|[-> ->]]; done. Qed.

Lemma kochi_keys : keys (kochi M) = (locations catalogue).*1.
Proof. unfold keys. by rewrite kochi_locations. Qed.

Lemma kochi_edge_keys v e :
  has_edge (kochi M) v e →
  v ∈ keys (kochi M) ∧ destination e ∈ keys (kochi M).
Proof.
  intros H%kochi_has_edge%builder_edges_cases.
  destruct H as [H|[H|H]].
  - destruct H as (i & n1 & la1 & lo1 & z1 & n2 & la2 & lo2 & z2
                   & Hi & HSi & Hj & _).
    apply (joins_keys n1 n2); [| |done]; rewrite kochi_keys;
      eapply dict_get_Some_key, station_info; eauto.
  - destruct H as (loc & info & station & la & lo & Hl & _ & Hs & Hj & _).
    apply (joins_keys loc station); [| |done]; rewrite kochi_keys.
    + by eapply dict_get_Some_key.
    + pose proof catalogue_stations as HF.
      rewrite Forall_forall in HF. apply (HF _ Hs).
  - destruct H as (item1 & item2 & H1 & H2 & _ & _ & Hj & _).
    apply (joins_keys item1.1 item2.1); [| |done]; rewrite kochi_keys;
      apply list_elem_of_fmap; eauto.
Qed.

Lemma kochi_wf : graph_wf (kochi M).
Proof.
  intros v es e Hes He. apply (kochi_edge_keys v e).
  exists es. split; assumption.
Qed.
End NetworkShape.

(** ** The network: both directions, and where an edge comes from *)

Lemma paired_nil : paired [].
Proof. by intros v e ?%elem_of_nil. Qed.

Lemma paired_app l1 l2 : paired l1 → paired l2 → paired (l1 ++ l2).
Proof.
  intros H1 H2 v e [?|?]%elem_of_app; apply elem_of_app; [left | right]; auto.
Qed.

Lemma paired_both a b m t d c : paired (both a b m t d c).
Proof.
  unfold both. intros v e H.
  apply elem_of_cons in H as [[= -> ->]|H]; [right; left |].
  apply elem_of_cons in H as [[= -> ->]|H]; [left |].
  by apply elem_of_nil in H.
Qed.

Lemma paired_if (b : bool) l : paired l → paired (if b then l else []).
Proof. destruct b; [done | intros _; apply paired_nil]. Qed.

Lemma paired_flat_map {A : Type} (f : A → list (string * Edge)) (l : list A) :
  (∀ x, x ∈ l → paired (f x)) → paired (flat_map f l).
Proof.
  induction l as [|x l IH]; intros H; simpl; [apply paired_nil |].
  apply paired_app; [apply H; left |].
  apply IH. intros y Hy. apply H. by right.
Qed.

Lemma station_names_NoDup : NoDup station_names.
Proof. apply (bool_decide_unpack _). vm_compute. exact I. Qed.

(** The stations of [metro_stations] are catalogued as stations, with
    the same coordinates. *)
Lemma catalogue_station_type station la lo :
  (station, (la, lo)) ∈ metro_stations catalogue →
  ∃ info, dict_get (locations catalogue) station = Some info ∧
          type info = "metro_station" ∧ lat info = la ∧ lon info = lo.
Proof.
  intros H.
  assert (Forall (λ x : string * (Q * Q),
            ∃ info, dict_get (locations catalogue) x.1 = Some info ∧
                    type info = "metro_station" ∧
                    lat info = x.2.1 ∧ lon info = x.2.2)
            (metro_stations catalogue)) as HF.
  { repeat (constructor; [eexists; split; [reflexivity | by split_and!] |]).
    constructor. }
  rewrite Forall_forall in HF. exact (HF _ H).
Qed.

Lemma places_NoDup : NoDup places.*1.
Proof.
  apply (sublist_NoDup _ (locations catalogue).*1); [apply catalogue_NoDup |].
  apply fmap_sublist, sublist_filter.
Qed.

Lemma places_in item :
  item ∈ places ↔ item ∈ locations catalogue ∧ type item.2 ≠ "metro_station".
Proof.
  unfold places. rewrite list_elem_of_filter. tauto.
Qed.

Section Origins.
Variable M : MathLib.

Lemma consecutive_edges_paired locs l : paired (consecutive_edges M locs l).
Proof.
  induction l as [|s1 l IH]; [apply paired_nil |].
  destruct l as [|s2 l]; [apply paired_nil |].
  rewrite consecutive_edges_cons.
  destruct (dict_get locs s1), (dict_get locs s2); try apply paired_nil.
  apply paired_app; [apply paired_both | exact IH].
Qed.

Lemma station_edges_paired location sd : paired (station_edges location sd).
Proof.
  destruct sd as [station d]. unfold station_edges.
  repeat apply paired_app; apply paired_if, paired_both.
Qed.

Lemma location_edges_paired self item : paired (location_edges M self item).
Proof.
  unfold location_edges.
  destruct (String.eqb (type item.2) "metro_station"); [apply paired_nil |].
  apply paired_flat_map. intros sd _. apply station_edges_paired.
Qed.

Lemma pair_edges_paired item1 item2 : paired (pair_edges M item1 item2).
Proof.
  unfold pair_edges. apply paired_app; apply paired_if, paired_both.
Qed.

Lemma pairs_edges_paired l : paired (pairs_edges M l).
Proof.
  induction l as [|x l IH]; [apply paired_nil |].
  cbn [pairs_edges]. apply paired_app; [|exact IH].
  apply paired_flat_map. intros y _. apply pair_edges_paired.
Qed.

Lemma builder_edges_paired : paired (builder_edges M).
Proof.
  unfold builder_edges. apply paired_app; [|apply paired_app].
  - apply consecutive_edges_paired.
  - apply paired_flat_map. intros item _. apply location_edges_paired.
  - apply pairs_edges_paired.
Qed.

Lemma pairs_edges_origin l v e :
  (v, e) ∈ pairs_edges M l →
  ∃ i j item1 item2,
    (i < j)%nat ∧ l !! i = Some item1 ∧ l !! j = Some item2 ∧
    (v, e) ∈ pair_edges M item1 item2.
Proof.
  induction l as [|x l IH]; cbn [pairs_edges]; [by intros ?%elem_of_nil |].
  intros [H|H]%elem_of_app.
  - apply list_elem_of_In, in_flat_map in H as (y & Hy & H).
    apply list_elem_of_In in Hy, H.
    apply list_elem_of_lookup in Hy as [j Hj].
    exists 0%nat, (S j), x, y. split_and!; [lia | done | done | done].
  - destruct (IH H) as (i & j & a & b & ? & ? & ? & ?).
    exists (S i), (S j), a, b. split_and!; [lia | done | done | done].
Qed.

Lemma pairs_edges_member l : ∀ i j item1 item2 x,
  (i < j)%nat → l !! i = Some item1 → l !! j = Some item2 →
  x ∈ pair_edges M item1 item2 → x ∈ pairs_edges M l.
Proof.
  induction l as [|y l IH]; intros i j item1 item2 x Hij Hi Hj Hx; [done |].
  cbn [pairs_edges]. apply elem_of_app.
  destruct j as [|j]; [lia |]. destruct i as [|i].
  - left. injection Hi as ->. cbn in Hj.
    apply list_elem_of_In, in_flat_map. exists item2.
    split; apply list_elem_of_In; [by eapply list_elem_of_lookup_2 | done].
  - right. apply (IH i j item1 item2); [lia | done | done | done].
Qed.

(** Where an edge of the network comes from: the metro line, a link
    between a place and one of its three nearest stations, or a link
    between two places. *)
Lemma builder_edges_origin v e :
  (v, e) ∈ builder_edges M ↔
  (v, e) ∈ consecutive_edges M (locations catalogue) station_names ∨
  (∃ loc info sd,
     (loc, info) ∈ places ∧
     sd ∈ _find_nearest_metro_stations M catalogue loc 3 ∧
     (v, e) ∈ station_edges loc sd) ∨
  (∃ i j item1 item2,
     (i < j)%nat ∧ places !! i = Some item1 ∧ places !! j = Some item2 ∧
     (v, e) ∈ pair_edges M item1 item2).
Proof.
  unfold builder_edges. fold places. rewrite !elem_of_app. split.
  - intros [H|[H|H]]; [by left | right; left | right; right].
    + apply list_elem_of_In, in_flat_map in H as ([loc info] & Hitem & H).
      apply list_elem_of_In in Hitem, H.
      unfold location_edges in H. cbn [fst snd] in H.
      destruct (String.eqb_spec (type info) "metro_station") as [|Hty];
        [by apply elem_of_nil in H |].
      apply list_elem_of_In, in_flat_map in H as (sd & Hn & H).
      apply list_elem_of_In in Hn, H.
      exists loc, info, sd. split_and!; [|done|done].
      apply places_in. by split.
    + by apply pairs_edges_origin.
  - intros [H|[H|H]]; [by left | right; left | right; right].
    + destruct H as (loc & info & sd & [Hitem Hty]%places_in & Hn & H).
      apply list_elem_of_In, in_flat_map. exists (loc, info).
      split; [by apply list_elem_of_In |]. apply list_elem_of_In.
      unfold location_edges. cbn [fst snd] in *.
      destruct (String.eqb_spec (type info) "metro_station") as [|_];
        [done |].
      apply list_elem_of_In, in_flat_map. exists sd.
      split; by apply list_elem_of_In.
    + destruct H as (i & j & item1 & item2 & ? & ? & ? & ?).
      by apply (pairs_edges_member _ i j item1 item2).
Qed.

Lemma metro_stations_kochi : metro_stations (kochi M) = metro_stations catalogue.
Proof. rewrite kochi_eq. apply add_all_metro_stations. Qed.

Lemma nearest_kochi location k :
  _find_nearest_metro_stations M (kochi M) location k
  = _find_nearest_metro_stations M catalogue location k.
Proof.
  apply nearest_same; [apply kochi_locations | apply metro_stations_kochi].
Qed.

Lemma is_station_kochi name :
  is_station (kochi M) name ↔ is_station catalogue name.
Proof. unfold is_station. by rewrite kochi_locations. Qed.

Lemma place_not_station loc info :
  (loc, info) ∈ places → ¬ is_station catalogue loc.
Proof.
  intros [Hitem Hty]%places_in (info' & Hget & Hty').
  rewrite (dict_get_NoDup _ _ _ catalogue_NoDup Hitem) in Hget.
  injection Hget as <-. done.
Qed.

Lemma nearest_station self location k station d :
  (station, d) ∈ _find_nearest_metro_stations M self location k →
  ∃ la lo, (station, (la, lo)) ∈ metro_stations self.
Proof. intros (info & la & lo & _ & ? & _)%nearest_in. eauto. Qed.

Lemma nearest_is_station location k station d :
  (station, d) ∈ _find_nearest_metro_stations M catalogue location k →
  is_station catalogue station.
Proof.
  intros (la & lo & H)%nearest_station.
  destruct (catalogue_station_type _ _ _ H) as (info & ? & ? & _).
  by exists info.
Qed.

Lemma metro_hop_stations v e :
  metro_hop M v e →
  is_station catalogue v ∧ is_station catalogue (destination e) ∧
  v ≠ destination e.
Proof.
  intros (i & n1 & la1 & lo1 & z1 & n2 & la2 & lo2 & z2
          & Hi & HSi & Hj & _).
  assert (is_station catalogue n1) as H1.
  { eexists. split; [exact (station_info _ _ _ _ _ Hi) | done]. }
  assert (is_station catalogue n2) as H2.
  { eexists. split; [exact (station_info _ _ _ _ _ HSi) | done]. }
  assert (n1 ≠ n2) as Hne.
  { intros <-.
    assert (i = S i); [|lia].
    apply (NoDup_lookup station_names i (S i) n1 station_names_NoDup);
      unfold station_names; rewrite list_lookup_fmap.
    - by rewrite Hi.
    - by rewrite HSi. }
  destruct Hj as [[-> ->]|[-> ->]]; split_and!; auto.
Qed.

Lemma consecutive_metro_hop v e :
  (v, e) ∈ consecutive_edges M (locations catalogue) station_names →
  metro_hop M v e.
Proof.
  intros H.
  assert ((v, e) ∈ builder_edges M) as Hb.
  { apply builder_edges_origin. by left. }
  apply consecutive_edges_in in H
    as (i & s1 & s2 & l1 & l2 & _ & _ & _ & _ & H).
  apply both_joins in H as (_ & Hm & _).
  destruct (builder_edges_cases M v e Hb) as [?|[Hc|Hc]]; [done | |].
  - destruct Hc as (? & ? & ? & ? & ? & _ & _ & _ & _ & _ & Hc).
    destruct Hc as [[Hm' _]|[[Hm' _]|[Hm' _]]]; congruence.
  - destruct Hc as (? & ? & _ & _ & _ & _ & _ & _ & Hc).
    destruct Hc as [[Hm' _]|[[Hm' _]|[Hm' _]]]; congruence.
Qed.
End Origins.

(** ** Rounding *)

Lemma round_half_even_err (y : Q) :
  (Qabs (inject_Z (round_half_even y) - y) <= 1 # 2)%Q.
Proof.
  unfold round_half_even.
  pose proof (Qfloor_le y) as Hlo. pose proof (Qlt_floor y) as Hhi.
  set (f := Qfloor y) in *.
  assert (inject_Z (f + 1) == inject_Z f + 1)%Q as Hf1
    by (rewrite inject_Z_plus; reflexivity).
  rewrite Hf1 in Hhi.
  assert (Qabs (inject_Z f - y) <= 1 # 2 ↔ y - inject_Z f <= 1 # 2)%Q as Ha.
  { rewrite Qabs_Qle_condition. split; [intros [? ?]|intros ?; split]; lra. }
  assert (Qabs (inject_Z (f + 1) - y) <= 1 # 2 ↔ 1 # 2 <= y - inject_Z f)%Q
    as Hb.
  { rewrite Qabs_Qle_condition, Hf1.
    split; [intros [? ?]|intros ?; split]; lra. }
  destruct (y - inject_Z f ?= 1 # 2)%Q eqn:E.
  - apply Qeq_alt in E. destruct (Z.even f); [apply Ha | apply Hb]; lra.
  - apply Qlt_alt in E. apply Ha. lra.
  - apply Qgt_alt in E. apply Hb. lra.
Qed.

Lemma pow10_pos n : (0 < pow10 n)%Q.
Proof.
  unfold pow10. change 0%Q with (inject_Z 0). rewrite <- Zlt_Qlt.
  apply Z.pow_pos_nonneg; lia.
Qed.

(** [round(x, d)] is within half a unit of the last place of [x]. *)
Lemma round_q_err x d : (Qabs (round_q x d - x) <= (1 # 2) / pow10 d)%Q.
Proof.
  unfold round_q. pose proof (pow10_pos d) as Hp.
  pose proof (round_half_even_err (x * pow10 d)) as H.
  set (r := inject_Z (round_half_even (x * pow10 d))) in *.
  apply Qabs_Qle_condition in H as [H1 H2].
  apply Qabs_Qle_condition.
  assert (r / pow10 d - x == (r - x * pow10 d) / pow10 d)%Q as -> by (field; lra).
  split.
  - apply Qle_shift_div_l; [done |].
    assert (- ((1 # 2) / pow10 d) * pow10 d == - (1 # 2))%Q as -> by (field; lra).
    done.
  - apply Qle_shift_div_r; [done |].
    assert ((1 # 2) / pow10 d * pow10 d == 1 # 2)%Q as -> by (field; lra).
    done.
Qed.

(** Sum of the rounded edges against the rounded sum. *)
Lemma rounded_sum_err (f : Edge → Q) (g : Step → Q) d h ss es t :
  ((1 # 2) / pow10 d == h)%Q →
  Forall2 (λ s e, g s = round_q (f e) d) ss es →
  (t == Qsum (f <$> es))%Q →
  (Qabs (Qsum (g <$> ss) - round_q t d)
   <= h * inject_Z (Z.of_nat (S (length ss))))%Q.
Proof.
  intros Hh Hall Ht.
  assert (Qabs (Qsum (g <$> ss) - Qsum (f <$> es))
          <= h * inject_Z (Z.of_nat (length ss)))%Q as Hsum.
  { clear Ht. induction Hall as [|s e ss es Hs Hall IH].
    - rewrite Qmult_0_r. by vm_compute.
    - cbn [fmap list_fmap Qsum foldr length].
      fold (Qsum (g <$> ss)). fold (Qsum (f <$> es)).
      rewrite Nat2Z.inj_succ, <- Z.add_1_r, inject_Z_plus.
      pose proof (round_q_err (f e) d) as He. rewrite Hh, <- Hs in He.
      apply Qabs_Qle_condition in He as [? ?], IH as [? ?].
      apply Qabs_Qle_condition. change (inject_Z 1) with 1%Q.
      rewrite Qmult_plus_distr_r, Qmult_1_r.
      set (n := (h * inject_Z (Z.of_nat (length ss)))%Q) in *.
      split; lra. }
  pose proof (round_q_err t d) as He. rewrite Hh in He.
  rewrite Nat2Z.inj_succ, <- Z.add_1_r, inject_Z_plus.
  change (inject_Z 1) with 1%Q.
  rewrite Qmult_plus_distr_r, Qmult_1_r.
  set (n := (h * inject_Z (Z.of_nat (length ss)))%Q) in *.
  apply Qabs_Qle_condition in He as [? ?], Hsum as [? ?].
  apply Qabs_Qle_condition. split; lra.
Qed.

(** ** The result of a query on the built network *)

Opaque kochi catalogue builder_edges.

Lemma remove_duplicates_nil l : remove_duplicates [] l = [] → l = [].
Proof. by destruct l. Qed.

Lemma ranked_nil l : ranked l = [] → l = [].
Proof.
  intros H. apply remove_duplicates_nil.
  apply Permutation_nil_r. rewrite <- H. symmetry. apply sort_by_perm.
Qed.

Lemma ranked_in l r : r ∈ ranked l ↔ r ∈ remove_duplicates [] l.
Proof. unfold ranked. by rewrite sort_by_perm. Qed.

Lemma ranked_in_all l r : r ∈ ranked l → r ∈ l.
Proof.
  intros H%ranked_in.
  exact (elem_of_sublist _ _ _ H (remove_duplicates_sublist _ _)).
Qed.

(** ** Validation *)

Lemma find_invalid (self : Optimizer) (start_location end_location : string) :
  (start_location ∉ keys self →
   find_optimized_routes self start_location end_location
   = Ok [ErrorDict (msg_start_not_found start_location)]) ∧
  (start_location ∈ keys self → end_location ∉ keys self →
   find_optimized_routes self start_location end_location
   = Ok [ErrorDict (msg_end_not_found end_location)]) ∧
  (start_location ∈ keys self → end_location ∈ keys self →
   start_location = end_location →
   find_optimized_routes self start_location end_location
   = Ok [ErrorDict msg_same]).
Proof.
  unfold find_optimized_routes. split_and!.
  - intros Hs. destruct (dict_mem _ start_location) eqn:E; [|reflexivity].
    exfalso. by apply dict_mem_key in E.
  - intros Hs He. rewrite (proj2 (dict_mem_key _ _) Hs). cbn [negb].
    destruct (dict_mem _ end_location) eqn:E; [|reflexivity].
    exfalso. by apply dict_mem_key in E.
  - intros Hs He Heq.
    rewrite (proj2 (dict_mem_key _ _) Hs), (proj2 (dict_mem_key _ _) He).
    cbn [negb]. by rewrite (proj2 (String.eqb_eq _ _) Heq).
Qed.

Lemma find_valid_ranked self start_location end_location :
  graph_wf self →
  start_location ∈ keys self → end_location ∈ keys self →
  start_location ≠ end_location →
  ∃ all_routes,
    collected self start_location end_location strategies all_routes ∧
    find_optimized_routes self start_location end_location
    = Ok (match ranked all_routes with
          | [] => [ErrorDict (msg_no_route start_location end_location)]
          | r :: rs => RouteDict <$> r :: rs
          end).
Proof. intros. by apply find_valid. Qed.

Opaque find_optimized_routes.

Section Query.
Variable M : MathLib.
Variables (start_location end_location : string).

(** Every query returns: a single error entry, or the routes
    gathered by the loop over the strategies, without duplicates and
    ranked. *)
Lemma find_shape :
  ∃ res all_routes,
    find_optimized_routes (kochi M) start_location end_location = Ok res ∧
    ((all_routes = [] ∧ ∃ msg, res = [ErrorDict msg]) ∨
     (all_routes ≠ [] ∧ res = RouteDict <$> ranked all_routes ∧
      start_location ∈ keys (kochi M) ∧
      end_location ∈ keys (kochi M) ∧
      start_location ≠ end_location ∧
      collected (kochi M) start_location end_location strategies
        all_routes)).
Proof.
  destruct (find_invalid (kochi M) start_location end_location)
    as (H1 & H2 & H3).
  destruct (decide (start_location ∈ keys (kochi M))) as [Hs|Hs].
  2:{ eexists _, []. split; [exact (H1 Hs) |]. left. split; [reflexivity | eexists; reflexivity]. }
  destruct (decide (end_location ∈ keys (kochi M))) as [He|He].
  2:{ eexists _, []. split; [exact (H2 Hs He) |]. left. split; [reflexivity | eexists; reflexivity]. }
  destruct (decide (start_location = end_location)) as [Heq|Hne].
  { eexists _, []. split; [exact (H3 Hs He Heq) |]. left. split; [reflexivity | eexists; reflexivity]. }
  clear H1 H2 H3.
  destruct (find_valid_ranked (kochi M) start_location end_location
              (kochi_wf M) Hs He Hne) as (all_routes & Hcol & Hfind).
  destruct (ranked all_routes) as [|r routes] eqn:E.
  - apply ranked_nil in E. subst all_routes.
    eexists _, []. split; [exact Hfind |]. left. split; [reflexivity | eexists; reflexivity].
  - eexists _, all_routes. split; [exact Hfind |]. clear Hfind.
    right. split_and!; auto.
    + intros ->. discriminate E.
    + by rewrite E.
Qed.

Lemma shape_lookup (res : list result_item) all_routes :
  (all_routes = [] ∧ ∃ msg, res = [ErrorDict msg]) ∨
  (all_routes ≠ [] ∧ res = RouteDict <$> ranked all_routes) →
  ∀ i r, res !! i = Some (RouteDict r) ↔ ranked all_routes !! i = Some r.
Proof.
  intros [[-> [msg ->]]|[_ ->]] i r.
  - by destruct i.
  - rewrite list_lookup_fmap. destruct (ranked all_routes !! i); naive_solver.
Qed.

(** Every route of a result was built for one of the strategies. *)
Lemma find_routes_ok :
  ∃ res : list result_item,
    find_optimized_routes (kochi M) start_location end_location = Ok res ∧
    ∀ r : Route, RouteDict r ∈ res →
      ∃ s : Strategy, s ∈ strategies ∧
        route_ok (kochi M) start_location end_location s r.
Proof.
  pose proof find_shape as (res & all & Hres & Hall).
  exists res. split; [exact Hres |]. clear Hres.
  destruct Hall as [[_ [msg ->]]|(_ & -> & _ & _ & _ & Hcol)].
  - intros r [[=]|?%elem_of_nil]%elem_of_cons. done.
  - intros r (r' & [= <-] & Hr)%list_elem_of_fmap.
    apply ranked_in_all in Hr.
    destruct (collected_route_ok _ _ _ _ _ _ Hcol Hr) as (s & ? & _ & ?).
    by exists s.
Qed.
End Query.

(** ** One relaxation, in binary64 *)

Section Relaxation.
Import Binary64.

(** The relaxation, with its intermediate values named. *)
Lemma relax64_eq cw tw conv vis current st pq edge :
  relax cw tw conv vis current (st, pq) edge
  = if bool_decide (destination edge ∈ vis) then Ok (st, pq)
    else
      cost_cur ← getitem (costs st) current;
      time_cur ← getitem (times st) current;
      dist_cur ← getitem (distances_km st) current;
      transfers_cur ← getitem (transfers st) current;
      info_cur ← getitem (edge_info st) current;
      let new_cost := add cost_cur (cost edge) in
      let new_time := add time_cur (time edge) in
      let new_distance := add dist_cur (distance edge) in
      let new_transfers := transfers_after transfers_cur info_cur edge in
      norm_transfers ← norm_transfers_of new_transfers;
      let composite :=
        composite_of cw tw conv new_cost new_time norm_transfers
          (mode_changed info_cur edge) edge in
      best ← getitem (distances st) (destination edge);
      if lt composite best then
        Ok (record_reached st (destination edge) current edge composite
              new_cost new_time new_distance new_transfers,
            heappush pq (composite, destination edge))
      else Ok (st, pq).
Proof. reflexivity. Qed.

(** On a value that is not negative and not a NaN, [x / d if x > 0
    else 0] is [x / d], or 0 if [x] is 0. *)
Lemma norm_spec x d :
  le zero x = true →
  (if gt x zero then div x d else zero) = spec_norm x d.
Proof.
  unfold le, gt, lt, spec_norm, zero.
  destruct x as [s|s| |s m e]; try destruct s; try discriminate;
    reflexivity.
Qed.

Lemma norm_count_spec n :
  (0 ≤ n)%Z → norm_transfers_of n = spec_norm_count n (literal 5).
Proof.
  intros Hn. unfold norm_transfers_of, spec_norm_count.
  destruct (Z.ltb_spec 0 n), (Z.eqb_spec n 0); try reflexivity; lia.
Qed.

Lemma mode_changed_spec arrived_by edge :
  (∀ e0, arrived_by = Some e0 → mode e0 ≠ EmptyString) →
  mode_changed arrived_by edge = spec_mode_differs arrived_by edge.
Proof.
  intros Hmode. unfold mode_changed, spec_mode_differs.
  destruct arrived_by as [e0|]; [|done]. simpl.
  specialize (Hmode e0 eq_refl). by destruct (mode e0).
Qed.

(** C1.  In binary64 arithmetic, a relaxation that is not skipped
    computes the composite score of the specification from the
    accumulated cost, time and transfers, and records it for the
    neighbour, with the accumulated values, the predecessor and the
    edge, exactly when it is strictly smaller than the score recorded
    so far; otherwise it leaves the state and the heap as they are.
    It raises only if the transfer count is too large to convert to
    a float. *)
Theorem C1_relaxation (cw tw conv : float) (visited : list string)
    (current : string) (st : SearchState) (pq : heap) (edge : Edge)
    (cc ct cd : float) (tr : Z) (arrived_by : option Edge) (best : float) :
  destination edge ∉ visited →
  costs st !! current = Some cc →
  times st !! current = Some ct →
  distances_km st !! current = Some cd →
  transfers st !! current = Some tr →
  edge_info st !! current = Some arrived_by →
  distances st !! destination edge = Some best →
  (∀ e0, arrived_by = Some e0 → mode e0 ≠ EmptyString) →
  le zero (add cc (cost edge)) = true →
  le zero (add ct (time edge)) = true → (0 ≤ tr)%Z →
  relax cw tw conv visited current (st, pq) edge
  = composite ←
      spec_composite cw tw conv (add cc (cost edge)) (add ct (time edge))
        (spec_transfers tr arrived_by edge) arrived_by edge;
    Ok (if lt composite best then
          ({| distances := <[destination edge := composite]> (distances st);
              costs := <[destination edge := add cc (cost edge)]> (costs st);
              times := <[destination edge := add ct (time edge)]> (times st);
              distances_km :=
                <[destination edge := add cd (distance edge)]>
                  (distances_km st);
              transfers :=
                <[destination edge := spec_transfers tr arrived_by edge]>
                  (transfers st);
              previous := <[destination edge := Some current]> (previous st);
              edge_info := <[destination edge := Some edge]> (edge_info st) |},
           (composite, destination edge) :: pq)
        else (st, pq)).
Proof.
  intros Hnb Hc Ht Hd Htr Hei Hbest Hmode Hc0 Ht0 Htr0.
  rewrite relax64_eq, bool_decide_eq_false_2 by done.
  rewrite (getitem_Some _ _ _ Hc), (getitem_Some _ _ _ Ht),
    (getitem_Some _ _ _ Hd), (getitem_Some _ _ _ Htr),
    (getitem_Some _ _ _ Hei). cbn [mbind exc_bind]. cbv zeta.
  assert (transfers_after tr arrived_by edge
          = spec_transfers tr arrived_by edge) as ->.
  { unfold transfers_after, spec_transfers.
    by rewrite mode_changed_spec. }
  assert (0 ≤ spec_transfers tr arrived_by edge)%Z as Hn.
  { unfold spec_transfers. destruct (spec_mode_differs _ _); lia. }
  rewrite (norm_count_spec _ Hn). unfold spec_composite.
  destruct (spec_norm_count _ _) as [ntr|err]; [|reflexivity].
  cbn [mbind exc_bind]. rewrite (getitem_Some _ _ _ Hbest).
  cbn [mbind exc_bind]. unfold composite_of. cbv zeta.
  rewrite (norm_spec _ _ Hc0), (norm_spec _ _ Ht0),
    (mode_changed_spec _ _ Hmode).
  unfold gt at 1. unfold record_reached, heappush.
  by destruct (lt _ best).
Qed.
End Relaxation.

(** * The claims *)

(** C9.  Validation order: an unknown start is reported first, whatever
    the end is; an unknown end second; identical endpoints only when
    both are known. *)
Theorem C9_validation_order (M : MathLib) (start_location end_location : string) :
  (start_location ∉ keys (kochi M) →
   find_optimized_routes (kochi M) start_location end_location
   = Ok [ErrorDict (msg_start_not_found start_location)]) ∧
  (start_location ∈ keys (kochi M) → end_location ∉ keys (kochi M) →
   find_optimized_routes (kochi M) start_location end_location
   = Ok [ErrorDict (msg_end_not_found end_location)]) ∧
  (start_location ∈ keys (kochi M) → end_location ∈ keys (kochi M) →
   start_location = end_location →
   find_optimized_routes (kochi M) start_location end_location
   = Ok [ErrorDict msg_same]).
Proof. apply find_invalid. Qed.

(** C2.  A query always returns.  It returns an error entry exactly
    when an endpoint is unknown, when the endpoints are identical, or
    when none of the four strategies reaches the destination; otherwise
    it returns a non-empty list of routes.  When validation fails the
    answer is the same for every graph over the same catalogue, also
    for one on which a search would raise. *)
Theorem C2_errors (M : MathLib) (start_location end_location : string) :
  ∃ res,
    find_optimized_routes (kochi M) start_location end_location = Ok res ∧
    (((start_location ∉ keys (kochi M)) ∧
      res = [ErrorDict (msg_start_not_found start_location)]) ∨
     (start_location ∈ keys (kochi M) ∧ (end_location ∉ keys (kochi M)) ∧
      res = [ErrorDict (msg_end_not_found end_location)]) ∨
     (start_location ∈ keys (kochi M) ∧ end_location ∈ keys (kochi M) ∧
      start_location = end_location ∧ res = [ErrorDict msg_same]) ∨
     (start_location ∈ keys (kochi M) ∧ end_location ∈ keys (kochi M) ∧
      start_location ≠ end_location ∧
      (∀ s, s ∈ strategies →
            ¬ reaches (kochi M) start_location end_location s) ∧
      res = [ErrorDict (msg_no_route start_location end_location)]) ∨
     (start_location ∈ keys (kochi M) ∧ end_location ∈ keys (kochi M) ∧
      start_location ≠ end_location ∧
      (∃ s, s ∈ strategies ∧
            reaches (kochi M) start_location end_location s) ∧
      ∃ r routes, res = RouteDict <$> r :: routes)) ∧
    ∀ other : Optimizer,
      locations other = locations (kochi M) →
      (start_location ∉ keys (kochi M)) ∨ (end_location ∉ keys (kochi M)) ∨
      start_location = end_location →
      find_optimized_routes other start_location end_location = Ok res.
Proof.
  destruct (find_invalid (kochi M) start_location end_location)
    as (H1 & H2 & H3).
  assert (∀ other res,
            locations other = locations (kochi M) →
            (start_location ∉ keys (kochi M)) ∨
            (end_location ∉ keys (kochi M)) ∨
            start_location = end_location →
            find_optimized_routes (kochi M) start_location end_location
            = Ok res →
            find_optimized_routes other start_location end_location = Ok res)
    as Hother.
  { intros other res HL Hbad <-.
    destruct (find_invalid other start_location end_location)
      as (G1 & G2 & G3).
    unfold keys in *. rewrite HL in G1, G2, G3.
    destruct (decide (start_location ∈ (locations (kochi M)).*1)) as [Hs|Hs];
      [|by rewrite G1, H1].
    destruct (decide (end_location ∈ (locations (kochi M)).*1)) as [He|He];
      [|by rewrite G2, H2].
    destruct Hbad as [?|[?|Heq]]; [contradiction | contradiction |].
    by rewrite G3, H3. }
  destruct (decide (start_location ∈ keys (kochi M))) as [Hs|Hs].
  2:{ eexists. split; [exact (H1 Hs) |]. split; [left; by split |].
      intros other HL Hbad. apply Hother; auto. }
  destruct (decide (end_location ∈ keys (kochi M))) as [He|He].
  2:{ eexists. split; [exact (H2 Hs He) |].
      split; [right; left; by split_and! |].
      intros other HL Hbad. apply Hother; auto. }
  destruct (decide (start_location = end_location)) as [Heq|Hne].
  { eexists. split; [exact (H3 Hs He Heq) |].
    split; [right; right; left; by split_and! |].
    intros other HL Hbad. apply Hother; auto. }
  clear H1 H2 H3 Hother.
  destruct (find_valid_ranked (kochi M) start_location end_location
              (kochi_wf M) Hs He Hne) as (all_routes & Hcol & Hfind).
  eexists. split; [exact Hfind |]. clear Hfind. split.
  - destruct (ranked all_routes) as [|r routes] eqn:E.
    + right; right; right; left. split_and!; try done.
      apply ranked_nil in E. by apply (collected_nil_iff _ _ _ _ _ Hcol).
    + right; right; right; right. split_and!; try done; [|by exists r, routes].
      destruct all_routes as [|r0 all_routes]; [done |].
      destruct (collected_route_ok _ _ _ _ _ r0 Hcol) as (s & ? & ? & _);
        [left |]. by exists s.
  - intros other HL [?|[?|?]]; contradiction.
Qed.

(** C4.  In every route of a result the first step is the start, with
    mode "start" and zero cost, time and distance, and the last step is
    the end. *)
Theorem C4_endpoints (M : MathLib) (start_location end_location : string) :
  ∃ res,
    find_optimized_routes (kochi M) start_location end_location = Ok res ∧
    ∀ r, RouteDict r ∈ res →
      ∃ s0 ss,
        path r = s0 :: ss ∧
        location s0 = start_location ∧
        location <$> last (path r) = Some end_location ∧
        step_mode s0 = "start" ∧
        segment_cost s0 = 0%Q ∧ segment_time s0 = 0%Q ∧
        segment_distance s0 = 0%Q.
Proof.
  destruct (find_routes_ok M start_location end_location) as (res & Hres & Hok).
  exists res. split; [exact Hres |]. clear Hres. intros r Hr.
  destruct (Hok r Hr) as (s & _ & [_ Hshape]).
  destruct Hshape as (s0 & ss & es & Hp & _ & ? & ? & ? & ? & ? & ? & _).
  exists s0, ss. by split_and!.
Qed.

(** C10.  A result that is not an error holds between one and four
    routes, labelled with distinct names among those of the four
    strategies. *)
Theorem C10_route_count (M : MathLib) (start_location end_location : string) :
  ∃ res,
    find_optimized_routes (kochi M) start_location end_location = Ok res ∧
    ((∃ msg, res = [ErrorDict msg]) ∨
     (∃ routes,
        res = RouteDict <$> routes ∧
        (1 ≤ length routes ≤ 4)%nat ∧
        NoDup (strategy <$> routes) ∧
        ∀ r, r ∈ routes →
          strategy r ∈ ["Cheapest"; "Fastest"; "Balanced"; "Most Convenient"])).
Proof.
  destruct (find_shape M start_location end_location)
    as (res & all & Hres & Hall).
  exists res. split; [exact Hres |]. clear Hres.
  destruct Hall as [[_ ?]|(Hne & -> & _ & _ & _ & Hcol)]; [by left |].
  right. exists (ranked all).
  pose proof (collected_names _ _ _ _ _ Hcol) as Hnames.
  pose proof (collected_length _ _ _ _ _ Hcol) as Hlen.
  assert (ranked all ≡ₚ remove_duplicates [] all) as Hperm
    by apply sort_by_perm.
  pose proof (remove_duplicates_sublist [] all) as Hsub.
  split_and!.
  - done.
  - destruct (ranked all) eqn:E; [by apply ranked_nil in E |]. simpl. lia.
  - rewrite Hperm. apply sublist_length in Hsub. simpl in Hlen. lia.
  - rewrite Hperm.
    apply (sublist_NoDup _ (strategy <$> all)); [|by apply fmap_sublist].
    apply (sublist_NoDup _ (strat_name <$> strategies)); [|exact Hnames].
    apply (bool_decide_unpack _). by vm_compute.
  - intros r Hr%ranked_in_all.
    assert (strategy r ∈ strat_name <$> strategies) as H; [|exact H].
    eapply elem_of_sublist; [|exact Hnames].
    apply list_elem_of_fmap. by exists r.
Qed.


(** C6.  Consecutive routes of a result are in ascending order of
    [0.6 * total_cost + 0.4 * total_time]. *)
Theorem C6_ranking (M : MathLib) (start_location end_location : string) :
  ∃ res,
    find_optimized_routes (kochi M) start_location end_location = Ok res ∧
    ∀ i r1 r2,
      res !! i = Some (RouteDict r1) → res !! S i = Some (RouteDict r2) →
      (0.6 * total_cost r1 + 0.4 * total_time r1
       <= 0.6 * total_cost r2 + 0.4 * total_time r2)%Q.
Proof.
  destruct (find_shape M start_location end_location)
    as (res & all & Hres & Hall).
  exists res. split; [exact Hres |]. clear Hres.
  assert (∀ i r, res !! i = Some (RouteDict r) ↔ ranked all !! i = Some r)
    as Hlook.
  { apply shape_lookup. destruct Hall as [[? ?]|(? & ? & _)]; auto. }
  intros i r1 r2 H1%Hlook H2%Hlook.
  pose proof (sort_by_ascending rank_key (remove_duplicates [] all) i r1 r2 H1 H2)
    as H.
  unfold rank_key in H. lra.
Qed.

(** C3, amended.  In every route of a result, the sum of the steps'
    costs is within 0.005 per step of the total cost, the sum of their
    distances within 0.005 per step of the total distance, and the sum
    of their times within 0.05 per step of the total time. *)
Theorem C3_totals_amended (M : MathLib) (start_location end_location : string) :
  ∃ res,
    find_optimized_routes (kochi M) start_location end_location = Ok res ∧
    ∀ r, RouteDict r ∈ res →
      let n := inject_Z (Z.of_nat (length (path r))) in
      (Qabs (Qsum (segment_cost <$> path r) - total_cost r) <= 0.005 * n ∧
       Qabs (Qsum (segment_time <$> path r) - total_time r) <= 0.05 * n ∧
       Qabs (Qsum (segment_distance <$> path r) - total_distance r)
       <= 0.005 * n)%Q.
Proof.
  destruct (find_routes_ok M start_location end_location) as (res & Hres & Hok).
  exists res. split; [exact Hres |]. clear Hres. intros r Hr.
  destruct (Hok r Hr) as (s & _ & [_ Hshape]).
  destruct Hshape as (s0 & ss & es & -> & _ & _ & _ & Ht0 & Hc0 & Hd0 & _ & Hall
                      & (tc & -> & Hc) & (tt & -> & Ht) & (td & -> & Hd)).
  cbn [fmap list_fmap Qsum foldr length].
  fold (Qsum (segment_cost <$> ss)). fold (Qsum (segment_time <$> ss)).
  fold (Qsum (segment_distance <$> ss)). rewrite Ht0, Hc0, Hd0.
  split_and!.
  - pose proof (rounded_sum_err cost segment_cost 2 0.005 ss es tc) as H.
    rewrite Qplus_0_l. apply H; [reflexivity | | done].
    eapply Forall2_impl; [exact Hall |]. by intros ? ? (_ & _ & _ & ? & _).
  - pose proof (rounded_sum_err time segment_time 1 0.05 ss es tt) as H.
    rewrite Qplus_0_l. apply H; [reflexivity | | done].
    eapply Forall2_impl; [exact Hall |]. by intros ? ? (_ & _ & ? & _).
  - pose proof (rounded_sum_err distance segment_distance 2 0.005 ss es td) as H.
    rewrite Qplus_0_l. apply H; [reflexivity | | done].
    eapply Forall2_impl; [exact Hall |]. by intros ? ? (_ & _ & _ & _ & ?).
Qed.

(** C7.  Consecutive stations of the metro line are joined in both
    directions by a metro edge of cost 5, time 2.5 and the haversine
    distance of their coordinates, and every metro edge of the network
    is one of these. *)
Theorem C7_metro_edges (M : MathLib) :
  (∀ i n1 la1 lo1 z1 n2 la2 lo2 z2,
     metro_data !! i = Some (n1, la1, lo1, z1) →
     metro_data !! S i = Some (n2, la2, lo2, z2) →
     let d := _haversine_distance M la1 lo1 la2 lo2 in
     has_edge (kochi M) n1
       {| destination := n2; mode := "metro"; time := 2.5; distance := d;
          cost := 5 |} ∧
     has_edge (kochi M) n2
       {| destination := n1; mode := "metro"; time := 2.5; distance := d;
          cost := 5 |}) ∧
  (∀ v e, has_edge (kochi M) v e → mode e = "metro" → metro_hop M v e).
Proof.
  split.
  - intros i n1 la1 lo1 z1 n2 la2 lo2 z2 Hi HSi d.
    split; apply kochi_has_edge;
      apply (metro_hop_in M i n1 la1 lo1 z1 n2 la2 lo2 z2 _ Hi HSi);
      unfold both.
    + left.
    + right; left.
  - intros v e He%kochi_has_edge%builder_edges_cases Hm.
    destruct He as [?|[He|He]]; [done | |].
    + destruct He as (? & ? & ? & ? & ? & _ & _ & _ & _ & _ & Hc).
      destruct Hc as [[Hm' _]|[[Hm' _]|[Hm' _]]]; congruence.
    + destruct He as (? & ? & _ & _ & _ & _ & _ & _ & Hc).
      destruct Hc as [[Hm' _]|[[Hm' _]|[Hm' _]]]; congruence.
Qed.

(** ** Concrete queries under the reference math library *)

Lemma kochi_ref_eq : kochi ref_math = kochi_ref.
Proof. vm_cast_no_check (eq_refl kochi_ref). Qed.

(** The only route from Aluva to Pulinchodu. *)
Lemma aluva_pulinchodu_route :
  ∃ r s0 s1,
    find_optimized_routes (kochi ref_math) "Aluva Metro" "Pulinchodu Metro"
    = Ok [RouteDict r] ∧
    path r = [s0; s1] ∧ strategy r = "Cheapest" ∧
    location s0 = "Aluva Metro" ∧ step_mode s0 = "start" ∧
    location s1 = "Pulinchodu Metro" ∧ step_mode s1 = "metro" ∧
    (total_cost r == 5)%Q ∧ (total_time r == 2.5)%Q ∧
    (total_distance r == round_q (aluva_pulinchodu ref_math) 2)%Q ∧
    (total_distance r == 1.13)%Q ∧
    (1.1313 < aluva_pulinchodu ref_math < 1.1314)%Q.
Proof.
  rewrite kochi_ref_eq.
  assert (match find_optimized_routes kochi_ref "Aluva Metro" "Pulinchodu Metro"
          with
          | Ok [RouteDict r] =>
              match path r with
              | [s0; s1] =>
                  String.eqb (strategy r) "Cheapest"
                  && String.eqb (location s0) "Aluva Metro"
                  && String.eqb (step_mode s0) "start"
                  && String.eqb (location s1) "Pulinchodu Metro"
                  && String.eqb (step_mode s1) "metro"
                  && Qeq_bool (total_cost r) 5
                  && Qeq_bool (total_time r) 2.5
                  && Qeq_bool (total_distance r)
                       (round_q (aluva_pulinchodu ref_math) 2)
                  && Qeq_bool (total_distance r) 1.13
                  && Qltb 1.1313 (aluva_pulinchodu ref_math)
                  && Qltb (aluva_pulinchodu ref_math) 1.1314
              | _ => false
              end
          | _ => false
          end = true) as H by (vm_compute; reflexivity).
  destruct (find_optimized_routes kochi_ref _ _) as [[|[?|r] [|? ?]]|];
    try discriminate H.
  destruct (path r) as [|s0 [|s1 [|? ?]]] eqn:Hp; try discriminate H.
  repeat (apply andb_true_iff in H as [H ?]).
  exists r, s0, s1.
  split_and!;
    [reflexivity | exact Hp | by apply String.eqb_eq | by apply String.eqb_eq
    | by apply String.eqb_eq | by apply String.eqb_eq | by apply String.eqb_eq
    | by apply Qeq_bool_iff | by apply Qeq_bool_iff | by apply Qeq_bool_iff
    | by apply Qeq_bool_iff | by apply Qltb_lt | by apply Qltb_lt].
Qed.

(** A route from Aluva to Kaloor whose step distances add up to 0.02
    less than its total distance. *)
Lemma aluva_kaloor_route :
  ∃ r,
    find_optimized_routes (kochi ref_math) "Aluva Metro" "Kaloor Metro"
    = Ok [RouteDict r] ∧
    (0.01 < Qabs (Qsum (segment_distance <$> path r) - total_distance r))%Q.
Proof.
  rewrite kochi_ref_eq.
  assert (match find_optimized_routes kochi_ref "Aluva Metro" "Kaloor Metro"
          with
          | Ok [RouteDict r] =>
              Qltb 0.01
                (Qabs (Qsum (segment_distance <$> path r) - total_distance r))
          | _ => false
          end = true) as H by (vm_compute; reflexivity).
  destruct (find_optimized_routes kochi_ref _ _) as [[|[?|r] [|? ?]]|];
    try discriminate H.
  exists r. split; [reflexivity | by apply Qltb_lt].
Qed.

Section RelaxationWitness.
Import Binary64.

Lemma C1_relaxation_witness :
  relax (literal 1) zero zero ["B"; "A"] "B" (tie_state, []) (bus "D" 0.2)
  = composite ←
      spec_composite (literal 1) zero zero
        (add (literal 0.1) (cost (bus "D" 0.2)))
        (add zero (time (bus "D" 0.2)))
        (spec_transfers 0 (Some (bus "B" 0.1)) (bus "D" 0.2))
        (Some (bus "B" 0.1)) (bus "D" 0.2);
    Ok (if lt composite
             (composite_of (literal 1) zero zero
                (literal 0.30000000000000004) zero zero false
                (bus "D" 0.30000000000000004)) then
          ({| distances :=
                <[destination (bus "D" 0.2) := composite]>
                  (distances tie_state);
              costs :=
                <[destination (bus "D" 0.2)
                  := add (literal 0.1) (cost (bus "D" 0.2))]>
                  (costs tie_state);
              times :=
                <[destination (bus "D" 0.2)
                  := add zero (time (bus "D" 0.2))]> (times tie_state);
              distances_km :=
                <[destination (bus "D" 0.2)
                  := add zero (distance (bus "D" 0.2))]>
                  (distances_km tie_state);
              transfers :=
                <[destination (bus "D" 0.2)
                  := spec_transfers 0 (Some (bus "B" 0.1)) (bus "D" 0.2)]>
                  (transfers tie_state);
              previous :=
                <[destination (bus "D" 0.2) := Some "B"]>
                  (previous tie_state);
              edge_info :=
                <[destination (bus "D" 0.2) := Some (bus "D" 0.2)]>
                  (edge_info tie_state) |},
           [(composite, destination (bus "D" 0.2))])
        else (tie_state, [])).
Proof.
  apply (C1_relaxation (literal 1) zero zero ["B"; "A"] "B" tie_state []
           (bus "D" 0.2) (literal 0.1) zero zero 0 (Some (bus "B" 0.1))).
  - apply (bool_decide_unpack _). vm_compute. exact I.
  - vm_compute. reflexivity.
  - vm_compute. reflexivity.
  - vm_compute. reflexivity.
  - vm_compute. reflexivity.
  - vm_compute. reflexivity.
  - vm_compute. reflexivity.
  - intros e0 [= <-]. discriminate.
  - vm_compute. reflexivity.
  - vm_compute. reflexivity.
  - lia.
Defined.

(** On [tie_net] the second way to D ties with the first in binary64,
    and the relaxation keeps the record. *)
Lemma tie_relaxation_keeps :
  relax (literal 1) zero zero ["B"; "A"] "B" (tie_state, []) (bus "D" 0.2)
  = Ok (tie_state, []).
Proof. vm_compute. reflexivity. Qed.

Lemma tie_search_keeps :
  ∃ st,
    _dijkstra tie_net "A" "D" (literal 1) zero zero = Ok st ∧
    previous st !! "D" = Some (Some "A") ∧
    costs st !! "D" = Some (literal 0.30000000000000004).
Proof.
  eexists. split; [vm_compute; reflexivity |].
  split; vm_compute; reflexivity.
Qed.
End RelaxationWitness.

(** C8, amended.  Under the reference math library the query from
    Aluva Metro to Pulinchodu Metro returns one route, of two steps,
    the second by metro, with total cost 5, total time 2.5 and, as
    total distance, the haversine distance of the two stations rounded
    to two decimals, which is 1.13. *)
Theorem C8_aluva_pulinchodu_amended :
  ∃ r s0 s1,
    find_optimized_routes (kochi ref_math) "Aluva Metro" "Pulinchodu Metro"
    = Ok [RouteDict r] ∧
    path r = [s0; s1] ∧
    location s0 = "Aluva Metro" ∧ step_mode s0 = "start" ∧
    location s1 = "Pulinchodu Metro" ∧ step_mode s1 = "metro" ∧
    (total_cost r == 5)%Q ∧ (total_time r == 2.5)%Q ∧
    (total_distance r == round_q (aluva_pulinchodu ref_math) 2)%Q ∧
    (total_distance r == 1.13)%Q.
Proof.
  destruct aluva_pulinchodu_route
    as (r & s0 & s1 & ? & ? & ? & ? & ? & ? & ? & ? & ? & ? & ? & _).
  exists r, s0, s1. by split_and!.
Qed.

(** C8 as stated fails: no route returned for the query has the
    haversine distance of the two stations as its total distance, and
    that distance is not between 0.9 and 1.0. *)
Lemma C8_counterexample :
  (¬ ∃ res r,
       find_optimized_routes (kochi ref_math) "Aluva Metro" "Pulinchodu Metro"
       = Ok res ∧
       RouteDict r ∈ res ∧
       (total_distance r == aluva_pulinchodu ref_math)%Q) ∧
  ¬ (0.9 <= aluva_pulinchodu ref_math <= 1.0)%Q.
Proof.
  destruct aluva_pulinchodu_route
    as (r0 & s0 & s1 & Hres & _ & _ & _ & _ & _ & _ & _ & _ & _ & Hd & Hlo & _).
  split.
  - intros (res & r & Hres' & Hr & Heq). rewrite Hres in Hres'.
    injection Hres' as <-.
    apply list_elem_of_singleton in Hr. injection Hr as ->.
    rewrite Hd in Heq. rewrite <- Heq in Hlo. revert Hlo. clear. lra.
  - intros [_ ?]. lra.
Qed.

(** C3 as stated fails: for the query from Aluva Metro to Kaloor Metro
    the step distances of the returned route do not add up to its total
    distance within 0.01. *)
Lemma C3_counterexample :
  ¬ ∀ res r,
      find_optimized_routes (kochi ref_math) "Aluva Metro" "Kaloor Metro"
      = Ok res →
      RouteDict r ∈ res →
      (Qabs (Qsum (segment_cost <$> path r) - total_cost r) <= 0.01 ∧
       Qabs (Qsum (segment_time <$> path r) - total_time r) <= 0.1 ∧
       Qabs (Qsum (segment_distance <$> path r) - total_distance r) <= 0.01)%Q.
Proof.
  destruct aluva_kaloor_route as (r & Hres & Hd).
  intros H. destruct (H _ r Hres) as (_ & _ & Hle); [left |].
  revert Hd Hle. generalize (Qabs (Qsum (segment_distance <$> path r)
                                    - total_distance r)).
  clear. intros q. lra.
Qed.

(** * Further properties of the network builder *)

(** Two edges of the network to test statements on: the first metro
    hop, for every math library, and the walk from Aluva Town under the
    reference library. *)
Lemma aluva_hop (M : MathLib) :
  has_edge (kochi M) "Aluva Metro"
    {| destination := "Pulinchodu Metro"; mode := "metro"; time := 2.5;
       distance := aluva_pulinchodu M; cost := 5 |}.
Proof.
  apply kochi_has_edge.
  apply (metro_hop_in M 0 "Aluva Metro" 10.1082 76.3520 "Zone 3"
           "Pulinchodu Metro" 10.1012 76.3445 "Zone 3");
    [reflexivity | reflexivity | left].
Qed.

Lemma aluva_town_walk_edge :
  has_edge (kochi ref_math) "Aluva Town" aluva_town_walk.
Proof.
  rewrite kochi_ref_eq.
  assert (∃ es, graph kochi_ref !! "Aluva Town" = Some es ∧
                es !! 0%nat = Some aluva_town_walk) as (es & Hes & H0).
  { eexists. split; vm_compute; reflexivity. }
  exists es. split; [exact Hes |]. by eapply list_elem_of_lookup_2.
Qed.

Lemma aluva_town_place (M : MathLib) : ¬ is_station (kochi M) "Aluva Town".
Proof.
  intros (info & Hget & Hty). rewrite kochi_locations in Hget.
  vm_compute in Hget. injection Hget as <-. discriminate Hty.
Qed.

Lemma aluva_metro_station (M : MathLib) name :
  name = "Aluva Metro" ∨ name = "Pulinchodu Metro" →
  is_station (kochi M) name.
Proof.
  intros [-> | ->]; apply is_station_kochi; eexists;
    (split; [vm_compute; reflexivity | reflexivity]).
Qed.

(** X1.  The network is symmetric: with every edge from [v] to [w] it
    holds an edge from [w] to [v] of the same mode, time, distance and
    cost. *)
Theorem X1_network_symmetric (M : MathLib) (v : string) (e : Edge) :
  has_edge (kochi M) v e →
  has_edge (kochi M) (destination e) (reversed v e).
Proof.
  intros H%kochi_has_edge. apply kochi_has_edge.
  by apply builder_edges_paired.
Qed.

Lemma X1_network_symmetric_witness :
  has_edge (kochi ref_math) "Pulinchodu Metro"
    {| destination := "Aluva Metro"; mode := "metro"; time := 2.5;
       distance := aluva_pulinchodu ref_math; cost := 5 |}.
Proof.
  exact (X1_network_symmetric ref_math "Aluva Metro" _ (aluva_hop ref_math)).
Defined.

(** X2.  Every edge of the network joins two different locations of
    the catalogue. *)
Theorem X2_edge_endpoints (M : MathLib) (v : string) (e : Edge) :
  has_edge (kochi M) v e →
  v ∈ keys (kochi M) ∧ destination e ∈ keys (kochi M) ∧ v ≠ destination e.
Proof.
  intros H. destruct (kochi_edge_keys M v e H) as [Hv Hd].
  split; [exact Hv |]. split; [exact Hd |]. clear Hv Hd.
  apply kochi_has_edge, builder_edges_origin in H as [H|[H|H]].
  - by apply consecutive_metro_hop, metro_hop_stations in H as (_ & _ & ?).
  - destruct H as (loc & info & [station d] & Hloc & Hn & H).
    apply station_edges_connector in H as [Hj _].
    apply place_not_station in Hloc. apply nearest_is_station in Hn.
    destruct Hj as [[-> ->]|[-> ->]]; intros E; rewrite E in *; done.
  - destruct H as (i & j & item1 & item2 & Hij & Hi & Hj & H).
    apply pair_edges_connector in H as [Hjoin _].
    assert (item1.1 ≠ item2.1) as Hne.
    { intros E. assert (i = j); [|lia].
      apply (NoDup_lookup places.*1 i j item1.1 places_NoDup);
        rewrite list_lookup_fmap; [by rewrite Hi | by rewrite Hj, E]. }
    destruct Hjoin as [[-> ->]|[-> ->]]; [done | by apply not_eq_sym].
Qed.

Lemma X2_edge_endpoints_witness :
  "Aluva Metro" ∈ keys (kochi ref_math) ∧
  "Pulinchodu Metro" ∈ keys (kochi ref_math) ∧
  "Aluva Metro" ≠ "Pulinchodu Metro".
Proof.
  exact (X2_edge_endpoints ref_math "Aluva Metro" _ (aluva_hop ref_math)).
Defined.

(** X3.  Modes and fares.  Every edge of the network is a metro hop of
    2.5 minutes for 5 rupees; or a walk of less than 1.5 km, at 15
    minutes and 5 rupees per km; or an auto ride of less than 15 km, at
    3 minutes per km for 20 rupees plus 12 per km; or a bus ride of
    more than 1 and less than 10 km, at 4 minutes per km for 10 rupees
    plus 3 per km. *)
Theorem X3_edge_fares (M : MathLib) (v : string) (e : Edge) :
  has_edge (kochi M) v e →
  (mode e = "metro" ∧ time e = 2.5%Q ∧ cost e = 5%Q) ∨
  (mode e = "walk" ∧ (distance e < 1.5)%Q ∧
   time e = (distance e * 15)%Q ∧ cost e = (distance e * 5)%Q) ∨
  (mode e = "auto" ∧ (distance e < 15)%Q ∧
   time e = (distance e * 3)%Q ∧ cost e = (20 + distance e * 12)%Q) ∨
  (mode e = "bus" ∧ (1 < distance e)%Q ∧ (distance e < 10)%Q ∧
   time e = (distance e * 4)%Q ∧ cost e = (10 + distance e * 3)%Q).
Proof.
  assert (∀ d, connector d e →
    (mode e = "walk" ∧ (distance e < 1.5)%Q ∧
     time e = (distance e * 15)%Q ∧ cost e = (distance e * 5)%Q) ∨
    (mode e = "auto" ∧ (distance e < 15)%Q ∧
     time e = (distance e * 3)%Q ∧ cost e = (20 + distance e * 12)%Q) ∨
    (mode e = "bus" ∧ (1 < distance e)%Q ∧ (distance e < 10)%Q ∧
     time e = (distance e * 4)%Q ∧ cost e = (10 + distance e * 3)%Q)) as Hc.
  { intros d [Hd Hc]. rewrite Hd.
    destruct Hc as [(? & ?%Qltb_lt & ? & ?)|[(? & ?%Qltb_lt & ? & ?)
                   |(? & ?%Qltb_lt & ?%Qltb_lt & ? & ?)]].
    - left. by split_and!.
    - right; left. by split_and!.
    - right; right. split_and!; try done. lra. }
  intros H%kochi_has_edge%builder_edges_cases.
  destruct H as [H|[H|H]].
  - left. destruct H as (? & ? & ? & ? & ? & ? & ? & ? & ? & _ & _ & _
                         & ? & ? & ? & _). by split_and!.
  - right. destruct H as (? & ? & ? & ? & ? & _ & _ & _ & _ & H).
    exact (Hc _ H).
  - right. destruct H as (? & ? & _ & _ & _ & _ & _ & H). exact (Hc _ H).
Qed.

Lemma X3_edge_fares_witness :
  let e := {| destination := "Pulinchodu Metro"; mode := "metro"; time := 2.5;
              distance := aluva_pulinchodu ref_math; cost := 5 |} in
  (mode e = "metro" ∧ time e = 2.5%Q ∧ cost e = 5%Q) ∨
  (mode e = "walk" ∧ (distance e < 1.5)%Q ∧
   time e = (distance e * 15)%Q ∧ cost e = (distance e * 5)%Q) ∨
  (mode e = "auto" ∧ (distance e < 15)%Q ∧
   time e = (distance e * 3)%Q ∧ cost e = (20 + distance e * 12)%Q) ∨
  (mode e = "bus" ∧ (1 < distance e)%Q ∧ (distance e < 10)%Q ∧
   time e = (distance e * 4)%Q ∧ cost e = (10 + distance e * 3)%Q).
Proof.
  exact (X3_edge_fares ref_math "Aluva Metro" _ (aluva_hop ref_math)).
Defined.

(** X4.  Wherever the network offers a walk or a bus ride, it offers an
    auto ride between the same two locations over the same distance. *)
Theorem X4_auto_alongside (M : MathLib) (v : string) (e : Edge) :
  has_edge (kochi M) v e → mode e = "walk" ∨ mode e = "bus" →
  has_edge (kochi M) v (auto_like e).
Proof.
  intros H Hm. apply kochi_has_edge. apply kochi_has_edge in H.
  apply builder_edges_origin. apply builder_edges_origin in H as [H|[H|H]].
  - apply consecutive_metro_hop in H
      as (? & ? & ? & ? & ? & ? & ? & ? & ? & _ & _ & _ & Hm' & _).
    destruct Hm; congruence.
  - right; left. destruct H as (loc & info & [station d] & Hloc & Hn & H).
    exists loc, info, (station, d). split; [done |]. split; [done |].
    pose proof (station_edges_connector _ _ _ _ _ H) as [Hj [Hd Hc]].
    assert (Qltb d 15 = true) as H15.
    { apply Qltb_lt.
      destruct Hc as [(_ & ?%Qltb_lt & _)|[(_ & ?%Qltb_lt & _)
                     |(_ & _ & ?%Qltb_lt & _)]]; lra. }
    unfold station_edges. rewrite H15, !elem_of_app. right; left.
    unfold auto_like, both. rewrite Hd.
    destruct Hj as [[-> ->]|[-> ->]]; [left | right; left].
  - right; right. destruct H as (i & j & item1 & item2 & Hij & Hi & Hj & H).
    exists i, j, item1, item2. split_and!; try done.
    pose proof (pair_edges_connector _ _ _ _ _ H) as [Hjoin [Hd Hc]].
    revert Hd Hc. set (d := _haversine_distance M _ _ _ _). intros Hd Hc.
    assert (Qltb d 10 = true) as H10.
    { destruct Hc as [(_ & ?%Qltb_lt & _)|[(Hm' & _)|(Hm' & _)]];
        [apply Qltb_lt; lra | destruct Hm; congruence |].
      unfold pair_edges in H. fold d in H.
      apply elem_of_app in H as [H|H].
      - destruct (Qltb d 10); [done | by apply elem_of_nil in H].
      - destruct (Qltb d 1.5); [|by apply elem_of_nil in H].
        apply both_joins in H as (_ & ? & _). congruence. }
    unfold pair_edges. fold d. rewrite H10, elem_of_app. left.
    unfold auto_like, both. rewrite Hd.
    destruct Hjoin as [[-> ->]|[-> ->]]; [left | right; left].
Qed.

Lemma X4_auto_alongside_witness :
  has_edge (kochi ref_math) "Aluva Town" (auto_like aluva_town_walk).
Proof.
  apply (X4_auto_alongside ref_math "Aluva Town" aluva_town_walk).
  - exact aluva_town_walk_edge.
  - left. reflexivity.
Defined.

(** X5.  A place that is not a metro station is linked to a station
    only if the station is one of the three that
    [_find_nearest_metro_stations] returns for the place, and the edge
    has the distance returned with it. *)
Theorem X5_links_to_nearest (M : MathLib) (v : string) (e : Edge) :
  has_edge (kochi M) v e →
  ¬ is_station (kochi M) v → is_station (kochi M) (destination e) →
  (destination e, distance e)
  ∈ _find_nearest_metro_stations M (kochi M) v 3.
Proof.
  rewrite !is_station_kochi, nearest_kochi.
  intros H%kochi_has_edge%builder_edges_origin Hv Hd.
  destruct H as [H|[H|H]].
  - by apply consecutive_metro_hop, metro_hop_stations in H as (? & _).
  - destruct H as (loc & info & [station d] & Hloc & Hn & H).
    apply station_edges_connector in H as [Hj [Hdist _]].
    destruct Hj as [[-> ->]|[-> ->]].
    + by rewrite Hdist.
    + by apply nearest_is_station in Hn.
  - destruct H as (i & j & item1 & item2 & _ & Hi & Hj & H).
    apply pair_edges_connector in H as [Hjoin _].
    apply list_elem_of_lookup_2 in Hi, Hj.
    destruct item1 as [n1 i1], item2 as [n2 i2].
    apply place_not_station in Hi, Hj.
    destruct Hjoin as [[_ E]|[_ E]]; cbn [fst] in E; rewrite E in Hd; done.
Qed.

Lemma X5_links_to_nearest_witness :
  (destination aluva_town_walk, distance aluva_town_walk)
  ∈ _find_nearest_metro_stations ref_math (kochi ref_math) "Aluva Town" 3.
Proof.
  apply (X5_links_to_nearest ref_math "Aluva Town" aluva_town_walk).
  - exact aluva_town_walk_edge.
  - exact (aluva_town_place ref_math).
  - apply aluva_metro_station. left. reflexivity.
Defined.

(** X6.  Two metro stations are joined only along the line: an edge
    between two stations is a metro hop between neighbours on the
    line. *)
Theorem X6_stations_joined_by_line (M : MathLib) (v : string) (e : Edge) :
  has_edge (kochi M) v e →
  is_station (kochi M) v → is_station (kochi M) (destination e) →
  metro_hop M v e.
Proof.
  rewrite !is_station_kochi.
  intros H%kochi_has_edge%builder_edges_origin Hv Hd.
  destruct H as [H|[H|H]].
  - by apply consecutive_metro_hop.
  - destruct H as (loc & info & [station d] & Hloc & Hn & H).
    apply station_edges_connector in H as [Hj _].
    apply place_not_station in Hloc.
    destruct Hj as [[E _]|[_ E]]; [rewrite E in Hv | rewrite E in Hd]; done.
  - destruct H as (i & j & item1 & item2 & _ & Hi & Hj & H).
    apply pair_edges_connector in H as [Hjoin _].
    apply list_elem_of_lookup_2 in Hi, Hj.
    destruct item1 as [n1 i1], item2 as [n2 i2].
    apply place_not_station in Hi, Hj.
    destruct Hjoin as [[_ E]|[_ E]]; cbn [fst] in E; rewrite E in Hd; done.
Qed.

Lemma X6_stations_joined_by_line_witness :
  metro_hop ref_math "Aluva Metro"
    {| destination := "Pulinchodu Metro"; mode := "metro"; time := 2.5;
       distance := aluva_pulinchodu ref_math; cost := 5 |}.
Proof.
  apply (X6_stations_joined_by_line ref_math "Aluva Metro").
  - exact (aluva_hop ref_math).
  - apply aluva_metro_station. left. reflexivity.
  - apply aluva_metro_station. right. reflexivity.
Defined.

(** * The nearest stations *)

#[local] Instance key_le_trans {A : Type} (key : A → Q) :
  Transitive (key_le key).
Proof. intros x y z. unfold key_le. apply Qle_trans. Qed.

(** The first [k] elements of a sorted list are its [k] least. *)
Lemma take_sorted_least {A : Type} (key : A → Q) (l : list A) (k : nat) y :
  Sorted (key_le key) l → y ∈ l →
  y ∈ take k l ∨ ∀ x, x ∈ take k l → (key x <= key y)%Q.
Proof.
  intros Hs Hy. rewrite <- (take_drop k l) in Hy.
  apply elem_of_app in Hy as [Hy|Hy]; [by left | right].
  apply Sorted_StronglySorted in Hs; [|apply _].
  rewrite <- (take_drop k l) in Hs. intros x Hx.
  exact (StronglySorted_app_1_elem_of _ _ _ _ _ Hs Hx Hy).
Qed.

Lemma take_ascending {A : Type} (key : A → Q) (l : list A) (k : nat) :
  ascending key l → ascending key (take k l).
Proof.
  intros Hl i x y [Hx _]%lookup_take_Some [Hy _]%lookup_take_Some.
  exact (Hl i x y Hx Hy).
Qed.

(** X7.  [_find_nearest_metro_stations] returns the empty list for a
    location that is not catalogued and, for a catalogued one, [k]
    stations, or all of them when there are fewer than [k]; each comes
    with its haversine distance from the location. *)
Theorem X7_nearest_stations (M : MathLib) (self : Optimizer)
    (location : string) (k : nat) :
  (location ∉ keys self →
   _find_nearest_metro_stations M self location k = []) ∧
  (location ∈ keys self →
   length (_find_nearest_metro_stations M self location k)
   = min k (length (metro_stations self))) ∧
  (∀ station d,
     (station, d) ∈ _find_nearest_metro_stations M self location k →
     ∃ info la lo,
       dict_get (locations self) location = Some info ∧
       (station, (la, lo)) ∈ metro_stations self ∧
       d = _haversine_distance M (lat info) (lon info) la lo).
Proof.
  split_and!.
  - intros Hk. unfold _find_nearest_metro_stations.
    destruct (dict_get (locations self) location) eqn:E; [|reflexivity].
    destruct Hk. by eapply dict_get_Some_key.
  - intros [info Hinfo]%dict_get_key. unfold _find_nearest_metro_stations.
    rewrite Hinfo, length_take. f_equal.
    rewrite (Permutation_length (sort_by_perm snd _)). apply length_map.
  - intros station d. apply nearest_in.
Qed.

(** X8.  The stations returned for a catalogued location are in
    ascending order of distance, and no station left out is nearer than
    one returned. *)
Theorem X8_nearest_closest (M : MathLib) (self : Optimizer)
    (location : string) (k : nat) (info : LocationInfo) :
  dict_get (locations self) location = Some info →
  ascending snd (_find_nearest_metro_stations M self location k) ∧
  ∀ station la lo,
    (station, (la, lo)) ∈ metro_stations self →
    let d := _haversine_distance M (lat info) (lon info) la lo in
    (station, d) ∈ _find_nearest_metro_stations M self location k ∨
    ∀ x, x ∈ _find_nearest_metro_stations M self location k →
         (x.2 <= d)%Q.
Proof.
  intros Hinfo. unfold _find_nearest_metro_stations. rewrite Hinfo.
  set (distances := map _ (metro_stations self)). split.
  - apply take_ascending, sort_by_ascending.
  - intros station la lo Hs.
    set (d := _haversine_distance M (lat info) (lon info) la lo).
    assert ((station, d) ∈ sort_by snd distances) as Hin.
    { rewrite (sort_by_perm snd distances). subst distances.
      apply list_elem_of_In, in_map_iff. exists (station, (la, lo)).
      split; [reflexivity | by apply list_elem_of_In]. }
    exact (take_sorted_least snd _ k (station, d)
             (sort_by_sorted snd distances) Hin).
Qed.

Lemma X8_nearest_closest_witness :
  ascending snd (_find_nearest_metro_stations ref_math catalogue "Aluva Town" 3) ∧
  ∀ station la lo,
    (station, (la, lo)) ∈ metro_stations catalogue →
    let d := _haversine_distance ref_math 10.1100 76.3550 la lo in
    (station, d) ∈ _find_nearest_metro_stations ref_math catalogue "Aluva Town" 3 ∨
    ∀ x, x ∈ _find_nearest_metro_stations ref_math catalogue "Aluva Town" 3 →
         (x.2 <= d)%Q.
Proof.
  apply (X8_nearest_closest ref_math catalogue "Aluva Town" 3
           {| lat := 10.1100; lon := 76.3550; type := "residential";
              zone := "N/A" |}).
  vm_compute. reflexivity.
Defined.

(** * The search reaches what can be reached *)

(** The relaxation, with its intermediate values named. *)
Lemma relax_eq cw tw conv vis current st pq edge :
  relax cw tw conv vis current (st, pq) edge
  = if bool_decide (destination edge ∈ vis) then Ok (st, pq)
    else
      cost_cur ← getitem (costs st) current;
      time_cur ← getitem (times st) current;
      dist_cur ← getitem (distances_km st) current;
      transfers_cur ← getitem (transfers st) current;
      info_cur ← getitem (edge_info st) current;
      let new_cost := fadd cost_cur (Fin (cost edge)) in
      let new_time := fadd time_cur (Fin (time edge)) in
      let new_distance := fadd dist_cur (Fin (distance edge)) in
      let new_transfers := transfers_after transfers_cur info_cur edge in
      let composite :=
        composite_of cw tw conv new_cost new_time new_transfers
          (mode_changed info_cur edge) edge in
      best ← getitem (distances st) (destination edge);
      if flt composite best then
        Ok (record_reached st (destination edge) current edge composite
              new_cost new_time new_distance new_transfers,
            heappush pq (composite, destination edge))
      else Ok (st, pq).
Proof. reflexivity. Qed.

Lemma composite_fin cw tw conv a b tr ch e :
  ∃ q, composite_of cw tw conv (Fin a) (Fin b) tr ch e = Fin q.
Proof.
  unfold composite_of, fgt, flt, fdiv.
  destruct (Qltb 0 a), (Qltb 0 b), (0 <? tr)%Z; cbn [fmul fadd]; eauto.
Qed.

Lemma string_ltb_total s t :
  String.ltb s t = false → String.ltb t s = false → s = t.
Proof.
  unfold String.ltb. rewrite (String.compare_antisym t s).
  destruct (String.compare s t) eqn:E; simpl; intros H1 H2;
    try discriminate.
  by apply String.compare_eq_iff.
Qed.

(** Two entries with finite scores that the heap order does not
    separate carry the same name. *)
Lemma tuple_eqb_name a s b t :
  tuple_eqb (Fin a, s) (Fin b, t) = true → s = t.
Proof.
  unfold tuple_eqb, tuple_lt. cbn [fst snd feq flt].
  intros [H1 H2]%andb_true_iff.
  apply negb_true_iff in H1, H2.
  destruct (Qeq_bool a b) eqn:E.
  - assert (Qeq_bool b a = true) as E'.
    { apply Qeq_bool_iff. symmetry. by apply Qeq_bool_iff. }
    rewrite E' in H2. by apply string_ltb_total.
  - assert (Qeq_bool b a = false) as E'.
    { apply not_true_iff_false. intros E'%Qeq_bool_iff.
      apply not_true_iff_false in E. apply E, Qeq_bool_iff. by symmetry. }
    rewrite E' in H2. apply Qltb_ge in H1, H2.
    apply not_true_iff_false in E. destruct E. apply Qeq_bool_iff. lra.
Qed.

Lemma heap_remove_keeps x pq y :
  y ∈ pq → tuple_eqb x y = false → y ∈ heap_remove x pq.
Proof.
  intros Hy Hne. induction pq as [|z pq IH]; [done |].
  cbn [heap_remove]. apply elem_of_cons in Hy as [<-|Hy].
  - rewrite Hne. left.
  - destruct (tuple_eqb x z); [done |]. right. by apply IH.
Qed.

Lemma heappop_keeps pq m pq' y :
  heappop pq = Some (m, pq') → y ∈ pq → tuple_eqb m y = false → y ∈ pq'.
Proof.
  unfold heappop. destruct pq as [|x pq0]; [done |].
  intros [= <- <-] Hy Hne.
  exact (heap_remove_keeps (heap_min x pq0) (x :: pq0) y Hy Hne).
Qed.

Lemma connected_trans self u v w :
  connected self u v → connected self v w → connected self u w.
Proof.
  induction 1 as [|u e v' He Hc IH]; [done |].
  intros Hw. econstructor; [exact He | by apply IH].
Qed.

Section ReachWith.
Variable self : Optimizer.
Hypothesis Hwf : graph_wf self.
Variables (start end_ : string) (cw tw conv : Q).

(** A further property of the state that every relaxation keeps. *)
Variable K : SearchState → Prop.
Hypothesis K_relax : ∀ st pq vis current es edge st' pq',
  search_inv self start st vis → reach_inv self start cw tw conv st pq vis →
  closure_but self end_ current st vis →
  current ∈ vis → start ∈ vis → current ≠ end_ →
  graph self !! current = Some es → edge ∈ es → K st →
  relax cw tw conv vis current (st, pq) edge = Ok (st', pq') → K st'.

(** What a relaxation from a closed node does. *)
Lemma relax_step st pq vis current es edge :
  search_inv self start st vis → current ∈ vis →
  graph self !! current = Some es → edge ∈ es →
  ∃ cc ct cd tr info best,
    costs st !! current = Some (Fin cc) ∧
    times st !! current = Some (Fin ct) ∧
    distances_km st !! current = Some (Fin cd) ∧
    transfers st !! current = Some tr ∧
    edge_info st !! current = Some info ∧
    distances st !! destination edge = Some best ∧
    let new_cost := fadd (Fin cc) (Fin (cost edge)) in
    let new_time := fadd (Fin ct) (Fin (time edge)) in
    let new_distance := fadd (Fin cd) (Fin (distance edge)) in
    let new_transfers := transfers_after tr info edge in
    let composite :=
      composite_of cw tw conv new_cost new_time new_transfers
        (mode_changed info edge) edge in
    relax cw tw conv vis current (st, pq) edge
    = Ok (if bool_decide (destination edge ∈ vis) then (st, pq)
          else if flt composite best then
            (record_reached st (destination edge) current edge composite
               new_cost new_time new_distance new_transfers,
             (composite, destination edge) :: pq)
          else (st, pq)).
Proof.
  intros Hinv Hcur Hes Hedge.
  destruct (inv_finite self start _ _ _ Hinv (or_introl Hcur))
    as (cc & ct & cd & Hcc & Hct & Hcd).
  pose proof (inv_visited _ _ _ _ Hinv _ Hcur) as HcurK.
  destruct (inv_dom _ _ _ _ Hinv _ HcurK)
    as (_ & _ & _ & _ & [tr Htr] & _ & [info Hinfo]).
  pose proof (Hwf _ _ _ Hes Hedge) as HnbK.
  destruct (inv_dom _ _ _ _ Hinv _ HnbK) as ([best Hbest] & _).
  exists cc, ct, cd, tr, info, best. split_and!; try done.
  cbv zeta. rewrite relax_eq.
  rewrite (getitem_Some _ _ _ Hcc), (getitem_Some _ _ _ Hct),
    (getitem_Some _ _ _ Hcd), (getitem_Some _ _ _ Htr),
    (getitem_Some _ _ _ Hinfo). cbn [mbind exc_bind].
  rewrite (getitem_Some _ _ _ Hbest). cbn [mbind exc_bind].
  unfold heappush.
  destruct (bool_decide (destination edge ∈ vis)); [done |].
  by destruct (flt _ best).
Qed.

Lemma scored_insert st n c nc nt nd ntr e q m :
  scored st m → scored (record_reached st n c e (Fin q) nc nt nd ntr) m.
Proof.
  intros [q' Hq]. unfold scored, record_reached. cbn [distances].
  destruct (decide (n = m)) as [->|Hne].
  - rewrite lookup_insert_eq. eauto.
  - rewrite lookup_insert_ne by done. eauto.
Qed.

Lemma relax_reach st pq vis current es edge st' pq' :
  search_inv self start st vis → reach_inv self start cw tw conv st pq vis →
  current ∈ vis → start ∈ vis →
  graph self !! current = Some es → edge ∈ es →
  relax cw tw conv vis current (st, pq) edge = Ok (st', pq') →
  reach_inv self start cw tw conv st' pq' vis ∧
  (∀ n, scored st n → scored st' n) ∧
  scored st' (destination edge).
Proof.
  intros Hinv Hri Hcur Hstart Hes Hedge.
  destruct (relax_step st pq vis current es edge Hinv Hcur Hes Hedge)
    as (cc & ct & cd & tr & info & best & Hcc & Hct & Hcd & Htr & Hinfo
        & Hbest & ->).
  cbv zeta.
  destruct (composite_fin cw tw conv (Qred (cc + cost edge))
              (Qred (ct + time edge)) (transfers_after tr info edge)
              (mode_changed info edge) edge) as [comp Hcomp].
  rewrite !fadd_Fin. rewrite Hcomp.
  case_bool_decide as Hnb.
  { intros [= <- <-]. split_and!; [done | done |].
    by apply (ri_closed _ _ _ _ _ _ _ _ Hri). }
  destruct (flt (Fin comp) best) eqn:Hlt.
  2:{ intros [= <- <-]. split_and!; [done | done |].
      destruct (ri_shape _ _ _ _ _ _ _ _ Hri _ _ Hbest) as [->|[q ->]];
        [discriminate Hlt | by exists q]. }
  intros [= <- <-].
  assert (destination edge ≠ start) as Hne2 by (intros E; by rewrite E in Hnb).
  assert (destination edge ≠ current) as Hne1 by (intros E; by rewrite E in Hnb).
  split_and!.
  - destruct Hri as [Rshape Rstart Rheap Rclosed Rfront Runt Rreach].
    split.
    + intros n d. unfold record_reached. cbn [distances].
      destruct (decide (destination edge = n)) as [<-|Hn].
      * rewrite lookup_insert_eq. intros [= <-]. right. by exists comp.
      * rewrite lookup_insert_ne by done. apply Rshape.
    + unfold record_reached. cbn [distances transfers edge_info].
      by rewrite !lookup_insert_ne.
    + intros d n [[= -> ->]|Hx]%elem_of_cons.
      * split; [by exists comp |]. exists comp.
        unfold record_reached. cbn [distances].
        by rewrite lookup_insert_eq.
      * destruct (Rheap d n Hx) as [? Hs]. split; [done |].
        by apply scored_insert.
    + intros v Hv. by apply scored_insert, Rclosed.
    + intros n [q Hq]. unfold record_reached in Hq. cbn [distances] in Hq.
      destruct (decide (destination edge = n)) as [<-|Hn].
      * right. exists (Fin comp). left.
      * rewrite lookup_insert_ne in Hq by done.
        destruct (Rfront n) as [?|[d Hd]]; [by exists q | by left |].
        right. exists d. by right.
    + intros n Hns. unfold untouched, record_reached.
      cbn [distances costs times distances_km transfers previous edge_info].
      destruct (decide (destination edge = n)) as [<-|Hn].
      * by rewrite lookup_insert_eq.
      * rewrite !lookup_insert_ne by done. by apply Runt.
    + intros n c. unfold record_reached.
      cbn [distances costs times distances_km transfers previous edge_info].
      destruct (decide (destination edge = n)) as [<-|Hn].
      * rewrite !lookup_insert_eq. intros [= <-].
        rewrite !lookup_insert_ne by done.
        eexists edge, tr, info, _, _. split_and!; try done.
        by rewrite Hcomp.
      * rewrite !(lookup_insert_ne _ (destination edge) n) by done.
        intros Hp.
        destruct (inv_chain _ _ _ _ Hinv n c Hp) as [Hc _].
        assert (destination edge ≠ c) by (intros E; by rewrite E in Hnb).
        rewrite !lookup_insert_ne by done. by apply Rreach.
  - intros n Hn. by apply scored_insert.
  - exists comp. unfold record_reached. cbn [distances].
    by rewrite lookup_insert_eq.
Qed.

Lemma relax_fold_reach vis current es l : ∀ st pq,
  search_inv self start st vis → heap_inv self start st pq →
  reach_inv self start cw tw conv st pq vis →
  closure_but self end_ current st vis → K st →
  current ∈ vis → start ∈ vis → current ≠ end_ →
  graph self !! current = Some es → (∀ e, e ∈ l → e ∈ es) →
  ∃ st' pq',
    foldM (relax cw tw conv vis current) (st, pq) l = Ok (st', pq') ∧
    search_inv self start st' vis ∧ heap_inv self start st' pq' ∧
    reach_inv self start cw tw conv st' pq' vis ∧ K st' ∧
    (∀ n, scored st n → scored st' n) ∧
    (∀ e, e ∈ l → scored st' (destination e)) ∧
    (length pq' ≤ length pq + length l)%nat.
Proof.
  induction l as [|e l IH];
    intros st pq Hinv Hpq Hri Hcb HK Hcur Hstart Hce Hes Hl.
  - exists st, pq. simpl. split_and!; auto; [by intros e ?%elem_of_nil | lia].
  - assert (e ∈ es) as He by (apply Hl; left).
    destruct (relax_inv self Hwf start cw tw conv st pq vis current e)
      as (st1 & pq1 & E & H1 & H2 & H3); auto.
    { exists es. by split. }
    destruct (relax_reach st pq vis current es e st1 pq1)
      as (R1 & R2 & R3); auto.
    pose proof (K_relax st pq vis current es e st1 pq1 Hinv Hri Hcb Hcur
                  Hstart Hce Hes He HK E) as HK1.
    destruct (IH st1 pq1) as (st2 & pq2 & E2 & ? & ? & ? & ? & S2 & S3 & ?);
      auto.
    { intros v e' Hv Hvc Hve He'. apply R2. by apply (Hcb v e'). }
    { intros e' He'. apply Hl. by right. }
    exists st2, pq2. cbn [foldM]. rewrite E. cbn [mbind exc_bind].
    split_and!; auto.
    + intros e' [->|He']%elem_of_cons; auto.
    + simpl. lia.
Qed.

(** The loop returns with every invariant, and either the heap is
    empty or the destination is closed. *)
Lemma dijkstra_loop_reach fuel : ∀ st pq vis,
  search_inv self start st vis → heap_inv self start st pq →
  start_inv start pq vis →
  reach_inv self start cw tw conv st pq vis →
  closure self end_ st vis → K st →
  (length pq + remaining (graph self) vis < fuel)%nat →
  ∃ st' pq' vis',
    dijkstra_loop self end_ cw tw conv fuel st pq vis = Ok st' ∧
    search_inv self start st' vis' ∧
    reach_inv self start cw tw conv st' pq' vis' ∧
    closure self end_ st' vis' ∧ K st' ∧
    start ∈ vis' ∧ (pq' = [] ∨ end_ ∈ vis').
Proof.
  induction fuel as [|fuel IH]; intros st pq vis Hinv Hpq Hst Hri Hcl HKst Hfuel;
    [lia |].
  cbn [dijkstra_loop].
  destruct (heappop pq) as [[[d current] pq1]|] eqn:Hpop.
  2:{ apply heappop_None in Hpop. subst pq.
      exists st, [], vis. split_and!; auto.
      destruct Hst as [?|[_ ?]]; [done | discriminate]. }
  destruct (heappop_Some _ _ _ Hpop) as (Hin & Hlen & Hsub).
  assert (heap_inv self start st pq1) as Hpq1 by (intros x Hx; auto).
  destruct (ri_heap _ _ _ _ _ _ _ _ Hri d current Hin) as [[qd ->] Hscur].
  assert (∀ d' n, (d', n) ∈ pq → n ≠ current → (d', n) ∈ pq1) as Hkeep.
  { intros d' n Hx Hn. apply (heappop_keeps _ _ _ _ Hpop Hx).
    destruct (ri_heap _ _ _ _ _ _ _ _ Hri d' n Hx) as [[q' ->] _].
    apply not_true_iff_false. intros E%tuple_eqb_name. by destruct Hn. }
  case_bool_decide as Hvis.
  { apply IH; auto; [| |lia].
    - destruct Hst as [?|[-> _]]; [by left | by apply elem_of_nil in Hvis].
    - destruct Hri as [Rshape Rstart Rheap Rclosed Rfront Runt Rreach].
      split; auto.
      intros n Hn. destruct (Rfront n Hn) as [?|[d' Hd']]; [by left |].
      destruct (decide (n = current)) as [->|Hne]; [by left |].
      right. exists d'. by apply Hkeep. }
  destruct (Hpq _ Hin) as [HK Hpred]. cbn [snd] in HK, Hpred.
  pose proof (visit_inv self start _ _ _ Hinv Hvis HK Hpred) as Hinv'.
  assert (start ∈ current :: vis) as Hstart.
  { destruct Hst as [?|[-> ->]]; [by right |].
    apply list_elem_of_singleton in Hin as [= _ ->]. left. }
  assert (reach_inv self start cw tw conv st pq1 (current :: vis)) as Hri'.
  { destruct Hri as [Rshape Rstart Rheap Rclosed Rfront Runt Rreach].
    split; auto.
    - intros v [->|Hv]%elem_of_cons; auto.
    - intros n Hn. destruct (decide (n = current)) as [->|Hne]; [left; left |].
      destruct (Rfront n Hn) as [?|[d' Hd']]; [left; by right |].
      right. exists d'. by apply Hkeep. }
  destruct (String.eqb_spec current end_) as [->|Hne].
  { exists st, pq1, (end_ :: vis). split_and!; auto; [|right; left].
    intros v e [->|Hv]%elem_of_cons Hv' He; [done |]. by apply (Hcl v e). }
  destruct (graph self !! current) as [edges|] eqn:Hedges.
  - pose proof (remaining_visit_Some _ _ _ _ Hedges Hvis) as Hrem.
    destruct (relax_fold_reach (current :: vis) current edges edges st pq1)
      as (st2 & pq2 & -> & ? & ? & ? & ? & S1 & S2 & ?); auto; [|left |].
    { intros v e [->|Hv]%elem_of_cons Hvc Hve He; [done |].
      by apply (Hcl v e). }
    cbn [mbind exc_bind]. apply IH; auto; [by left | | lia].
    intros v e [->|Hv]%elem_of_cons Hv' (es' & Hes' & He).
    + rewrite Hedges in Hes'. injection Hes' as <-. by apply S2.
    + apply S1. apply (Hcl v e); [done | done |]. by exists es'.
  - apply IH; auto; [by left | | rewrite remaining_visit_None by done; lia].
    intros v e [->|Hv]%elem_of_cons Hv' (es' & Hes' & He).
    + congruence.
    + apply (Hcl v e); [done | done |]. by exists es'.
Qed.

Lemma dijkstra_init_reach :
  start ∈ keys self →
  reach_inv self start cw tw conv
    {| distances := <[start := Fin 0]> (dict_from_keys (locations self) PInf);
       costs := <[start := Fin 0]> (dict_from_keys (locations self) PInf);
       times := <[start := Fin 0]> (dict_from_keys (locations self) PInf);
       distances_km := <[start := Fin 0]> (dict_from_keys (locations self) PInf);
       transfers := <[start := 0%Z]> (dict_from_keys (locations self) 0%Z);
       previous := dict_from_keys (locations self) None;
       edge_info := dict_from_keys (locations self) None |}
    [(Fin 0, start)] [].
Proof.
  intros HK. unfold keys in HK.
  split; unfold scored, untouched;
    cbn [distances costs times distances_km transfers previous edge_info].
  - intros n d. destruct (decide (start = n)) as [<-|Hn].
    + rewrite lookup_insert_eq. intros [= <-]. right. by exists 0%Q.
    + rewrite lookup_insert_ne by done. rewrite dict_from_keys_lookup.
      case_bool_decide; [|done]. intros [= <-]. by left.
  - rewrite !lookup_insert_eq, dict_from_keys_lookup.
    by rewrite bool_decide_eq_true_2.
  - intros d n [= -> ->]%list_elem_of_singleton.
    split; [by exists 0%Q |]. exists 0%Q. by rewrite lookup_insert_eq.
  - by intros v ?%elem_of_nil.
  - intros n [q Hq]. right. exists (Fin 0).
    destruct (decide (start = n)) as [<-|Hn]; [left |].
    rewrite lookup_insert_ne in Hq by done.
    rewrite dict_from_keys_lookup in Hq. by case_bool_decide.
  - intros n Hn. rewrite !lookup_insert_ne by done.
    rewrite !dict_from_keys_lookup. by case_bool_decide.
  - intros n c. rewrite dict_from_keys_lookup. by case_bool_decide.
Qed.

(** [_dijkstra] returns; the state it returns satisfies the
    invariants for the list of the nodes it closed, which holds the
    start, and the destination too unless the heap ran empty. *)
Lemma dijkstra_reach_with :
  start ∈ keys self → K (initial_state self start) →
  ∃ st pq vis,
    _dijkstra self start end_ cw tw conv = Ok st ∧
    search_inv self start st vis ∧
    reach_inv self start cw tw conv st pq vis ∧
    closure self end_ st vis ∧ K st ∧
    start ∈ vis ∧ (pq = [] ∨ end_ ∈ vis).
Proof.
  intros HK HK0. unfold _dijkstra. cbv zeta.
  apply dijkstra_loop_reach.
  - by apply dijkstra_init_inv.
  - intros x ->%list_elem_of_singleton. split; [done | by left].
  - by right.
  - by apply dijkstra_init_reach.
  - by intros v e ?%elem_of_nil.
  - exact HK0.
  - rewrite edge_count_remaining. simpl. lia.
Qed.
End ReachWith.

Section Reach.
Variable self : Optimizer.
Hypothesis Hwf : graph_wf self.
Variables (start end_ : string) (cw tw conv : Q).

Lemma dijkstra_reach :
  start ∈ keys self →
  ∃ st pq vis,
    _dijkstra self start end_ cw tw conv = Ok st ∧
    search_inv self start st vis ∧
    reach_inv self start cw tw conv st pq vis ∧
    closure self end_ st vis ∧
    start ∈ vis ∧ (pq = [] ∨ end_ ∈ vis).
Proof.
  intros HK.
  destruct (dijkstra_reach_with self Hwf start end_ cw tw conv (λ _, True))
    as (st & pq & vis & ? & ? & ? & ? & _ & ? & ?); auto.
  by exists st, pq, vis.
Qed.

(** When the heap ran empty, the closed nodes are closed under the
    edges of the graph. *)
Lemma closed_connected st vis v w :
  reach_inv self start cw tw conv st [] vis → closure self end_ st vis →
  end_ ∉ vis → connected self v w → v ∈ vis → w ∈ vis.
Proof.
  intros Hri Hcl Hend. induction 1 as [|v e w He Hc IH]; [done |].
  intros Hv. apply IH.
  assert (v ≠ end_) as Hne by (intros ->; done).
  destruct (ri_frontier _ _ _ _ _ _ _ _ Hri _ (Hcl v e Hv Hne He))
    as [?|[d Hd]]; [done | by apply elem_of_nil in Hd].
Qed.

(** The predecessor links follow edges of the graph. *)
Lemma chain_connected st vis n l es :
  search_inv self start st vis → chain st start n l es →
  connected self start n.
Proof.
  intros Hinv. induction 1 as [Hroot|n c l es e Hp He Hch IH];
    [constructor |].
  destruct (inv_edge _ _ _ _ Hinv n c Hp)
    as (e' & _ & _ & _ & _ & Hd & Hedge & _).
  apply (connected_trans _ _ c); [exact IH |].
  rewrite <- Hd. econstructor; [exact Hedge | constructor].
Qed.

(** The destination gets a predecessor exactly when it can be
    reached from the start. *)
Lemma dijkstra_complete :
  start ∈ keys self → end_ ∈ keys self → start ≠ end_ →
  ∃ st,
    _dijkstra self start end_ cw tw conv = Ok st ∧
    ((connected self start end_ ∧ ∃ c, previous st !! end_ = Some (Some c)) ∨
     (¬ connected self start end_ ∧ untouched st end_)).
Proof.
  intros Hs He Hne.
  destruct (dijkstra_reach Hs)
    as (st & pq & vis & Hst & Hinv & Hri & Hcl & Hsv & Hexit).
  exists st. split; [exact Hst |].
  destruct (inv_dom _ _ _ _ Hinv _ He) as (_ & _ & _ & _ & _ & [p Hp] & _).
  destruct p as [c|].
  - left. split; [|by exists c].
    destruct (chain_exists self start st vis Hinv end_ c He Hp)
      as (l & es & Hch & _).
    by apply (chain_connected st vis end_ l es).
  - right. split; [|apply (ri_untouched _ _ _ _ _ _ _ _ Hri); auto].
    intros Hc.
    assert (end_ ∈ vis) as Hev.
    { destruct Hexit as [->|?]; [|done].
      destruct (decide (end_ ∈ vis)) as [?|Hn]; [done |].
      by apply (closed_connected st vis start end_). }
    destruct (inv_root _ _ _ _ Hinv end_ Hev (not_eq_sym Hne)) as [c Hc'].
    congruence.
Qed.
End Reach.

(** * Further properties of the search *)

Lemma aluva_key (M : MathLib) : "Aluva Metro" ∈ keys (kochi M).
Proof. exact (proj1 (kochi_edge_keys M _ _ (aluva_hop M))). Qed.

Lemma pulinchodu_key (M : MathLib) : "Pulinchodu Metro" ∈ keys (kochi M).
Proof. exact (proj2 (kochi_edge_keys M _ _ (aluva_hop M))). Qed.

Lemma aluva_connected (M : MathLib) :
  connected (kochi M) "Aluva Metro" "Pulinchodu Metro".
Proof.
  eapply connected_step; [exact (aluva_hop M) | constructor].
Qed.

(** X9.  On a graph whose edges lead to catalogued locations, a search
    from a catalogued start returns: no lookup fails and the loop
    ends.  The result has an entry for every catalogued location in
    each of its seven tables, and for the start it holds score, cost,
    time and distance 0, no transfer, no predecessor and no edge. *)
Theorem X9_search_returns (self : Optimizer) (start end_ : string)
    (cw tw conv : Q) :
  graph_wf self → start ∈ keys self →
  ∃ st,
    _dijkstra self start end_ cw tw conv = Ok st ∧
    (∀ k, k ∈ keys self →
       is_Some (distances st !! k) ∧ is_Some (costs st !! k) ∧
       is_Some (times st !! k) ∧ is_Some (distances_km st !! k) ∧
       is_Some (transfers st !! k) ∧ is_Some (previous st !! k) ∧
       is_Some (edge_info st !! k)) ∧
    distances st !! start = Some (Fin 0) ∧
    costs st !! start = Some (Fin 0) ∧
    times st !! start = Some (Fin 0) ∧
    distances_km st !! start = Some (Fin 0) ∧
    transfers st !! start = Some 0%Z ∧
    previous st !! start = Some None ∧
    edge_info st !! start = Some None.
Proof.
  intros Hwf Hs.
  destruct (dijkstra_reach self Hwf start end_ cw tw conv Hs)
    as (st & pq & vis & Hst & Hinv & Hri & _).
  exists st. split; [exact Hst |].
  destruct (inv_start0 _ _ _ _ Hinv) as (? & ? & ?).
  destruct (ri_start _ _ _ _ _ _ _ _ Hri) as (? & ? & ?).
  split_and!; try done.
  - apply (inv_dom _ _ _ _ Hinv).
  - apply (inv_start _ _ _ _ Hinv).
Qed.

Lemma X9_search_returns_witness :
  ∃ st,
    _dijkstra (kochi ref_math) "Aluva Metro" "Pulinchodu Metro" 0.8 0.1 0.1
    = Ok st ∧
    (∀ k, k ∈ keys (kochi ref_math) →
       is_Some (distances st !! k) ∧ is_Some (costs st !! k) ∧
       is_Some (times st !! k) ∧ is_Some (distances_km st !! k) ∧
       is_Some (transfers st !! k) ∧ is_Some (previous st !! k) ∧
       is_Some (edge_info st !! k)) ∧
    distances st !! "Aluva Metro" = Some (Fin 0) ∧
    costs st !! "Aluva Metro" = Some (Fin 0) ∧
    times st !! "Aluva Metro" = Some (Fin 0) ∧
    distances_km st !! "Aluva Metro" = Some (Fin 0) ∧
    transfers st !! "Aluva Metro" = Some 0%Z ∧
    previous st !! "Aluva Metro" = Some None ∧
    edge_info st !! "Aluva Metro" = Some None.
Proof.
  exact (X9_search_returns (kochi ref_math) "Aluva Metro" "Pulinchodu Metro"
           0.8 0.1 0.1 (kochi_wf ref_math) (aluva_key ref_math)).
Defined.

Section Queries.
Variable self : Optimizer.
Hypothesis Hwf : graph_wf self.
Variables (start end_ : string).
Hypothesis Hstart : start ∈ keys self.
Hypothesis Hend : end_ ∈ keys self.
Hypothesis Hne : start ≠ end_.

Lemma connected_reaches s :
  connected self start end_ → reaches self start end_ s.
Proof.
  intros Hc.
  destruct (dijkstra_complete self Hwf start end_ (strat_cost s)
              (strat_time s) (strat_conv s) Hstart Hend Hne)
    as (st & Hst & [[_ [c Hp]]|[Hn _]]); [|done].
  by exists st, c.
Qed.

Lemma reaches_connected s :
  reaches self start end_ s → connected self start end_.
Proof.
  intros (st & c & Hst & Hp).
  destruct (dijkstra_complete self Hwf start end_ (strat_cost s)
              (strat_time s) (strat_conv s) Hstart Hend Hne)
    as (st' & Hst' & [[Hc _]|[_ Hu]]); [done |].
  rewrite Hst in Hst'. injection Hst' as <-.
  destruct Hu as (_ & _ & _ & _ & _ & Hp' & _). congruence.
Qed.

(** A query between distinct catalogued locations returns routes when
    the destination can be reached, and the no-route error when not. *)
Lemma find_connected :
  (connected self start end_ ∧
   ∃ r rs, find_optimized_routes self start end_
           = Ok (RouteDict <$> r :: rs)) ∨
  (¬ connected self start end_ ∧
   find_optimized_routes self start end_
   = Ok [ErrorDict (msg_no_route start end_)]).
Proof.
  destruct (find_valid_ranked self start end_ Hwf Hstart Hend Hne)
    as (all_routes & Hcol & Hfind).
  destruct (dijkstra_complete self Hwf start end_ 0 0 0 Hstart Hend Hne)
    as (_ & _ & [[Hc _]|[Hc _]]).
  - left. split; [exact Hc |].
    destruct (ranked all_routes) as [|r rs] eqn:E; [|by exists r, rs].
    apply ranked_nil in E.
    pose proof (proj1 (collected_nil_iff _ _ _ _ _ Hcol) E) as E'.
    destruct (E' (List.hd {| strat_name := EmptyString; strat_cost := 0;
                            strat_time := 0; strat_conv := 0 |} strategies)).
    + left.
    + by apply connected_reaches.
  - right. split; [exact Hc |].
    assert (all_routes = []) as ->.
    { apply (proj2 (collected_nil_iff _ _ _ _ _ Hcol)).
      intros s _ Hr. by apply Hc, (reaches_connected s). }
    exact Hfind.
Qed.
End Queries.

Lemma edges_catalogued_spec (self : Optimizer) :
  edges_catalogued self = true → graph_wf self.
Proof.
  unfold edges_catalogued. rewrite forallb_forall. intros H v es e Hes He.
  assert (In (v, es) (map_to_list (graph self))) as Hin.
  { apply list_elem_of_In, elem_of_map_to_list, Hes. }
  specialize (H _ Hin). cbn [snd] in H. rewrite forallb_forall in H.
  specialize (H e (proj1 (list_elem_of_In _ _) He)).
  by apply bool_decide_eq_true in H.
Qed.

(** X11.  A query between two distinct catalogued locations of a
    well-formed graph whose destination cannot be reached from the
    start along edges of the graph answers with the no-route error; so
    whenever a query returns a route, the destination can be reached
    along edges. *)
Theorem X11_unreachable_no_route (self : Optimizer)
    (start_location end_location : string) :
  graph_wf self →
  start_location ∈ keys self → end_location ∈ keys self →
  start_location ≠ end_location →
  (¬ connected self start_location end_location →
   find_optimized_routes self start_location end_location
   = Ok [ErrorDict (msg_no_route start_location end_location)]) ∧
  (∀ res r,
     find_optimized_routes self start_location end_location = Ok res →
     RouteDict r ∈ res → connected self start_location end_location).
Proof.
  intros Hwf Hs He Hne.
  destruct (find_connected self Hwf start_location end_location Hs He Hne)
    as [[Hc _]|[Hc Hfind]].
  - split; [by intros [] | by intros].
  - split; [by intros _ |].
    intros res r Hres Hr. rewrite Hfind in Hres. injection Hres as <-.
    by apply list_elem_of_singleton in Hr.
Qed.

Lemma X11_unreachable_no_route_witness :
  (¬ connected island_net "A" "C" →
   find_optimized_routes island_net "A" "C"
   = Ok [ErrorDict (msg_no_route "A" "C")]) ∧
  (∀ res r,
     find_optimized_routes island_net "A" "C" = Ok res →
     RouteDict r ∈ res → connected island_net "A" "C").
Proof.
  apply (X11_unreachable_no_route island_net "A" "C").
  - apply edges_catalogued_spec. vm_compute. reflexivity.
  - apply (bool_decide_unpack _). vm_compute. exact I.
  - apply (bool_decide_unpack _). vm_compute. exact I.
  - discriminate.
Defined.

(** On [island_net] nothing leads to C, and the query from A to C
    answers with the no-route error. *)
Lemma island_no_route :
  find_optimized_routes island_net "A" "C"
  = Ok [ErrorDict (msg_no_route "A" "C")].
Proof. vm_compute. reflexivity. Qed.

(** The metro line joins all its stations. *)
Lemma line_connected (M : MathLib) (n i : nat) (a b : string) :
  station_names !! i = Some a → station_names !! (i + n)%nat = Some b →
  connected (kochi M) a b ∧ connected (kochi M) b a.
Proof.
  revert b. induction n as [|n IH]; intros b Ha Hb.
  - rewrite Nat.add_0_r in Hb. rewrite Ha in Hb. injection Hb as <-.
    split; constructor.
  - replace (i + S n)%nat with (S (i + n)) in Hb by lia.
    destruct (station_names !! (i + n)%nat) as [c|] eqn:Hc.
    2:{ apply lookup_ge_None in Hc. apply lookup_lt_Some in Hb. lia. }
    destruct (IH c Ha eq_refl) as [Hac Hca].
    destruct (station_names_lookup _ _ Hc) as (la1 & lo1 & z1 & H1).
    destruct (station_names_lookup _ _ Hb) as (la2 & lo2 & z2 & H2).
    assert (has_edge (kochi M) c
              {| destination := b; mode := "metro"; time := 2.5;
                 distance := _haversine_distance M la1 lo1 la2 lo2;
                 cost := 5 |}) as Hcb.
    { apply kochi_has_edge.
      apply (metro_hop_in M _ _ _ _ _ _ _ _ _ _ H1 H2). left. }
    assert (has_edge (kochi M) b
              {| destination := c; mode := "metro"; time := 2.5;
                 distance := _haversine_distance M la1 lo1 la2 lo2;
                 cost := 5 |}) as Hbc.
    { apply kochi_has_edge.
      apply (metro_hop_in M _ _ _ _ _ _ _ _ _ _ H1 H2). right; left. }
    split.
    + apply (connected_trans _ _ c); [exact Hac |].
      eapply connected_step; [exact Hcb | constructor].
    + eapply connected_step; [exact Hbc | exact Hca].
Qed.

Lemma stations_connected (M : MathLib) (a b : string) :
  a ∈ station_names → b ∈ station_names → connected (kochi M) a b.
Proof.
  intros [i Hi]%list_elem_of_lookup [j Hj]%list_elem_of_lookup.
  destruct (decide (i ≤ j)%nat) as [Hij|Hij].
  - apply (line_connected M (j - i) i a b Hi).
    by replace (i + (j - i))%nat with j by lia.
  - apply (line_connected M (i - j) j b a Hj).
    by replace (j + (i - j))%nat with i by lia.
Qed.

Lemma station_key (M : MathLib) (a : string) :
  a ∈ station_names → a ∈ keys (kochi M).
Proof.
  intros [i Hi]%list_elem_of_lookup.
  destruct (station_names_lookup _ _ Hi) as (la & lo & z & H).
  rewrite kochi_keys. eapply dict_get_Some_key, station_info, H.
Qed.

(** X12.  Between two different metro stations a route is always
    found, whatever the math library computes for the distances. *)
Theorem X12_stations_always_routed (M : MathLib)
    (start_location end_location : string) :
  start_location ∈ station_names → end_location ∈ station_names →
  start_location ≠ end_location →
  ∃ r rs,
    find_optimized_routes (kochi M) start_location end_location
    = Ok (RouteDict <$> r :: rs).
Proof.
  intros Hs He Hne.
  destruct (find_connected (kochi M) (kochi_wf M) start_location end_location
              (station_key M _ Hs) (station_key M _ He) Hne)
    as [[_ ?]|[Hn _]]; [done |].
  destruct Hn. by apply stations_connected.
Qed.

Lemma X12_stations_always_routed_witness :
  ∃ r rs,
    find_optimized_routes (kochi ref_math) "Aluva Metro" "Petta Metro"
    = Ok (RouteDict <$> r :: rs).
Proof.
  apply (X12_stations_always_routed ref_math "Aluva Metro" "Petta Metro").
  - apply (bool_decide_unpack _). vm_compute. exact I.
  - apply (bool_decide_unpack _). vm_compute. exact I.
  - discriminate.
Defined.

(** * What the search records *)

Lemma mode_changes_snoc es : ∀ prev e,
  mode_changes prev (es ++ [e])
  = (mode_changes prev es
     + if mode_changed (match last es with Some x => Some x | None => prev end) e
       then 1 else 0)%Z.
Proof.
  induction es as [|x es IH]; intros prev e.
  - simpl. lia.
  - cbn [app mode_changes]. rewrite IH, last_cons.
    destruct (last es); lia.
Qed.

Section Records.
Variable self : Optimizer.
Hypothesis Hwf : graph_wf self.
Variables (start : string) (cw tw conv : Q).
Variables (st : SearchState) (pq : heap) (vis : list string).
Hypothesis Hinv : search_inv self start st vis.
Hypothesis Hri : reach_inv self start cw tw conv st pq vis.

Lemma chain_transfers n l es :
  chain st start n l es →
  transfers st !! n = Some (mode_changes None (reverse es)) ∧
  edge_info st !! n = Some (head es).
Proof.
  induction 1 as [Hroot|n c l es e Hp He Hch [IH1 IH2]].
  - destruct (ri_start _ _ _ _ _ _ _ _ Hri) as (_ & ? & ?). by split.
  - split; [|done].
    destruct (ri_reached _ _ _ _ _ _ _ _ Hri n c Hp)
      as (e' & tr & info & _ & _ & He' & Htr & Hinfo & Htn & _).
    rewrite He in He'. injection He' as <-.
    rewrite IH1 in Htr. injection Htr as <-.
    rewrite IH2 in Hinfo. injection Hinfo as <-.
    rewrite Htn. f_equal.
    rewrite reverse_cons, mode_changes_snoc, last_reverse.
    unfold transfers_after. destruct (head es); destruct (mode_changed _ e); lia.
Qed.
End Records.

(** X15.  The transfer count recorded for a location is the number of
    changes of mode along the edges that the predecessor links record
    from the start to the location. *)
Theorem X15_transfers_count (self : Optimizer) (start end_ : string)
    (cw tw conv : Q) :
  graph_wf self → start ∈ keys self →
  ∃ st,
    _dijkstra self start end_ cw tw conv = Ok st ∧
    ∀ n l es, chain st start n l es →
      transfers st !! n = Some (mode_changes None (reverse es)).
Proof.
  intros Hwf Hs.
  destruct (dijkstra_reach self Hwf start end_ cw tw conv Hs)
    as (st & pq & vis & Hst & Hinv & Hri & _).
  exists st. split; [exact Hst |]. intros n l es Hch.
  exact (proj1 (chain_transfers self start cw tw conv st pq vis Hri n l es Hch)).
Qed.

Lemma X15_transfers_count_witness :
  ∃ st,
    _dijkstra (kochi ref_math) "Aluva Metro" "Pulinchodu Metro" 0.8 0.1 0.1
    = Ok st ∧
    ∀ n l es, chain st "Aluva Metro" n l es →
      transfers st !! n = Some (mode_changes None (reverse es)).
Proof.
  exact (X15_transfers_count (kochi ref_math) "Aluva Metro"
           "Pulinchodu Metro" 0.8 0.1 0.1 (kochi_wf ref_math)
           (aluva_key ref_math)).
Defined.

(** * An edge that leaves the catalogue *)

Section Dangling.
Variable self : Optimizer.
Variables (start end_ bad : string) (cw tw conv : Q).

Abbreviation ready := (ready start bad).

Lemma relax_dangling st pq vis edge :
  ready st → bad ∉ vis →
  (destination edge = bad →
   relax cw tw conv vis start (st, pq) edge = Raise KeyError) ∧
  (relax cw tw conv vis start (st, pq) edge = Raise KeyError ∨
   ∃ st' pq', relax cw tw conv vis start (st, pq) edge = Ok (st', pq') ∧
              ready st').
Proof.
  intros ([cc Hcc] & [ct Hct] & [cd Hcd] & [tr Htr] & [info Hinfo] & Hbad)
    Hvis.
  rewrite relax_eq.
  rewrite (getitem_Some _ _ _ Hcc), (getitem_Some _ _ _ Hct),
    (getitem_Some _ _ _ Hcd), (getitem_Some _ _ _ Htr),
    (getitem_Some _ _ _ Hinfo). cbn [mbind exc_bind]. cbv zeta. split.
  - intros ->. rewrite bool_decide_eq_false_2 by done.
    unfold getitem. by rewrite Hbad.
  - case_bool_decide; [right; exists st, pq; split; [done |] |].
    { unfold ready. rewrite Hcc, Hct, Hcd, Htr, Hinfo. by split_and!. }
    destruct (distances st !! destination edge) as [best|] eqn:Hbest.
    2:{ left. unfold getitem. by rewrite Hbest. }
    right. rewrite (getitem_Some _ _ _ Hbest). cbn [mbind exc_bind].
    match goal with |- context [flt ?c best] => destruct (flt c best) end.
    + eexists _, _. split; [reflexivity |].
      unfold ready, record_reached.
      cbn [distances costs times distances_km transfers previous edge_info].
      rewrite !lookup_insert_is_Some', Hcc, Hct, Hcd, Htr, Hinfo.
      split_and!; eauto.
      rewrite lookup_insert_ne; [done |].
      intros E. by rewrite E, Hbad in Hbest.
    + exists st, pq. split; [done |].
      unfold ready. rewrite Hcc, Hct, Hcd, Htr, Hinfo. by split_and!.
Qed.

Lemma fold_dangling vis l : ∀ st pq,
  ready st → bad ∉ vis →
  (∃ e, e ∈ l ∧ destination e = bad) →
  foldM (relax cw tw conv vis start) (st, pq) l = Raise KeyError.
Proof.
  induction l as [|e' l IH]; intros st pq Hr Hvis (e & He & Hd).
  - by apply elem_of_nil in He.
  - cbn [foldM].
    destruct (relax_dangling st pq vis e' Hr Hvis) as [Hbad Hstep].
    apply elem_of_cons in He as [<-|He].
    + by rewrite (Hbad Hd).
    + destruct Hstep as [->|(st' & pq' & -> & Hr')]; [done |].
      cbn [mbind exc_bind]. apply IH; [done | done |]. by exists e.
Qed.

Hypothesis Hstart : start ∈ keys self.
Hypothesis Hbad : bad ∉ keys self.
Hypothesis Hne : start ≠ end_.

Lemma dijkstra_dangling es e :
  graph self !! start = Some es → e ∈ es → destination e = bad →
  _dijkstra self start end_ cw tw conv = Raise KeyError.
Proof.
  intros Hes He Hd. unfold _dijkstra. cbv zeta.
  cbn [Nat.add dijkstra_loop]. rewrite heappop_singleton.
  rewrite bool_decide_eq_false_2 by apply not_elem_of_nil.
  rewrite (proj2 (String.eqb_neq _ _) Hne), Hes.
  assert (bad ≠ start) as Hbs by (intros ->; done).
  rewrite (fold_dangling [start] es); [done | | |by exists e].
  - unfold ready.
    cbn [distances costs times distances_km transfers previous edge_info].
    rewrite !lookup_insert_eq, lookup_insert_ne by done.
    rewrite !dict_from_keys_lookup.
    unfold keys in Hstart, Hbad.
    rewrite bool_decide_eq_true_2, bool_decide_eq_false_2 by done.
    by split_and!.
  - by intros ->%list_elem_of_singleton.
Qed.
End Dangling.

Transparent find_optimized_routes.

Lemma find_dangling self start end_ bad es e :
  start ∈ keys self → end_ ∈ keys self → bad ∉ keys self → start ≠ end_ →
  graph self !! start = Some es → e ∈ es → destination e = bad →
  find_optimized_routes self start end_ = Raise KeyError.
Proof.
  intros Hs He Hb Hne Hes Hin Hd. unfold find_optimized_routes.
  rewrite (proj2 (dict_mem_key _ _) Hs), (proj2 (dict_mem_key _ _) He).
  cbn [negb]. rewrite (proj2 (String.eqb_neq _ _) Hne).
  unfold strategies. cbn [foldM].
  assert (∀ rs s, run_strategy self start end_ rs s = Raise KeyError) as Hrun.
  { intros rs s. unfold run_strategy.
    by rewrite (dijkstra_dangling self start end_ bad _ _ _ Hs Hb Hne es e
                  Hes Hin Hd). }
  by rewrite Hrun.
Qed.

Opaque find_optimized_routes.

(** X16.  When an edge out of the start leads to a location that is not
    in the catalogue, the search raises [KeyError], and so does a query
    from that start to any other catalogued location. *)
Theorem X16_dangling_edge_raises (self : Optimizer)
    (start_location end_location : string) (es : list Edge) (e : Edge)
    (cw tw conv : Q) :
  start_location ∈ keys self → end_location ∈ keys self →
  start_location ≠ end_location →
  graph self !! start_location = Some es → e ∈ es →
  destination e ∉ keys self →
  _dijkstra self start_location end_location cw tw conv = Raise KeyError ∧
  find_optimized_routes self start_location end_location = Raise KeyError.
Proof.
  intros Hs He Hne Hes Hin Hbad. split.
  - by apply (dijkstra_dangling self start_location end_location
                (destination e) cw tw conv Hs Hbad Hne es e).
  - by apply (find_dangling self start_location end_location
                (destination e) es e).
Qed.

Lemma X16_dangling_edge_raises_witness :
  _dijkstra dangling_net "A" "B" 0.8 0.1 0.1 = Raise KeyError ∧
  find_optimized_routes dangling_net "A" "B" = Raise KeyError.
Proof.
  apply (X16_dangling_edge_raises dangling_net "A" "B"
           [ {| destination := "Z"; mode := "walk"; time := 15;
                distance := 1; cost := 5 |} ]
           {| destination := "Z"; mode := "walk"; time := 15;
              distance := 1; cost := 5 |}).
  - apply (bool_decide_unpack _). vm_compute. exact I.
  - apply (bool_decide_unpack _). vm_compute. exact I.
  - discriminate.
  - vm_compute. reflexivity.
  - left.
  - apply (bool_decide_unpack _). vm_compute. exact I.
Defined.

(** * The routes as walks in the graph *)

Section Trace.
Variable self : Optimizer.
Variables (start end_ : string).
Variables (st : SearchState) (vis : list string).
Hypothesis Hinv : search_inv self start st vis.

Lemma chain_head n l es : chain st start n l es → head l = Some n.
Proof. by destruct 1. Qed.

(** The links from a closed node lead through nodes closed before
    it, each of them once. *)
Lemma chain_within c l es :
  chain st start c l es → ∀ a b, vis = (a ++ c :: b)%list →
  (∀ x, x ∈ l → x ∈ c :: b) ∧ NoDup l.
Proof.
  induction 1 as [Hroot|n c l es e Hp He Hch IH]; intros a b Hvis.
  - split; [intros x ->%list_elem_of_singleton; left | apply NoDup_singleton].
  - destruct (inv_chain _ _ _ _ Hinv n c Hp) as [_ Hpos].
    specialize (Hpos a b Hvis).
    apply list_elem_of_split in Hpos as (b1 & b2 & ->).
    destruct (IH (a ++ n :: b1)%list b2) as [Hsub Hnd];
      [by rewrite <- app_assoc |].
    assert (n ∉ l) as Hn.
    { intros Hin%Hsub.
      pose proof (inv_nodup _ _ _ _ Hinv) as Hv. rewrite Hvis in Hv.
      apply NoDup_app in Hv as (_ & _ & Hv).
      apply NoDup_cons in Hv as [Hv _].
      apply Hv, elem_of_app. by right. }
    split.
    + intros x [->|Hx]%elem_of_cons; [left |]. right.
      apply elem_of_app. right. by apply Hsub.
    + by constructor.
Qed.

Lemma chain_nodup n l es : chain st start n l es → NoDup l.
Proof.
  intros Hch. destruct (decide (n ∈ vis)) as [Hn|Hn].
  - apply list_elem_of_split in Hn as (a & b & Hvis).
    exact (proj2 (chain_within n l es Hch a b Hvis)).
  - destruct Hch as [Hroot|n c l es e Hp He Hch]; [apply NoDup_singleton |].
    destruct (inv_chain _ _ _ _ Hinv n c Hp) as [Hc _].
    apply list_elem_of_split in Hc as (a & b & Hvis).
    destruct (chain_within c l es Hch a b Hvis) as [Hsub Hnd].
    constructor; [|done].
    intros Hin%Hsub. apply Hn. rewrite Hvis. apply elem_of_app. by right.
Qed.

(** The steps built along the links. *)
Lemma chain_follow n l es :
  chain st start n l es → (∀ x, x ∈ l → x ∈ keys self) →
  ∃ r s0 ss,
    reverse l = start :: r ∧
    detail self st true start = Ok s0 ∧ detail_rest self st r = Ok ss ∧
    location <$> s0 :: ss = start :: r ∧ step_mode s0 = "start" ∧
    (∀ s, s ∈ s0 :: ss →
       ∃ info, dict_get (locations self) (location s) = Some info ∧
               step_type s = type info) ∧
    follows_edges self (s0 :: ss).
Proof.
  induction 1 as [Hroot|n c l es e Hp He Hch IH]; intros HK.
  - assert (start ∈ keys self) as Hs by (apply HK; left).
    apply dict_get_key in Hs as [info Hinfo].
    exists [].
    exists {| location := start; step_type := type info;
              step_mode := "start"; segment_time := 0; segment_cost := 0;
              segment_distance := 0 |}, [].
    split_and!; try done.
    + cbn [detail]. unfold dict_getitem. by rewrite Hinfo.
    + intros s ->%list_elem_of_singleton. by exists info.
  - destruct IH as (r & s0 & ss & Hr & Hs0 & Hss & Hloc & Hm0 & Hty & Hfol).
    { intros x Hx. apply HK. by right. }
    destruct (inv_edge _ _ _ _ Hinv n c Hp)
      as (e' & _ & _ & _ & He' & Hd & Hedge & _).
    rewrite He in He'. injection He' as <-.
    assert (n ∈ keys self) as HnK by (apply HK; left).
    apply dict_get_key in HnK as [info Hinfo].
    set (sn := {| location := n; step_type := type info;
                  step_mode := mode e;
                  segment_time := round_q (time e) 1;
                  segment_cost := round_q (cost e) 2;
                  segment_distance := round_q (distance e) 2 |}).
    exists (r ++ [n])%list, s0, (ss ++ [sn])%list. split_and!.
    + by rewrite reverse_cons, Hr.
    + done.
    + rewrite detail_rest_app, Hss. cbn [mbind exc_bind detail_rest detail].
      rewrite (getitem_Some _ _ _ He). cbn [mbind exc_bind].
      unfold dict_getitem. rewrite Hinfo. reflexivity.
    + rewrite (app_comm_cons ss), fmap_app, Hloc. reflexivity.
    + done.
    + rewrite (app_comm_cons ss).
      intros s [Hs | ->%list_elem_of_singleton]%elem_of_app; [by apply Hty |].
      by exists info.
    + rewrite (app_comm_cons ss). intros i s1 s2 H1 H2.
      destruct (decide (S i < length (s0 :: ss))%nat) as [Hlt|Hge].
      * rewrite lookup_app_l in H1, H2 by lia. by apply (Hfol i).
      * assert (S i = length (s0 :: ss)) as Hi.
        { apply lookup_lt_Some in H2. rewrite length_app in H2.
          simpl in *. lia. }
        rewrite lookup_app_l in H1 by lia.
        rewrite lookup_app_r in H2 by lia.
        replace (S i - length (s0 :: ss))%nat with 0%nat in H2 by lia.
        injection H2 as <-.
        assert (location s1 = c) as Hc.
        { pose proof (chain_head _ _ _ Hch) as Hh.
          rewrite <- last_reverse, Hr, <- Hloc, last_lookup in Hh.
          rewrite length_fmap, <- Hi in Hh. cbn [pred] in Hh.
          rewrite list_lookup_fmap, H1 in Hh. by injection Hh. }
        exists e. rewrite Hc. split; [exact Hedge |]. by split_and!.
Qed.

Lemma reconstruct_trace c :
  end_ ∈ keys self → previous st !! end_ = Some (Some c) →
  ∃ s0 ss,
    _reconstruct_path self start end_ st = Ok (s0 :: ss) ∧
    step_mode s0 = "start" ∧
    (∀ s, s ∈ s0 :: ss →
       ∃ info, dict_get (locations self) (location s) = Some info ∧
               step_type s = type info) ∧
    NoDup (location <$> s0 :: ss) ∧
    follows_edges self (s0 :: ss).
Proof.
  intros HK Hc.
  destruct (chain_exists self start st vis Hinv end_ c HK Hc)
    as (l & es & Hch & Hlen & _ & HlK).
  destruct (chain_follow _ _ _ Hch HlK)
    as (r & s0 & ss & Hr & Hs0 & Hss & Hloc & Hm0 & Hty & Hfol).
  exists s0, ss. split_and!; try done.
  - unfold _reconstruct_path.
    rewrite (walk_back_chain st start _ _ _ _ _ Hch) by (simpl; lia).
    cbn [mbind exc_bind app]. rewrite Hr, String.eqb_refl. cbn [negb].
    by rewrite Hs0, Hss.
  - rewrite Hloc, <- Hr, reverse_Permutation. by eapply chain_nodup.
Qed.
End Trace.

Section Gather.
Variable self : Optimizer.
Hypothesis Hwf : graph_wf self.
Variables (start end_ : string).
Hypothesis Hstart : start ∈ keys self.
Hypothesis Hend : end_ ∈ keys self.

Lemma run_strategy_trace rs s :
  Forall (route_trace self) rs →
  ∃ rs', run_strategy self start end_ rs s = Ok rs' ∧
         Forall (route_trace self) rs'.
Proof.
  intros Hrs.
  destruct (dijkstra_ok self Hwf start end_
              (strat_cost s) (strat_time s) (strat_conv s) Hstart)
    as (st & vis & Hst & Hinv).
  destruct (inv_dom _ _ _ _ Hinv _ Hend) as (_ & _ & _ & _ & _ & [p Hp] & _).
  unfold run_strategy. rewrite Hst. cbn [mbind exc_bind].
  rewrite (getitem_Some _ _ _ Hp). cbn [mbind exc_bind].
  destruct p as [c|]; [|by exists rs].
  destruct (reconstruct_trace self start end_ st vis Hinv c Hend Hp)
    as (s0 & ss & Hrec & Hm0 & Hty & Hnd & Hfol).
  destruct (reconstruct_ok self start end_ st vis Hinv c Hend Hp)
    as (s0' & ss' & es & Hrec' & Hne & _ & _ & _ & _ & _ & _ & _
        & tc & tt & td & Hc1 & _ & Ht1 & _ & Hd1 & _).
  rewrite Hrec in Hrec'. injection Hrec' as <- <-.
  rewrite Hrec. cbn [mbind exc_bind].
  rewrite (getitem_Some _ _ _ Hc1), (getitem_Some _ _ _ Ht1),
    (getitem_Some _ _ _ Hd1). cbn [mbind exc_bind py_round].
  eexists. split; [reflexivity |].
  apply Forall_app. split; [exact Hrs |]. constructor; [|constructor].
  split; cbn [path num_segments]; try done.
  by exists s0, ss.
Qed.

Lemma run_strategies_trace ss : ∀ acc,
  Forall (route_trace self) acc →
  ∃ rs, foldM (run_strategy self start end_) acc ss = Ok rs ∧
        Forall (route_trace self) rs.
Proof.
  induction ss as [|s ss IH]; intros acc Hacc; cbn [foldM].
  - by exists acc.
  - destruct (run_strategy_trace acc s Hacc) as (rs' & -> & Hrs').
    cbn [mbind exc_bind]. by apply IH.
Qed.
End Gather.

Transparent find_optimized_routes.

(** Every query on a well-formed graph returns, and its routes are
    walks in the graph. *)
Lemma find_trace self start_location end_location :
  graph_wf self →
  ∃ res,
    find_optimized_routes self start_location end_location = Ok res ∧
    ∀ r, RouteDict r ∈ res → route_trace self r.
Proof.
  intros Hwf. unfold find_optimized_routes.
  assert (∀ msg r, RouteDict r ∈ [ErrorDict msg] → route_trace self r) as Herr.
  { intros msg r [[=]|?%elem_of_nil]%elem_of_cons. done. }
  destruct (dict_mem (locations self) start_location) eqn:Es;
    cbn [negb]; [|eexists; split; [reflexivity | apply Herr]].
  destruct (dict_mem (locations self) end_location) eqn:Ee;
    cbn [negb]; [|eexists; split; [reflexivity | apply Herr]].
  destruct (String.eqb start_location end_location);
    [eexists; split; [reflexivity | apply Herr] |].
  apply dict_mem_key in Es, Ee.
  destruct (run_strategies_trace self Hwf start_location end_location Es Ee
              strategies []) as (rs & -> & Hrs); [constructor |].
  cbn [mbind exc_bind].
  destruct (sort_by rank_key (remove_duplicates [] rs)) as [|r0 rs0] eqn:E;
    [eexists; split; [reflexivity | apply Herr] |].
  eexists. split; [reflexivity |].
  intros r (r' & [= <-] & Hr)%list_elem_of_fmap.
  rewrite <- E in Hr. rewrite sort_by_perm in Hr.
  rewrite Forall_forall in Hrs. apply Hrs.
  exact (elem_of_sublist _ _ _ Hr (remove_duplicates_sublist _ _)).
Qed.

Opaque find_optimized_routes.

Lemma route_length self r :
  route_trace self r → (length (path r) ≤ length (locations self))%nat.
Proof.
  intros [_ Hty Hnd _ _].
  rewrite <- (length_fmap location (path r)), <- (length_fmap fst (locations self)).
  apply submseteq_length, NoDup_submseteq; [exact Hnd |].
  intros x (s & -> & Hs)%list_elem_of_fmap.
  destruct (Hty s Hs) as (info & Hinfo & _).
  by eapply dict_get_Some_key.
Qed.

(** X17.  Every route returned for a well-formed graph is a walk in the
    graph: each step after the first is reached from the step before
    it by an edge of the graph and shows the mode of that edge and its
    time, cost and distance, rounded; and every step shows the
    catalogued type of its location. *)
Theorem X17_routes_follow_edges (self : Optimizer)
    (start_location end_location : string) :
  graph_wf self →
  ∃ res,
    find_optimized_routes self start_location end_location = Ok res ∧
    ∀ r, RouteDict r ∈ res →
      (∀ i s1 s2, path r !! i = Some s1 → path r !! S i = Some s2 →
         ∃ e, has_edge self (location s1) e ∧
              location s2 = destination e ∧ step_mode s2 = mode e ∧
              segment_time s2 = round_q (time e) 1 ∧
              segment_cost s2 = round_q (cost e) 2 ∧
              segment_distance s2 = round_q (distance e) 2) ∧
      (∀ s, s ∈ path r →
         ∃ info, dict_get (locations self) (location s) = Some info ∧
                 step_type s = type info).
Proof.
  intros Hwf.
  destruct (find_trace self start_location end_location Hwf)
    as (res & Hres & Htr).
  exists res. split; [exact Hres |]. intros r Hr.
  destruct (Htr r Hr) as [_ Hty _ Hfol _]. split; [exact Hfol | exact Hty].
Qed.

Lemma X17_routes_follow_edges_witness :
  ∃ res,
    find_optimized_routes (kochi ref_math) "Aluva Metro" "Petta Metro"
    = Ok res ∧
    ∀ r, RouteDict r ∈ res →
      (∀ i s1 s2, path r !! i = Some s1 → path r !! S i = Some s2 →
         ∃ e, has_edge (kochi ref_math) (location s1) e ∧
              location s2 = destination e ∧ step_mode s2 = mode e ∧
              segment_time s2 = round_q (time e) 1 ∧
              segment_cost s2 = round_q (cost e) 2 ∧
              segment_distance s2 = round_q (distance e) 2) ∧
      (∀ s, s ∈ path r →
         ∃ info, dict_get (locations (kochi ref_math)) (location s) = Some info ∧
                 step_type s = type info).
Proof.
  exact (X17_routes_follow_edges (kochi ref_math) "Aluva Metro" "Petta Metro"
           (kochi_wf ref_math)).
Defined.

(** X18.  No route visits a location twice: the locations of its steps
    are pairwise different.  A route has at least two steps and at most
    as many as the catalogue has locations, and [num_segments] is the
    number of steps less one. *)
Theorem X18_routes_are_simple (self : Optimizer)
    (start_location end_location : string) :
  graph_wf self →
  ∃ res,
    find_optimized_routes self start_location end_location = Ok res ∧
    ∀ r, RouteDict r ∈ res →
      NoDup (location <$> path r) ∧
      (2 ≤ length (path r) ≤ length (locations self))%nat ∧
      num_segments r = (Z.of_nat (length (path r)) - 1)%Z.
Proof.
  intros Hwf.
  destruct (find_trace self start_location end_location Hwf)
    as (res & Hres & Htr).
  exists res. split; [exact Hres |]. intros r Hr.
  pose proof (route_length self r (Htr r Hr)) as Hlen.
  destruct (Htr r Hr) as [(s0 & ss & Hp & Hne & _) _ Hnd _ Hseg].
  split_and!; try done.
  rewrite Hp. destruct ss; [done | simpl; lia].
Qed.

Lemma X18_routes_are_simple_witness :
  ∃ res,
    find_optimized_routes (kochi ref_math) "Aluva Metro" "Petta Metro"
    = Ok res ∧
    ∀ r, RouteDict r ∈ res →
      NoDup (location <$> path r) ∧
      (2 ≤ length (path r) ≤ length (locations (kochi ref_math)))%nat ∧
      num_segments r = (Z.of_nat (length (path r)) - 1)%Z.
Proof.
  exact (X18_routes_are_simple (kochi ref_math) "Aluva Metro" "Petta Metro"
           (kochi_wf ref_math)).
Defined.

(** The modes of the edges of the network. *)
Lemma kochi_edge_mode (M : MathLib) (v : string) (e : Edge) :
  has_edge (kochi M) v e → mode e ∈ ["metro"; "walk"; "auto"; "bus"].
Proof.
  intros He.
  apply kochi_has_edge, builder_edges_cases in He as [He|[He|He]].
  - destruct He as (? & ? & ? & ? & ? & ? & ? & ? & ? & _ & _ & _ & -> & _).
    left.
  - destruct He as (? & ? & ? & ? & ? & _ & _ & _ & _ & _ & Hc).
    destruct Hc as [(-> & _)|[(-> & _)|(-> & _)]];
      [right; left | right; right; left | right; right; right; left].
  - destruct He as (? & ? & _ & _ & _ & _ & _ & _ & Hc).
    destruct Hc as [(-> & _)|[(-> & _)|(-> & _)]];
      [right; left | right; right; left | right; right; right; left].
Qed.

(** X19.  On the built network the first step of a route has mode
    "start" and every later step has one of the modes metro, walk, auto
    and bus: the mode "unknown" never appears. *)
Theorem X19_route_modes (M : MathLib) (start_location end_location : string) :
  ∃ res,
    find_optimized_routes (kochi M) start_location end_location = Ok res ∧
    ∀ r, RouteDict r ∈ res →
      ∀ i s, path r !! i = Some s →
        (i = 0%nat ∧ step_mode s = "start") ∨
        (i ≠ 0%nat ∧ step_mode s ∈ ["metro"; "walk"; "auto"; "bus"]).
Proof.
  destruct (find_trace (kochi M) start_location end_location (kochi_wf M))
    as (res & Hres & Htr).
  exists res. split; [exact Hres |]. intros r Hr i s Hs.
  destruct (Htr r Hr) as [(s0 & ss & Hp & _ & Hm0) _ _ Hfol _].
  destruct i as [|i].
  - left. rewrite Hp in Hs. injection Hs as <-. by split.
  - right. split; [done |].
    destruct (lookup_lt_is_Some_2 (path r) i) as [s1 Hs1].
    { apply lookup_lt_Some in Hs. lia. }
    destruct (Hfol i s1 s Hs1 Hs) as (e & He & _ & -> & _).
    exact (kochi_edge_mode M _ e He).
Qed.

(** * The callers of the optimizer *)

(** ** The input check of the window *)

Lemma validate_true self start end_ :
  (validate_inputs self start end_).1 = true →
  (validate_inputs self start end_).2 = [] ∧
  start ∈ keys self ∧ end_ ∈ keys self ∧ start ≠ end_ ∧
  start ≠ EmptyString ∧ end_ ≠ EmptyString.
Proof.
  unfold validate_inputs.
  destruct (negb (truthy start) || _) eqn:E1; [discriminate |].
  destruct (negb (truthy end_) || _) eqn:E2; [discriminate |].
  destruct (dict_mem (locations self) start) eqn:Es; [|discriminate].
  destruct (dict_mem (locations self) end_) eqn:Ee; [|discriminate].
  cbn [negb].
  destruct (String.eqb_spec start end_) as [|Hne]; [discriminate |].
  intros _. apply orb_false_iff in E1 as [E1 _], E2 as [E2 _].
  split_and!; try done.
  - by apply dict_mem_key.
  - by apply dict_mem_key.
  - intros ->. discriminate E1.
  - intros ->. discriminate E2.
Qed.

Lemma validate_false self start end_ :
  (validate_inputs self start end_).1 = false →
  ∃ d, (validate_inputs self start end_).2 = [d].
Proof.
  unfold validate_inputs.
  repeat match goal with
         | |- context [if ?b then _ else _] => destruct b
         end; cbn [fst snd]; try discriminate; eauto.
Qed.

(** X20.  When the input check of the window succeeds it shows no
    message box, both names are catalogued and different, and the
    query that follows is answered by a list of routes or by the
    no-route error, never by one of the three validation errors.  When
    it fails it shows exactly one message box. *)
Theorem X20_validated_inputs (self : Optimizer) (start end_ : string) :
  graph_wf self →
  ((validate_inputs self start end_).1 = true →
   (validate_inputs self start end_).2 = [] ∧
   start ∈ keys self ∧ end_ ∈ keys self ∧ start ≠ end_ ∧
   ((∃ r rs, find_optimized_routes self start end_
             = Ok (RouteDict <$> r :: rs)) ∨
    find_optimized_routes self start end_
    = Ok [ErrorDict (msg_no_route start end_)])) ∧
  ((validate_inputs self start end_).1 = false →
   ∃ d, (validate_inputs self start end_).2 = [d]).
Proof.
  intros Hwf. split; [|apply validate_false].
  intros (Hd & Hs & He & Hne & _)%validate_true.
  split_and!; try done.
  destruct (find_connected self Hwf start end_ Hs He Hne)
    as [[_ ?]|[_ ?]]; [by left | by right].
Qed.

Lemma X20_validated_inputs_witness :
  ((validate_inputs (kochi ref_math) "Aluva Metro" "Petta Metro").1 = true →
   (validate_inputs (kochi ref_math) "Aluva Metro" "Petta Metro").2 = [] ∧
   "Aluva Metro" ∈ keys (kochi ref_math) ∧
   "Petta Metro" ∈ keys (kochi ref_math) ∧ "Aluva Metro" ≠ "Petta Metro" ∧
   ((∃ r rs, find_optimized_routes (kochi ref_math) "Aluva Metro" "Petta Metro"
             = Ok (RouteDict <$> r :: rs)) ∨
    find_optimized_routes (kochi ref_math) "Aluva Metro" "Petta Metro"
    = Ok [ErrorDict (msg_no_route "Aluva Metro" "Petta Metro")])) ∧
  ((validate_inputs (kochi ref_math) "Aluva Metro" "Petta Metro").1 = false →
   ∃ d, (validate_inputs (kochi ref_math) "Aluva Metro" "Petta Metro").2 = [d]).
Proof.
  exact (X20_validated_inputs (kochi ref_math) "Aluva Metro" "Petta Metro"
           (kochi_wf ref_math)).
Defined.

(** ** The line drawn on the map *)

Lemma route_coords_length self steps :
  (∀ s, s ∈ steps →
     ∃ info, dict_get (locations self) (location s) = Some info ∧
             step_type s = type info) →
  length (route_coords self steps) = length steps.
Proof.
  induction steps as [|s steps IH]; intros H; [done |].
  cbn [route_coords flat_map]. fold (route_coords self steps).
  destruct (H s) as (info & -> & _); [left |].
  cbn [app length]. f_equal. apply IH. intros s' Hs'. apply H. by right.
Qed.

(** X21.  For every route returned for a well-formed graph, the line
    that the map draws has one point for each step of the route, in
    particular at least two, so that it is always drawn. *)
Theorem X21_map_line (self : Optimizer) (start_location end_location : string) :
  graph_wf self →
  ∃ res,
    find_optimized_routes self start_location end_location = Ok res ∧
    ∀ r, RouteDict r ∈ res →
      length (route_coords self (path r)) = length (path r) ∧
      (1 < length (route_coords self (path r)))%nat.
Proof.
  intros Hwf.
  destruct (find_trace self start_location end_location Hwf)
    as (res & Hres & Htr).
  exists res. split; [exact Hres |]. intros r Hr.
  destruct (Htr r Hr) as [(s0 & ss & Hp & Hne & _) Hty _ _ _].
  rewrite (route_coords_length self (path r) Hty). split; [done |].
  rewrite Hp. destruct ss; [done | simpl; lia].
Qed.

Lemma X21_map_line_witness :
  ∃ res,
    find_optimized_routes (kochi ref_math) "Aluva Metro" "Petta Metro"
    = Ok res ∧
    ∀ r, RouteDict r ∈ res →
      length (route_coords (kochi ref_math) (path r)) = length (path r) ∧
      (1 < length (route_coords (kochi ref_math) (path r)))%nat.
Proof.
  exact (X21_map_line (kochi ref_math) "Aluva Metro" "Petta Metro"
           (kochi_wf ref_math)).
Defined.

(** ** The performance analysis *)

Lemma ranked_length self s e all :
  collected self s e strategies all → (length (ranked all) ≤ 4)%nat.
Proof.
  intros Hcol. pose proof (collected_length _ _ _ _ _ Hcol) as Hlen.
  unfold ranked. rewrite (Permutation_length (sort_by_perm rank_key _)).
  pose proof (sublist_length _ _ (remove_duplicates_sublist [] all)).
  simpl in Hlen. lia.
Qed.

(** X22.  A measurement on the built network never takes the
    exception branch.  It reports success exactly when the query
    returned routes, and then counts them, between one and four, and
    keeps them; otherwise the query returned an error entry and the
    measurement counts no route and keeps none. *)
Theorem X22_measurement (M : MathLib) (start_time end_time : Q) (peak : Z)
    (start end_ : string) :
  let m := measure_single_route (kochi M) start_time end_time peak start end_ in
  ∃ res,
    find_optimized_routes (kochi M) start end_ = Ok res ∧
    m_error m = None ∧
    computation_time m = (end_time - start_time)%Q ∧
    ((success m = true ∧ (∃ r rs, res = RouteDict <$> r :: rs) ∧
      routes_generated m = length res ∧
      (1 ≤ routes_generated m ≤ 4)%nat ∧ m_routes m = Some res) ∨
     (success m = false ∧ (∃ msg, res = [ErrorDict msg]) ∧
      routes_generated m = 0%nat ∧ m_routes m = None)).
Proof.
  intros m. subst m.
  destruct (find_shape M start end_) as (res & all & Hres & Hall).
  exists res. split; [exact Hres |].
  unfold measure_single_route. rewrite Hres.
  destruct Hall as [[_ [msg ->]]|(Hne & -> & _ & _ & _ & Hcol)].
  - cbn. split_and!; try done. right. split_and!; try done. by exists msg.
  - pose proof (ranked_length _ _ _ _ Hcol) as Hlen.
    destruct (ranked all) as [|r rs] eqn:E; [by apply ranked_nil in E |].
    cbn [fmap list_fmap has_error negb m_error computation_time success
           routes_generated m_routes length Nat.ltb Nat.leb].
    split_and!; try done. left. split_and!; try done.
    + by exists r, rs.
    + lia.
    + rewrite length_fmap. simpl in Hlen. lia.
Qed.

Ltac order_cases :=
  repeat match goal with
         | |- context [Qltb ?a ?b] => destruct (Qltb a b) eqn:?
         | |- context [Qeq_bool ?a ?b] => destruct (Qeq_bool a b) eqn:?
         end;
  repeat match goal with
         | H : Qltb _ _ = true |- _ => apply Qltb_lt in H
         | H : Qltb _ _ = false |- _ => apply Qltb_ge in H
         | H : Qeq_bool _ _ = true |- _ => apply Qeq_bool_iff in H
         | H : Qeq_bool _ _ = false |- _ => apply Qeq_bool_neq in H
         end;
  cbn [orb];
  first [exfalso; lra | vm_compute; lia].

(** X23.  The grades of the performance report are monotone: of two
    finite readings the smaller time or memory never gets the worse
    grade, and the larger number of routes never gets the worse grade.
    A reading that is not a number gets the worst grade of each
    scale. *)
Theorem X23_grades_monotone (a b : Q) :
  ((a <= b)%Q →
   (grade_index time_scale (_evaluate_time (Fin a))
    ≤ grade_index time_scale (_evaluate_time (Fin b)))%nat ∧
   (grade_index memory_scale (_evaluate_memory (Fin a))
    ≤ grade_index memory_scale (_evaluate_memory (Fin b)))%nat ∧
   (grade_index routes_scale (_evaluate_routes (Fin b))
    ≤ grade_index routes_scale (_evaluate_routes (Fin a)))%nat) ∧
  _evaluate_time NaN = "Needs Optimization" ∧
  _evaluate_memory NaN = "High" ∧
  _evaluate_routes NaN = "Limited".
Proof.
  split; [|by split_and!].
  intros Hab.
  unfold _evaluate_time, _evaluate_memory, _evaluate_routes, fge, flt, feq.
  split_and!; order_cases.
Qed.

(** ** The menu of the command-line application *)

Lemma group_of (t : string) :
  let p1 := String.eqb t "metro_station" in
  let p2 := bool_decide (t ∈ ["commercial"; "mall"]) in
  let p3 := String.eqb t "residential" in
  let p4 := negb (bool_decide
                    (t ∈ ["metro_station"; "commercial"; "mall"; "residential"])) in
  (p1 = true ∧ p2 = false ∧ p3 = false ∧ p4 = false) ∨
  (p1 = false ∧ p2 = true ∧ p3 = false ∧ p4 = false) ∨
  (p1 = false ∧ p2 = false ∧ p3 = true ∧ p4 = false) ∨
  (p1 = false ∧ p2 = false ∧ p3 = false ∧ p4 = true).
Proof.
  cbv zeta.
  destruct (String.eqb_spec t "metro_station") as [->|H1].
  { left. by vm_compute. }
  destruct (String.eqb_spec t "residential") as [->|H3].
  { right; right; left. by vm_compute. }
  destruct (decide (t = "commercial")) as [->|H2a].
  { right; left. by vm_compute. }
  destruct (decide (t = "mall")) as [->|H2b].
  { right; left. by vm_compute. }
  right; right; right. split_and!; try done.
  - apply bool_decide_eq_false_2. rewrite !elem_of_cons, elem_of_nil. tauto.
  - apply negb_true_iff, bool_decide_eq_false_2.
    rewrite !elem_of_cons, elem_of_nil. tauto.
Qed.

(** X24.  The four groups of the location menu partition the
    catalogue: every location is listed in exactly one of them, so the
    four counts add up to the total that is printed. *)
Theorem X24_location_groups (self : Optimizer) :
  (group_metro self ++ group_commercial self ++ group_residential self
   ++ group_others self)%list ≡ₚ keys self.
Proof.
  unfold group_metro, group_commercial, group_residential, group_others,
    names_where, keys.
  induction (locations self) as [|[name info] l IH]; [done |].
  rewrite !(filter_cons _ (name, info) l). cbn [snd fmap list_fmap fst].
  destruct (group_of (type info)) as [H|[H|[H|H]]];
    destruct H as (-> & -> & -> & ->);
    repeat (rewrite decide_True by done); repeat (rewrite decide_False by done);
    cbn [fmap list_fmap fst].
  all: rewrite <- IH; cbn [app]; solve_Permutation.
Qed.

(** X25.  For every route returned on the built network the modes that
    the route display collects are not empty, so that the line of the
    transport modes is always printed, and they are among metro, walk,
    auto and bus. *)
Theorem X25_modes_used (M : MathLib) (start_location end_location : string) :
  ∃ res,
    find_optimized_routes (kochi M) start_location end_location = Ok res ∧
    ∀ r, RouteDict r ∈ res →
      modes_used r ≠ [] ∧
      ∀ m, m ∈ modes_used r → m ∈ ["metro"; "walk"; "auto"; "bus"].
Proof.
  destruct (find_trace (kochi M) start_location end_location (kochi_wf M))
    as (res & Hres & Htr).
  exists res. split; [exact Hres |]. intros r Hr.
  destruct (Htr r Hr) as [(s0 & ss & Hp & Hne & Hm0) _ _ Hfol _].
  assert (∀ i s, path r !! S i = Some s →
                 step_mode s ∈ ["metro"; "walk"; "auto"; "bus"]) as Hlater.
  { intros i s Hs.
    destruct (lookup_lt_is_Some_2 (path r) i) as [s1 Hs1].
    { apply lookup_lt_Some in Hs. lia. }
    destruct (Hfol i s1 s Hs1 Hs) as (e & He & _ & -> & _).
    exact (kochi_edge_mode M _ e He). }
  unfold modes_used. split.
  - destruct ss as [|s1 ss]; [done |].
    assert (step_mode s1 ∈ filter (λ m, m ∉ ["start"; "unknown"])
                              (step_mode <$> path r)) as Hin.
    { apply list_elem_of_filter. split.
      - pose proof (Hlater 0%nat s1) as H. rewrite Hp in H.
        specialize (H eq_refl). intros Hbad.
        repeat (apply elem_of_cons in H as [H|H];
                [rewrite H in Hbad;
                 by repeat (apply elem_of_cons in Hbad as [Hbad|Hbad];
                            [discriminate Hbad |]);
                    apply elem_of_nil in Hbad |]).
        by apply elem_of_nil in H.
      - rewrite Hp. right. left. }
    intros E. rewrite E in Hin. by apply elem_of_nil in Hin.
  - intros m [Hm Hin]%list_elem_of_filter.
    apply list_elem_of_fmap in Hin as (s & -> & Hs).
    apply list_elem_of_lookup in Hs as [[|i] Hi].
    + rewrite Hp in Hi. injection Hi as <-. destruct Hm. rewrite Hm0. left.
    + by apply (Hlater i).
Qed.

(** * The distance metric and the constructor *)

Lemma to_fix_zero x : (x == 0)%Q → RefMath.to_fix x = 0%Z.
Proof.
  intros H. assert (Qnum x = 0%Z) as Hn.
  { unfold Qeq in H. simpl in H. lia. }
  unfold RefMath.to_fix. rewrite Hn, Z.shiftl_0_l.
  destruct (_ =? _)%Z; [apply Z.shiftr_0_l | apply Z.div_0_l].
  discriminate.
Qed.

Lemma of_fix_zero : (RefMath.of_fix 0 == 0)%Q.
Proof. reflexivity. Qed.

Lemma ref_math_zero :
  zero_preserving (radians ref_math) ∧ zero_preserving (sin ref_math) ∧
  zero_preserving (asin ref_math) ∧ zero_preserving (sqrt ref_math).
Proof.
  unfold zero_preserving, ref_math. cbn [radians sin asin sqrt].
  unfold RefMath.radians, RefMath.sin, RefMath.asin, RefMath.sqrt, RefMath.mul.
  split_and!; intros x Hx; cbv zeta; rewrite (to_fix_zero x Hx);
    rewrite ?Z.mul_0_l, ?Z.shiftl_0_l, ?Z.shiftr_0_l; apply of_fix_zero.
Qed.

(** X26.  The distance from a point to itself is zero, for every math
    library whose sine, arc sine, square root and conversion to radians
    map zero to zero. *)
Theorem X26_haversine_self (M : MathLib) (lat lon : Q) :
  zero_preserving (radians M) → zero_preserving (sin M) →
  zero_preserving (asin M) → zero_preserving (sqrt M) →
  (_haversine_distance M lat lon lat lon == 0)%Q.
Proof.
  intros Hrad Hsin Hasin Hsqrt. unfold _haversine_distance. cbv zeta.
  assert (∀ x, (x == 0)%Q → (sin M (radians M x / 2) == 0)%Q) as Hhalf.
  { intros x Hx. apply Hsin. rewrite (Hrad x Hx). reflexivity. }
  assert (lat - lat == 0)%Q as Hlat by ring.
  assert (lon - lon == 0)%Q as Hlon by ring.
  pose proof (Hhalf _ Hlat) as H1. pose proof (Hhalf _ Hlon) as H2.
  set (s1 := sin M (radians M (lat - lat) / 2)) in *.
  set (s2 := sin M (radians M (lon - lon) / 2)) in *.
  set (c := (cos M (radians M lat) * cos M (radians M lat))%Q).
  assert (s1 ^ 2 + c * s2 ^ 2 == 0)%Q as Ha.
  { simpl. rewrite H1, H2. ring. }
  rewrite (Hasin _ (Hsqrt _ Ha)). ring.
Qed.

Lemma X26_haversine_self_witness :
  (_haversine_distance ref_math 10.1082 76.3520 10.1082 76.3520 == 0)%Q.
Proof.
  apply (X26_haversine_self ref_math 10.1082 76.3520); apply ref_math_zero.
Defined.

Lemma station_row i n la lo z :
  metro_data !! i = Some (n, la, lo, z) →
  dict_get (metro_stations catalogue) n = Some (la, lo).
Proof.
  intros Hi.
  assert (i < length metro_data)%nat as Hlt by (eapply lookup_lt_Some, Hi).
  do 23 (destruct i as [|i];
         [injection Hi as <- <- <- <-; vm_compute; reflexivity |]).
  simpl in Hlt. lia.
Qed.

Lemma place_row i n la lo t :
  popular_places !! i = Some (n, la, lo, t) →
  dict_get (locations catalogue) n
  = Some {| lat := la; lon := lo; type := t; zone := "N/A" |}.
Proof.
  intros Hi.
  assert (i < length popular_places)%nat as Hlt by (eapply lookup_lt_Some, Hi).
  do 20 (destruct i as [|i];
         [injection Hi as <- <- <- <-; vm_compute; reflexivity |]).
  simpl in Hlt. lia.
Qed.

(** X27.  The constructor returns, whatever the math library computes.
    The catalogue it builds lists the rows of the two tables in their
    order, without a name twice, and every row is found under its name
    with its own coordinates, type and zone; the table of the stations
    holds the coordinates of each station. *)
Theorem X27_constructor (M : MathLib) :
  ∃ self,
    __init__ M = Ok self ∧
    keys self
    = ((row_name <$> metro_data) ++ (row_name <$> popular_places))%list ∧
    NoDup (keys self) ∧
    (∀ i n la lo z, metro_data !! i = Some (n, la, lo, z) →
       dict_get (locations self) n
       = Some {| lat := la; lon := lo; type := "metro_station"; zone := z |} ∧
       dict_get (metro_stations self) n = Some (la, lo)) ∧
    (∀ i n la lo t, popular_places !! i = Some (n, la, lo, t) →
       dict_get (locations self) n
       = Some {| lat := la; lon := lo; type := t; zone := "N/A" |}).
Proof.
  exists (add_all catalogue (builder_edges M)).
  split; [apply init_ok |].
  unfold keys. rewrite add_all_locations, add_all_metro_stations.
  split_and!.
  - vm_compute. reflexivity.
  - apply catalogue_NoDup.
  - intros i n la lo z Hi. split; [by apply (station_info i) |].
    by apply (station_row i _ _ _ z).
  - intros i n la lo t Hi. by apply (place_row i).
Qed.

(** * Neighbouring stations *)

Lemma hop_check_spec a b : hop_check a b = true → metro_hop_only a b.
Proof.
  unfold hop_check, metro_hop_only. rewrite kochi_ref_eq. intros H.
  destruct (find_optimized_routes kochi_ref a b) as [[|[?|r] [|? ?]]|];
    try discriminate H.
  destruct (path r) as [|s0 [|s1 [|? ?]]] eqn:Hp; try discriminate H.
  repeat (apply andb_true_iff in H as [H ?]).
  exists r, s0, s1.
  split_and!;
    [reflexivity | by apply String.eqb_eq | by apply Z.eqb_eq | exact Hp
    | by apply String.eqb_eq | by apply String.eqb_eq | by apply String.eqb_eq
    | by apply String.eqb_eq | by apply Qeq_bool_iff | by apply Qeq_bool_iff
    | by apply Qeq_bool_iff].
Qed.

Lemma hops_checked :
  forallb (λ p, hop_check p.1 p.2 && hop_check p.2 p.1)
    (zip station_names (tail station_names)) = true.
Proof. vm_compute. reflexivity. Qed.

(** X29.  Under the reference math library, the query between two
    stations that follow each other on the line returns, in either
    direction, exactly one route: labelled with the first strategy,
    the start followed by the destination, by metro, for 5 rupees, 2.5
    minutes and 1.13 km. *)
Theorem X29_neighbouring_stations (i : nat) (a b : string) :
  station_names !! i = Some a → station_names !! S i = Some b →
  metro_hop_only a b ∧ metro_hop_only b a.
Proof.
  intros Ha Hb.
  assert ((a, b) ∈ zip station_names (tail station_names)) as Hin.
  { apply list_elem_of_lookup. exists i.
    rewrite lookup_zip_with, Ha. cbn [mbind option_bind].
    by rewrite lookup_tail, Hb. }
  pose proof hops_checked as H. rewrite forallb_forall in H.
  specialize (H _ (proj1 (list_elem_of_In _ _) Hin)). cbn [fst snd] in H.
  apply andb_true_iff in H as [H1 H2].
  split; by apply hop_check_spec.
Qed.

Lemma X29_neighbouring_stations_witness :
  metro_hop_only "Kaloor Metro" "Lissie Metro" ∧
  metro_hop_only "Lissie Metro" "Kaloor Metro".
Proof.
  apply (X29_neighbouring_stations 12 "Kaloor Metro" "Lissie Metro").
  - vm_compute. reflexivity.
  - vm_compute. reflexivity.
Defined.

(** * The search in binary64 arithmetic: invariants *)

Section Floats64.
Import Binary64.

(** Rounding keeps the sign. *)
Lemma round_aux_sign mx ex lx :
  not_negative (SpecFloat.binary_round_aux prec emax false mx ex lx) = true.
Proof.
  unfold SpecFloat.binary_round_aux.
  destruct (SpecFloat.shr_fexp prec emax mx ex lx) as [m1 e1].
  destruct (SpecFloat.shr_fexp prec emax _ e1 _) as [m2 e2].
  destruct (SpecFloat.shr_m m2); [done | | done].
  by destruct (_ <=? _)%Z.
Qed.

Lemma round_sign m e :
  not_negative (SpecFloat.binary_round prec emax false m e) = true.
Proof.
  unfold SpecFloat.binary_round.
  destruct (SpecFloat.shl_align _ _ _) as [mz ez]. apply round_aux_sign.
Qed.

Lemma add_not_negative x y :
  not_negative x = true → not_negative y = true →
  not_negative (add x y) = true.
Proof.
  destruct x as [sx|sx| |sx mx ex], y as [sy|sy| |sy my ey];
    try destruct sx; try destruct sy; try done.
  intros _ _. unfold add, SpecFloat.SFadd.
  cbn [SpecFloat.cond_Zopp Z.add SpecFloat.binary_normalize].
  apply round_sign.
Qed.

Lemma mul_not_negative x y :
  not_negative x = true → not_negative y = true →
  not_negative (mul x y) = true.
Proof.
  destruct x as [sx|sx| |sx mx ex], y as [sy|sy| |sy my ey];
    try destruct sx; try destruct sy; try done.
  intros _ _. unfold mul, SpecFloat.SFmul. cbn [xorb].
  apply round_aux_sign.
Qed.

Lemma div_not_negative x m e :
  not_negative x = true →
  not_negative (div x (SpecFloat.S754_finite false m e)) = true.
Proof.
  destruct x as [sx|sx| |sx mx ex]; try destruct sx; try done.
  intros _. unfold div, SpecFloat.SFdiv.
  destruct (SpecFloat.SFdiv_core_binary _ _ _ _ _ _) as [[mz ez] lz].
  cbn [xorb]. apply round_aux_sign.
Qed.

Lemma literal_200 :
  literal 200 = SpecFloat.S754_finite false 7036874417766400 (-45).
Proof. vm_compute. reflexivity. Qed.

Lemma literal_120 :
  literal 120 = SpecFloat.S754_finite false 8444249301319680 (-46).
Proof. vm_compute. reflexivity. Qed.

Lemma literal_5 :
  literal 5 = SpecFloat.S754_finite false 5629499534213120 (-50).
Proof. vm_compute. reflexivity. Qed.

Lemma literal_half :
  literal 0.5 = SpecFloat.S754_finite false 4503599627370496 (-53).
Proof. vm_compute. reflexivity. Qed.

Lemma literal_02 :
  literal 0.2 = SpecFloat.S754_finite false 7205759403792794 (-55).
Proof. vm_compute. reflexivity. Qed.

Lemma literal_03 :
  literal 0.3 = SpecFloat.S754_finite false 5404319552844595 (-54).
Proof. vm_compute. reflexivity. Qed.

(** What is greater than a number that is not negative is not
    negative. *)
Lemma gt_not_negative x y :
  lt y x = true → not_negative y = true → not_negative x = true.
Proof.
  destruct x as [sx|sx| |sx mx ex], y as [sy|sy| |sy my ey];
    try destruct sx; try destruct sy; done.
Qed.

(** What is smaller than a float and not negative is a zero or a
    finite number. *)
Lemma lt_finite x y :
  lt x y = true → not_negative x = true → finite x = true.
Proof.
  destruct x as [sx|sx| |sx mx ex], y as [sy|sy| |sy my ey];
    try destruct sx; try destruct sy; done.
Qed.

Lemma lt_irrefl64 x : lt x x = false.
Proof.
  destruct x as [s|s| |s m e]; try destruct s; try done;
    unfold lt, SpecFloat.SFltb, SpecFloat.SFcompare;
    rewrite Z.compare_refl, Pos.compare_cont_refl; done.
Qed.

Lemma norm_transfers_ok n :
  (0 ≤ n < max_int)%Z →
  ∃ ntr, norm_transfers_of n = Ok ntr ∧ not_negative ntr = true.
Proof.
  intros Hn. unfold norm_transfers_of.
  destruct (Z.ltb_spec 0 n) as [Hpos|_]; [|by exists zero].
  unfold float_of_int. rewrite Z.abs_eq by lia.
  rewrite (proj2 (Z.ltb_lt _ _)) by lia. cbn [mbind exc_bind].
  eexists. split; [reflexivity |]. rewrite literal_5.
  apply div_not_negative.
  destruct n as [|p|p]; [lia | | lia]. apply round_sign.
Qed.

Lemma composite_not_negative cw tw conv nc nt ntr ch e :
  not_negative cw = true → not_negative tw = true →
  not_negative conv = true → not_negative ntr = true →
  not_negative (composite_of cw tw conv nc nt ntr ch e) = true.
Proof.
  intros Hcw Htw Hconv Hntr. unfold composite_of. cbv zeta.
  repeat apply add_not_negative; try apply mul_not_negative; try done.
  - unfold gt. destruct (lt zero nc) eqn:E; [|done].
    rewrite literal_200. apply div_not_negative.
    by apply (gt_not_negative _ zero).
  - unfold gt. destruct (lt zero nt) eqn:E; [|done].
    rewrite literal_120. apply div_not_negative.
    by apply (gt_not_negative _ zero).
  - repeat apply add_not_negative; try done.
    + destruct ch; [by rewrite literal_03 | done].
    + destruct (String.eqb _ _); [|done]. cbn [andb]. unfold gt.
      destruct (lt (literal 0.5) (distance e)) eqn:E; [|done].
      apply mul_not_negative; [|by rewrite literal_02].
      apply (gt_not_negative _ (literal 0.5)); [done |].
      by rewrite literal_half.
Qed.
End Floats64.

Section Heap64.
Import Binary64.

Lemma tuple_eqb_refl64 x : tuple_eqb x x = true.
Proof.
  unfold tuple_eqb, tuple_lt.
  destruct (eqb x.1 x.1); by rewrite ?string_ltb_irrefl, ?lt_irrefl64.
Qed.

Lemma heap_min_in64 x pq : heap_min x pq ∈ x :: pq.
Proof.
  revert x. induction pq as [|y pq IH]; intros x; simpl; [left |].
  specialize (IH (if tuple_lt y x then y else x)).
  apply elem_of_cons in IH as [->|IH].
  - destruct (tuple_lt y x); [right; left | left].
  - right. by right.
Qed.

Lemma heap_remove_in64 x pq y : y ∈ heap_remove x pq → y ∈ pq.
Proof.
  induction pq as [|z pq IH]; simpl; [done |].
  destruct (tuple_eqb x z).
  - by right.
  - intros [->|H]%elem_of_cons; [left | right; auto].
Qed.

Lemma heap_remove_length64 x pq :
  x ∈ pq → S (length (heap_remove x pq)) = length pq.
Proof.
  induction pq as [|z pq IH]; simpl.
  - by intros ?%elem_of_nil.
  - intros H. destruct (tuple_eqb x z) eqn:E; [done |].
    simpl. f_equal. apply IH.
    apply elem_of_cons in H as [->|H]; [|done].
    by rewrite tuple_eqb_refl64 in E.
Qed.

Lemma heappop_Some64 pq m pq' :
  heappop pq = Some (m, pq') →
  m ∈ pq ∧ S (length pq') = length pq ∧ ∀ y, y ∈ pq' → y ∈ pq.
Proof.
  destruct pq as [|x pq]; simpl; [done |].
  intros [= <- <-]. pose proof (heap_min_in64 x pq) as Hin.
  split; [done |]. split.
  - by apply (heap_remove_length64 _ (x :: pq)).
  - intros y. apply (heap_remove_in64 _ (x :: pq)).
Qed.
End Heap64.

Section Tables64.
Import Binary64.

Lemma dict_from_keys_lookup64 {V : Type} (locs : pydict LocationInfo)
    (v : V) k :
  dict_from_keys locs v !! k
  = if bool_decide (k ∈ locs.*1) then Some v else None.
Proof.
  unfold dict_from_keys.
  enough (∀ d, foldl (λ d item, <[item.1 := v]> d) d locs !! k
               = if bool_decide (k ∈ locs.*1) then Some v else d !! k) as ->.
  { by rewrite lookup_empty. }
  induction locs as [|[k' i] locs IH]; intros d; [done |].
  cbn [foldl fmap list_fmap fst]. rewrite IH.
  destruct (decide (k ∈ locs.*1)) as [Hk|Hk].
  - rewrite !bool_decide_eq_true_2; [done | by right | done].
  - rewrite (bool_decide_eq_false_2 _ Hk).
    destruct (decide (k' = k)) as [->|Hne].
    + rewrite lookup_insert_eq. by rewrite bool_decide_eq_true_2 by left.
    + rewrite lookup_insert_ne by done.
      rewrite bool_decide_eq_false_2; [done |].
      intros [?|?]%elem_of_cons; congruence.
Qed.

Lemma remaining_insert64 g vis k es :
  g !! k = None →
  remaining (<[k := es]> g) vis
  = if bool_decide (k ∈ vis) then remaining g vis
    else (length es + remaining g vis)%nat.
Proof.
  intros Hk. unfold remaining. rewrite map_fold_insert_L; [done | | done].
  intros j1 j2 z1 z2 y _ _ _. repeat case_bool_decide; lia.
Qed.

Lemma remaining_visit_Some64 g vis c es :
  g !! c = Some es → c ∉ vis →
  remaining g vis = (length es + remaining g (c :: vis))%nat.
Proof.
  induction g as [|k x g Hk IH] using map_ind; [by rewrite lookup_empty |].
  intros Hc Hvis. rewrite !remaining_insert64 by done.
  destruct (decide (k = c)) as [->|Hne].
  - rewrite lookup_insert_eq in Hc. injection Hc as ->.
    rewrite bool_decide_eq_false_2 by done.
    rewrite bool_decide_eq_true_2 by left.
    f_equal. clear IH. induction g as [|k x g Hk' IH] using map_ind; [done |].
    rewrite lookup_insert_None in Hk. destruct Hk as [Hk Hne].
    rewrite !remaining_insert64 by done. rewrite (IH Hk).
    destruct (decide (k ∈ vis)).
    + rewrite !bool_decide_eq_true_2; [done | by right | done].
    + rewrite !bool_decide_eq_false_2; [done | | done].
      intros [?|?]%elem_of_cons; done.
  - rewrite lookup_insert_ne in Hc by done. specialize (IH Hc Hvis).
    destruct (decide (k ∈ vis)).
    + rewrite !bool_decide_eq_true_2; [done | by right | done].
    + rewrite !bool_decide_eq_false_2; [lia | | done].
      intros [?|?]%elem_of_cons; done.
Qed.

Lemma remaining_visit_None64 g vis c :
  g !! c = None → remaining g (c :: vis) = remaining g vis.
Proof.
  induction g as [|k x g Hk IH] using map_ind; [done |].
  intros [Hc Hne]%lookup_insert_None. rewrite !remaining_insert64 by done.
  rewrite (IH Hc). destruct (decide (k ∈ vis)).
  - rewrite !bool_decide_eq_true_2; [done | done | by right].
  - rewrite !bool_decide_eq_false_2; [done | done |].
    intros [?|?]%elem_of_cons; done.
Qed.

Lemma connected_snoc64 self u v e :
  connected self u v → has_edge self v e →
  connected self u (destination e).
Proof.
  induction 1 as [v|u e' v He' Hc IH]; intros He.
  - eapply connected_step; [exact He | constructor].
  - eapply connected_step; [exact He' | by apply IH].
Qed.

Lemma wf_check_spec self : wf_check self = true → graph_wf self.
Proof.
  unfold wf_check. rewrite forallb_forall. intros H v es e Hes He.
  assert (In (v, es) (map_to_list (graph self))) as Hin.
  { apply list_elem_of_In, elem_of_map_to_list, Hes. }
  specialize (H _ Hin). cbn [snd] in H. rewrite forallb_forall in H.
  specialize (H e (proj1 (list_elem_of_In _ _) He)).
  by apply bool_decide_eq_true in H.
Qed.
End Tables64.

Section SearchInvariants64.
Import Binary64.
Variable self : Optimizer.
Hypothesis Hwf : graph_wf self.
Variables (start end_ : string) (cw tw conv : float).
(** The transfer counts stay below the ints that have no float. *)
Hypothesis Hsize : (Z.of_nat (length (locations self)) < max_int)%Z.

Lemma visited_bound st vis :
  search_inv self start cw tw conv st vis →
  (length vis ≤ length (locations self))%nat.
Proof.
  intros Hinv.
  assert (vis ⊆+ keys self) as Hsub.
  { apply NoDup_submseteq; [apply (inv_nodup _ _ _ _ _ _ _ Hinv) |].
    apply (inv_visited _ _ _ _ _ _ _ Hinv). }
  apply submseteq_length in Hsub. unfold keys in Hsub.
  by rewrite length_fmap in Hsub.
Qed.

Lemma relax_inv64 st pq vis current edge :
  search_inv self start cw tw conv st vis → heap_inv self start st pq →
  current ∈ vis → start ∈ vis → has_edge self current edge →
  ∃ st' pq',
    relax cw tw conv vis current (st, pq) edge = Ok (st', pq') ∧
    search_inv self start cw tw conv st' vis ∧
    heap_inv self start st' pq' ∧
    (length pq' ≤ S (length pq))%nat.
Proof.
  intros Hinv Hpq Hcur Hstart (es & Hes & Hedge).
  rewrite relax64_eq. case_bool_decide as Hnb.
  { exists st, pq. split_and!; auto. }
  pose proof (visited_bound _ _ Hinv) as Hlen.
  pose proof (inv_visited _ _ _ _ _ _ _ Hinv _ Hcur) as HcurK.
  destruct (inv_dom _ _ _ _ _ _ _ Hinv _ HcurK)
    as ([dc Hdc] & [cc Hcc] & [ct Hct] & [cd Hcd] & [tr Htr] & _
        & [info Hinfo]).
  pose proof (Hwf _ _ _ Hes Hedge) as HnbK.
  destruct (inv_dom _ _ _ _ _ _ _ Hinv _ HnbK) as ([best Hbest] & _).
  rewrite (getitem_Some _ _ _ Hcc), (getitem_Some _ _ _ Hct),
    (getitem_Some _ _ _ Hcd), (getitem_Some _ _ _ Htr),
    (getitem_Some _ _ _ Hinfo). cbn [mbind exc_bind]. cbv zeta.
  destruct (inv_transfers _ _ _ _ _ _ _ Hinv _ _ Htr) as [Htr0 Htr1].
  specialize (Htr1 Hcur).
  assert (0 ≤ transfers_after tr info edge ≤ Z.of_nat (length vis))%Z
    as Hnew.
  { unfold transfers_after. destruct (mode_changed info edge); lia. }
  destruct (norm_transfers_ok (transfers_after tr info edge))
    as (ntr & Hntr & Hntr0); [lia |].
  rewrite Hntr. cbn [mbind exc_bind].
  rewrite (getitem_Some _ _ _ Hbest). cbn [mbind exc_bind].
  set (comp := composite_of cw tw conv _ _ ntr _ edge).
  destruct (lt comp best) eqn:Hlt.
  2:{ exists st, pq. split_and!; auto. }
  assert (destination edge ≠ current) as Hne1
    by (intros E; by rewrite E in Hnb).
  assert (destination edge ≠ start) as Hne2
    by (intros E; by rewrite E in Hnb).
  eexists _, _. split; [reflexivity |]. split_and!.
  - destruct Hinv as [Idom Ivis Inodup Istart Iroot Iclosed Ipred Iunt
                        Itr Iscore].
    split; unfold record_reached;
      cbn [distances costs times distances_km transfers previous edge_info].
    + intros k Hk. rewrite !lookup_insert_is_Some.
      destruct (Idom k Hk) as (?&?&?&?&?&?&?).
      split_and!; destruct (decide (destination edge = k)); auto.
    + done.
    + done.
    + by rewrite !lookup_insert_ne.
    + intros n Hn Hns. rewrite lookup_insert_ne; [by apply Iroot |].
      intros E. by rewrite E in Hnb.
    + done.
    + intros n c. destruct (decide (destination edge = n)) as [<-|Hn].
      * rewrite lookup_insert_eq. intros [= <-]. split_and!; try done.
        { apply (connected_snoc64 _ _ current); [by apply Iclosed |].
          by exists es. }
        exists edge, cc, ct, cd, tr, info, ntr.
        cbn [distances costs times distances_km transfers previous
               edge_info].
        rewrite !lookup_insert_eq, !lookup_insert_ne by done.
        split_and!; try done. by exists es.
      * rewrite lookup_insert_ne by done. intros Hp.
        destruct (Ipred n c Hp) as (Hns & Hc & Hconn & Hrec).
        split_and!; try done.
        assert (destination edge ≠ c) by (intros E; by rewrite E in Hnb).
        destruct Hrec as (e & cc' & ct' & cd' & tr' & info' & ntr' & Hrec).
        exists e, cc', ct', cd', tr', info', ntr'.
        cbn [distances costs times distances_km transfers previous
               edge_info].
        by rewrite !lookup_insert_ne.
    + intros n Hns. destruct (decide (destination edge = n)) as [<-|Hn].
      * by rewrite lookup_insert_eq.
      * rewrite lookup_insert_ne by done. intros Hp.
        unfold untouched.
        cbn [distances costs times distances_km transfers previous
               edge_info].
        rewrite !lookup_insert_ne by done. by apply Iunt.
    + intros n tr'. destruct (decide (destination edge = n)) as [<-|Hn].
      * rewrite lookup_insert_eq. intros [= <-]. split; [lia | done].
      * rewrite lookup_insert_ne by done. apply Itr.
    + intros Hcw Htw Hconv n [c Hp].
      destruct (decide (destination edge = n)) as [<-|Hn].
      * rewrite lookup_insert_eq. exists comp. split; [done |].
        apply (lt_finite _ best Hlt).
        by apply composite_not_negative.
      * rewrite lookup_insert_ne in Hp by done.
        rewrite lookup_insert_ne by done.
        apply (Iscore Hcw Htw Hconv). by exists c.
  - intros x [->|Hx]%elem_of_cons; unfold record_reached;
      cbn [previous snd].
    + split; [done |]. right. rewrite lookup_insert_eq. eauto.
    + destruct (Hpq x Hx) as [? [?|[c Hc]]]; split; auto.
      right. destruct (decide (destination edge = x.2)) as [<-|Hn].
      * rewrite lookup_insert_eq. eauto.
      * rewrite lookup_insert_ne by done. eauto.
  - simpl. lia.
Qed.

Lemma relax_fold_inv64 vis current es l : ∀ st pq,
  search_inv self start cw tw conv st vis → heap_inv self start st pq →
  current ∈ vis → start ∈ vis →
  graph self !! current = Some es → (∀ e, e ∈ l → e ∈ es) →
  ∃ st' pq',
    foldM (relax cw tw conv vis current) (st, pq) l = Ok (st', pq') ∧
    search_inv self start cw tw conv st' vis ∧
    heap_inv self start st' pq' ∧
    (length pq' ≤ length pq + length l)%nat.
Proof.
  induction l as [|e l IH]; intros st pq Hinv Hpq Hcur Hstart Hes Hl.
  - exists st, pq. simpl. split_and!; auto. lia.
  - destruct (relax_inv64 st pq vis current e)
      as (st1 & pq1 & E & H1 & H2 & H3); auto.
    { exists es. split; [done |]. apply Hl. left. }
    destruct (IH st1 pq1) as (st2 & pq2 & E2 & ? & ? & ?); auto.
    { intros e' He'. apply Hl. by right. }
    exists st2, pq2. cbn [foldM]. rewrite E. cbn [mbind exc_bind].
    split_and!; auto. simpl. lia.
Qed.

Lemma visit_inv64 st vis current :
  search_inv self start cw tw conv st vis →
  current ∉ vis → current ∈ keys self →
  (current = start ∨ ∃ c, previous st !! current = Some (Some c)) →
  search_inv self start cw tw conv st (current :: vis).
Proof.
  intros [Idom Ivis Inodup Istart Iroot Iclosed Ipred Iunt Itr Iscore]
    Hnew HK Hpred.
  split; auto.
  - intros n [->|?]%elem_of_cons; auto.
  - by constructor.
  - intros n [->|?]%elem_of_cons Hne; auto. by destruct Hpred.
  - intros n [->|?]%elem_of_cons; auto.
    destruct Hpred as [->|[c Hc]]; [constructor |].
    by destruct (Ipred _ _ Hc) as (_ & _ & ? & _).
  - intros n c Hp. destruct (Ipred n c Hp) as (? & ? & ? & ?).
    split_and!; try done. by right.
  - intros n tr Htr. destruct (Itr n tr Htr) as [H0 H1].
    cbn [length]. split; [lia |].
    intros [->|Hn]%elem_of_cons; [lia |]. specialize (H1 Hn). lia.
Qed.

(** The loop returns once the fuel exceeds the heap size plus the
    number of edges leaving open nodes. *)
Lemma dijkstra_loop_ok64 fuel : ∀ st pq vis,
  search_inv self start cw tw conv st vis → heap_inv self start st pq →
  start_inv start pq vis →
  (length pq + remaining (graph self) vis < fuel)%nat →
  ∃ st' vis',
    dijkstra_loop self end_ cw tw conv fuel st pq vis = Ok st' ∧
    search_inv self start cw tw conv st' vis'.
Proof.
  induction fuel as [|fuel IH]; intros st pq vis Hinv Hpq Hst Hfuel; [lia |].
  cbn [dijkstra_loop].
  destruct (heappop pq) as [[[d current] pq1]|] eqn:Hpop; [|eauto].
  destruct (heappop_Some64 _ _ _ Hpop) as (Hin & Hlen & Hsub).
  assert (heap_inv self start st pq1) as Hpq1 by (intros x Hx; auto).
  case_bool_decide as Hvis.
  { apply IH; auto; [|lia].
    destruct Hst as [?|[-> _]]; [by left | by apply elem_of_nil in Hvis]. }
  destruct (Hpq _ Hin) as [HK Hpred]. cbn [snd] in HK, Hpred.
  pose proof (visit_inv64 _ _ _ Hinv Hvis HK Hpred) as Hinv'.
  assert (start ∈ current :: vis) as Hstart.
  { destruct Hst as [?|[-> ->]]; [by right |].
    apply list_elem_of_singleton in Hin as [= _ ->]. left. }
  destruct (String.eqb current end_); [eauto |].
  destruct (graph self !! current) as [edges|] eqn:Hedges.
  - pose proof (remaining_visit_Some64 _ _ _ _ Hedges Hvis) as Hrem.
    destruct (relax_fold_inv64 (current :: vis) current edges edges st pq1)
      as (st2 & pq2 & -> & ? & ? & ?); auto; [left |].
    cbn [mbind exc_bind]. apply IH; auto; [by left | lia].
  - apply IH; auto; [by left |].
    rewrite remaining_visit_None64 by done. lia.
Qed.

Lemma dijkstra_init_inv64 :
  start ∈ keys self →
  search_inv self start cw tw conv
    {| distances := <[start := zero]> (dict_from_keys (locations self) inf);
       costs := <[start := zero]> (dict_from_keys (locations self) inf);
       times := <[start := zero]> (dict_from_keys (locations self) inf);
       distances_km :=
         <[start := zero]> (dict_from_keys (locations self) inf);
       transfers := <[start := 0%Z]> (dict_from_keys (locations self) 0%Z);
       previous := dict_from_keys (locations self) None;
       edge_info := dict_from_keys (locations self) None |} [].
Proof.
  intros HK.
  split; cbn [distances costs times distances_km transfers previous edge_info].
  - intros k Hk. rewrite !lookup_insert_is_Some, !dict_from_keys_lookup64.
    unfold keys in Hk. rewrite !bool_decide_eq_true_2 by done.
    split_and!; eauto; destruct (decide (start = k)); eauto.
  - by intros n ?%elem_of_nil.
  - constructor.
  - rewrite !lookup_insert_eq, !dict_from_keys_lookup64.
    unfold keys in HK. by rewrite bool_decide_eq_true_2.
  - by intros n ?%elem_of_nil.
  - by intros n ?%elem_of_nil.
  - intros n c. rewrite dict_from_keys_lookup64. by case_bool_decide.
  - intros n Hn. rewrite dict_from_keys_lookup64.
    case_bool_decide as Hk; [|done]. intros _. unfold untouched.
    cbn [distances costs times distances_km transfers previous edge_info].
    rewrite !lookup_insert_ne, !dict_from_keys_lookup64 by done.
    by rewrite !bool_decide_eq_true_2.
  - intros n tr. cbn [length]. destruct (decide (start = n)) as [<-|Hn].
    + rewrite lookup_insert_eq. intros [= <-].
      split; [lia | by intros ?%elem_of_nil].
    + rewrite lookup_insert_ne, dict_from_keys_lookup64 by done.
      case_bool_decide; [|done]. intros [= <-].
      split; [lia | by intros ?%elem_of_nil].
  - intros _ _ _ n [c Hc]. rewrite dict_from_keys_lookup64 in Hc.
    by case_bool_decide.
Qed.

(** [_dijkstra] returns a state, and the state satisfies the
    invariants for some list of closed nodes. *)
Lemma dijkstra_ok64 :
  start ∈ keys self →
  ∃ st vis, _dijkstra self start end_ cw tw conv = Ok st ∧
            search_inv self start cw tw conv st vis.
Proof.
  intros HK. unfold _dijkstra. cbv zeta.
  apply dijkstra_loop_ok64.
  - by apply dijkstra_init_inv64.
  - intros x ->%list_elem_of_singleton. split; [done | by left].
  - by right.
  - change (edge_count self) with (remaining (graph self) []).
    simpl. lia.
Qed.
End SearchInvariants64.

(** * The search in binary64 arithmetic: what it records *)

Section Records64.
Import Binary64.

Lemma tie_net_wf : graph_wf tie_net.
Proof. apply wf_check_spec. vm_compute. reflexivity. Qed.

Lemma tie_net_start : "A" ∈ keys tie_net.
Proof. apply (bool_decide_unpack _). vm_compute. exact I. Qed.

Lemma tie_net_size : (Z.of_nat (length (locations tie_net)) < max_int)%Z.
Proof. vm_compute. reflexivity. Qed.

(** X13.  In binary64 arithmetic, a search from a catalogued start on
    a graph whose edges lead to catalogued locations returns, and in
    its result what is recorded for a location that has a predecessor
    comes from the predecessor and from the edge recorded with it:
    the edge leaves the predecessor and leads to the location; cost,
    time and distance are the float sums of the predecessor's and the
    edge's; the transfer count is the predecessor's, plus one if the
    mode changes; and the score is the composite of these values. *)
Theorem X13_predecessor_records (self : Optimizer) (start end_ : string)
    (cw tw conv : float) :
  graph_wf self → start ∈ keys self →
  (Z.of_nat (length (locations self)) < max_int)%Z →
  ∃ st,
    _dijkstra self start end_ cw tw conv = Ok st ∧
    ∀ n c, previous st !! n = Some (Some c) →
      ∃ e cc ct cd tr info ntr,
        edge_info st !! n = Some (Some e) ∧
        has_edge self c e ∧ destination e = n ∧
        costs st !! c = Some cc ∧ times st !! c = Some ct ∧
        distances_km st !! c = Some cd ∧
        transfers st !! c = Some tr ∧ edge_info st !! c = Some info ∧
        costs st !! n = Some (add cc (cost e)) ∧
        times st !! n = Some (add ct (time e)) ∧
        distances_km st !! n = Some (add cd (distance e)) ∧
        transfers st !! n = Some (transfers_after tr info e) ∧
        norm_transfers_of (transfers_after tr info e) = Ok ntr ∧
        distances st !! n
        = Some (composite_of cw tw conv (add cc (cost e))
                  (add ct (time e)) ntr (mode_changed info e) e).
Proof.
  intros Hwf Hs Hsize.
  destruct (dijkstra_ok64 self Hwf start end_ cw tw conv Hsize Hs)
    as (st & vis & Hst & Hinv).
  exists st. split; [exact Hst |]. intros n c Hp.
  by destruct (inv_pred _ _ _ _ _ _ _ Hinv n c Hp) as (_ & _ & _ & Hrec).
Qed.

Lemma X13_predecessor_records_witness :
  ∃ st,
    _dijkstra tie_net "A" "D" (literal 1) zero zero = Ok st ∧
    ∀ n c, previous st !! n = Some (Some c) →
      ∃ e cc ct cd tr info ntr,
        edge_info st !! n = Some (Some e) ∧
        has_edge tie_net c e ∧ destination e = n ∧
        costs st !! c = Some cc ∧ times st !! c = Some ct ∧
        distances_km st !! c = Some cd ∧
        transfers st !! c = Some tr ∧ edge_info st !! c = Some info ∧
        costs st !! n = Some (add cc (cost e)) ∧
        times st !! n = Some (add ct (time e)) ∧
        distances_km st !! n = Some (add cd (distance e)) ∧
        transfers st !! n = Some (transfers_after tr info e) ∧
        norm_transfers_of (transfers_after tr info e) = Ok ntr ∧
        distances st !! n
        = Some (composite_of (literal 1) zero zero (add cc (cost e))
                  (add ct (time e)) ntr (mode_changed info e) e).
Proof.
  exact (X13_predecessor_records tie_net "A" "D" (literal 1) zero zero
           tie_net_wf tie_net_start tie_net_size).
Defined.

(** X14.  In binary64 arithmetic and with weights that are not
    negative, every catalogued location other than the start is, in
    the result of a search, either untouched, with infinite score,
    cost, time and distance and no predecessor, or it has a finite
    score and a predecessor and can be reached from the start along
    edges of the graph. *)
Theorem X14_reached_or_untouched (self : Optimizer) (start end_ : string)
    (cw tw conv : float) :
  graph_wf self → start ∈ keys self →
  (Z.of_nat (length (locations self)) < max_int)%Z →
  not_negative cw = true → not_negative tw = true →
  not_negative conv = true →
  ∃ st,
    _dijkstra self start end_ cw tw conv = Ok st ∧
    ∀ n, n ∈ keys self → n ≠ start →
      untouched st n ∨
      ((∃ d, distances st !! n = Some d ∧ finite d = true) ∧
       (∃ c, previous st !! n = Some (Some c)) ∧
       connected self start n).
Proof.
  intros Hwf Hs Hsize Hcw Htw Hconv.
  destruct (dijkstra_ok64 self Hwf start end_ cw tw conv Hsize Hs)
    as (st & vis & Hst & Hinv).
  exists st. split; [exact Hst |]. intros n Hn Hne.
  destruct (inv_dom _ _ _ _ _ _ _ Hinv _ Hn)
    as (_ & _ & _ & _ & _ & [p Hp] & _).
  destruct p as [c|].
  - right. split_and!.
    + apply (inv_score _ _ _ _ _ _ _ Hinv Hcw Htw Hconv). by exists c.
    + by exists c.
    + by destruct (inv_pred _ _ _ _ _ _ _ Hinv n c Hp) as (_ & _ & ? & _).
  - left. by apply (inv_untouched _ _ _ _ _ _ _ Hinv).
Qed.

Lemma X14_reached_or_untouched_witness :
  ∃ st,
    _dijkstra tie_net "A" "D" (literal 0.8) (literal 0.1) (literal 0.1)
    = Ok st ∧
    ∀ n, n ∈ keys tie_net → n ≠ "A" →
      untouched st n ∨
      ((∃ d, distances st !! n = Some d ∧ finite d = true) ∧
       (∃ c, previous st !! n = Some (Some c)) ∧
       connected tie_net "A" n).
Proof.
  apply (X14_reached_or_untouched tie_net "A" "D" (literal 0.8)
           (literal 0.1) (literal 0.1) tie_net_wf tie_net_start
           tie_net_size).
  - vm_compute. reflexivity.
  - vm_compute. reflexivity.
  - vm_compute. reflexivity.
Defined.
End Records64.
